(** * Grid Coder (dark-maze): command expansion, step interpreter, map generator

    A shallow embedding of [src/main.js] (the path-first version of the game,
    with the two conditional commands IFBLUE_R and IFBLUE_L).

    Conventions of the embedding:
    - command and action tokens are the JavaScript strings of the source;
    - grid coordinates and headings are integers ([Z]); array indices of the
      command queue are naturals;
    - the process-wide variables of the script are the fields of [World];
    - a JavaScript [TypeError] (reading a property of [undefined]) is an
      explicit outcome, never silently skipped;
    - DOM rendering ([renderGrid], [renderQueue], [updateAgentVisual], the two
      animations, [disableCommandInputs]) is outside the embedding; what the
      view shows of a run's verdict (status text, the two overlays) is kept. *)

From stdpp Require Import base numbers list strings pretty gmap sorting.

Local Open Scope string_scope.
Local Open Scope list_scope.
Local Open Scope Z_scope.

(** ** Constants *)

Definition GRID_SIZE : Z := 5.

Record Dir := mkDir { dx : Z; dy : Z; rotation : Z }.

(** Heading code: 0 = up, 1 = right, 2 = down, 3 = left. *)
Definition DIRS : list Dir :=
  [ mkDir 0 (-1) 0; mkDir 1 0 90; mkDir 0 1 180; mkDir (-1) 0 270 ].

(** ** JavaScript array reads

    [a[i]] for an integer [i]: [None] stands for [undefined]. *)
Definition index {A} (a : list A) (i : Z) : option A :=
  if bool_decide (0 ≤ i) then a !! Z.to_nat i else None.

(** [grid[y][x]]: [None] is the [TypeError] of indexing the [undefined] row
    [grid[y]]; [Some None] is an [undefined] cell of an existing row. *)
Definition gridGet (g : list (list string)) (x y : Z)
    : option (option string) :=
  match index g y with
  | None => None
  | Some row => Some (index row x)
  end.

(** [grid[y][x] = v] for a cell that exists. [None] stands for what is not
    represented: the [TypeError] when [grid[y]] is [undefined], and a write
    outside the row (JavaScript would grow the row or add a property). *)
Definition gridSet (g : list (list string)) (x y : Z) (v : string)
    : option (list (list string)) :=
  match index g y with
  | None => None
  | Some row =>
      if bool_decide (0 ≤ x < Z.of_nat (length row))
      then Some (<[Z.to_nat y := <[Z.to_nat x := v]> row]> g)
      else None
  end.

(** ** Command expander *)

Record Step := mkStep { fromIndex : nat; action : string }.

(** The body of the [for] loop of [expandCommandsForExecution], at index [i]
    holding [cmd]: the steps pushed by this iteration. [!next] holds when
    [commandQueue[i + 1]] is [undefined] (past the end) or the empty
    string. *)
Definition expandBody (commandQueue : list string) (i : nat) (cmd : string)
    : list Step :=
  if String.eqb cmd "LOOP2" then
    match commandQueue !! (i + 1)%nat with
    | None => [mkStep i "NOOP"]
    | Some next =>
        if String.eqb next "" then [mkStep i "NOOP"]
        else [mkStep i next; mkStep i next]
    end
  else if String.eqb cmd "IFBLUE_R" then [mkStep i "IFBLUE_R"]
  else if String.eqb cmd "IFBLUE_L" then [mkStep i "IFBLUE_L"]
  else [mkStep i cmd].

(** [for (let i = ...; i < commandQueue.length; i++)]: the loop leaves when
    [commandQueue[i]] is past the end; [fuel] bounds the iterations. *)
Fixpoint expandLoop (commandQueue : list string) (fuel i : nat)
    (steps : list Step) : list Step :=
  match fuel with
  | O => steps
  | S fuel' =>
      match commandQueue !! i with
      | None => steps
      | Some cmd =>
          expandLoop commandQueue fuel' (S i)
            (steps ++ expandBody commandQueue i cmd)
      end
  end.

Definition expandCommandsForExecution (commandQueue : list string)
    : list Step :=
  expandLoop commandQueue (length commandQueue) 0 [].

(** ** Global state *)

Record Pos := mkPos { pos_x : Z; pos_y : Z }.

#[global] Instance Pos_eq_dec : EqDecision Pos.
Proof. solve_decision. Defined.

Record Agent := mkAgent { agent_x : Z; agent_y : Z; agent_dir : Z }.

(** Cell kinds are the strings "empty", "wall", "blue" and "goal";
    [grid[y][x]] is row [y], column [x]. *)
Definition Grid := list (list string).

Record World := mkWorld {
  grid : Grid;
  startPos : Pos;
  goalPos : Pos;
  agentState : Agent;
  commandQueue : list string;
  isRunning : bool;
  currentHighlightIndex : option nat;
  (* the view: [statusTextEl.textContent] and the class "overlay-hidden" of
     the two overlays *)
  statusText : string;
  overlaySuccessHidden : bool;
  overlayFailHidden : bool
}.

Definition set_grid (w : World) (g : Grid) : World :=
  mkWorld g (startPos w) (goalPos w) (agentState w) (commandQueue w)
    (isRunning w) (currentHighlightIndex w) (statusText w)
    (overlaySuccessHidden w) (overlayFailHidden w).

Definition set_startPos (w : World) (p : Pos) : World :=
  mkWorld (grid w) p (goalPos w) (agentState w) (commandQueue w)
    (isRunning w) (currentHighlightIndex w) (statusText w)
    (overlaySuccessHidden w) (overlayFailHidden w).

Definition set_goalPos (w : World) (p : Pos) : World :=
  mkWorld (grid w) (startPos w) p (agentState w) (commandQueue w)
    (isRunning w) (currentHighlightIndex w) (statusText w)
    (overlaySuccessHidden w) (overlayFailHidden w).

Definition set_agentState (w : World) (a : Agent) : World :=
  mkWorld (grid w) (startPos w) (goalPos w) a (commandQueue w)
    (isRunning w) (currentHighlightIndex w) (statusText w)
    (overlaySuccessHidden w) (overlayFailHidden w).

Definition set_isRunning (w : World) (b : bool) : World :=
  mkWorld (grid w) (startPos w) (goalPos w) (agentState w) (commandQueue w)
    b (currentHighlightIndex w) (statusText w)
    (overlaySuccessHidden w) (overlayFailHidden w).

Definition setQueueHighlight (w : World) (idx : option nat) : World :=
  mkWorld (grid w) (startPos w) (goalPos w) (agentState w) (commandQueue w)
    (isRunning w) idx (statusText w)
    (overlaySuccessHidden w) (overlayFailHidden w).

Definition updateStatus (w : World) (text : string) : World :=
  mkWorld (grid w) (startPos w) (goalPos w) (agentState w) (commandQueue w)
    (isRunning w) (currentHighlightIndex w) text
    (overlaySuccessHidden w) (overlayFailHidden w).

Definition showSuccessOverlay (w : World) : World :=
  mkWorld (grid w) (startPos w) (goalPos w) (agentState w) (commandQueue w)
    (isRunning w) (currentHighlightIndex w) (statusText w) false true.

Definition showFailOverlay (w : World) : World :=
  mkWorld (grid w) (startPos w) (goalPos w) (agentState w) (commandQueue w)
    (isRunning w) (currentHighlightIndex w) (statusText w) true false.

(** Assignments to single fields of [agentState]. *)
Definition set_agent_x (w : World) (v : Z) : World :=
  set_agentState w
    (mkAgent v (agent_y (agentState w)) (agent_dir (agentState w))).

Definition set_agent_y (w : World) (v : Z) : World :=
  set_agentState w
    (mkAgent (agent_x (agentState w)) v (agent_dir (agentState w))).

Definition set_agent_dir (w : World) (v : Z) : World :=
  set_agentState w
    (mkAgent (agent_x (agentState w)) (agent_y (agentState w)) v).

Definition resetAgentToStart (w : World) : World :=
  let w := set_agent_x w (pos_x (startPos w)) in
  let w := set_agent_y w (pos_y (startPos w)) in
  set_agent_dir w 1.

(** ** Step interpreter *)

(** [v === s] for a cell read [v] ([None] is [undefined]). *)
Definition strictEq (v : option string) (s : string) : bool :=
  match v with
  | Some c => String.eqb c s
  | None => false
  end.

(** The status texts of the source. *)
Definition MSG_OUT_OF_BOUNDS : string := "走出邊界，演算法失敗。".
Definition MSG_HIT_WALL : string := "撞到牆壁，演算法失敗。".
Definition MSG_REACHED_GOAL : string := "成功抵達終點！".
Definition MSG_NOT_AT_GOAL : string := "指令結束，但尚未抵達終點。".
Definition MSG_STARTING : string := "開始執行演算法…".
Definition MSG_NO_STEPS : string := "沒有可執行的有效指令。".

(** What a call of [performStep] does: it returns [continueRun], or a read of
    [grid[y][x]] or [DIRS[dir].dx] hits [undefined] and a [TypeError]
    propagates. Both carry the globals as the call leaves them. *)
Inductive StepOutcome :=
  | Returned (w : World) (continueRun : bool)
  | Threw (w : World).

Definition performStep (w : World) (step : Step) : StepOutcome :=
  let type := action step in
  let a := agentState w in
  if String.eqb type "NOOP" || String.eqb type "NOOP_COND" then
    Returned w true
  else if String.eqb type "IFBLUE_R" then
    match gridGet (grid w) (agent_x a) (agent_y a) with
    | None => Threw w
    | Some currentCellType =>
        if strictEq currentCellType "blue"
        then Returned (set_agent_dir w ((agent_dir a + 1) `rem` 4)) true
        else Returned w true
    end
  else if String.eqb type "IFBLUE_L" then
    match gridGet (grid w) (agent_x a) (agent_y a) with
    | None => Threw w
    | Some currentCellType =>
        if strictEq currentCellType "blue"
        then Returned (set_agent_dir w ((agent_dir a + 3) `rem` 4)) true
        else Returned w true
    end
  else if String.eqb type "L" then
    Returned (set_agent_dir w ((agent_dir a + 3) `rem` 4)) true
  else if String.eqb type "R" then
    Returned (set_agent_dir w ((agent_dir a + 1) `rem` 4)) true
  else if String.eqb type "F" then
    match index DIRS (agent_dir a) with
    | None => Threw w
    | Some dirInfo =>
        let nextX := agent_x a + dx dirInfo in
        let nextY := agent_y a + dy dirInfo in
        if (nextX <? 0) || (nextX >=? GRID_SIZE)
           || (nextY <? 0) || (nextY >=? GRID_SIZE)
        then
          Returned (showFailOverlay (updateStatus w MSG_OUT_OF_BOUNDS)) false
        else
          match gridGet (grid w) nextX nextY with
          | None => Threw w
          | Some cellType =>
              if strictEq cellType "wall" then
                Returned (showFailOverlay (updateStatus w MSG_HIT_WALL)) false
              else
                let w := set_agent_x w nextX in
                let w := set_agent_y w nextY in
                if strictEq cellType "goal" then
                  Returned
                    (showSuccessOverlay (updateStatus w MSG_REACHED_GOAL))
                    false
                else Returned w true
          end
    end
  else Returned w true.

Definition endExecutionCheck (w : World) : World :=
  let w := set_isRunning w false in
  let w := setQueueHighlight w None in
  if (agent_x (agentState w) =? pos_x (goalPos w))
     && (agent_y (agentState w) =? pos_y (goalPos w))
  then showSuccessOverlay (updateStatus w MSG_REACHED_GOAL)
  else showFailOverlay (updateStatus w MSG_NOT_AT_GOAL).

(** The run, as the interval timer of [startExecution] drives it.
    - [TimerArmed w stepIndex]: the timer is set, [stepIndex] steps consumed;
    - [TimerCleared w stepIndex]: [clearInterval] was called and
      [endExecutionCheck] has run (the 0.4 * STEP_DELAY pause before it on an
      early stop is not represented);
    - [TimerThrowing w stepIndex]: [performStep] threw inside the callback;
      [stepIndex] was not advanced, so every later tick throws again;
    - [NoTimer w]: [startExecution] returned before setting the timer. *)
Inductive RunState :=
  | TimerArmed (w : World) (stepIndex : nat)
  | TimerCleared (w : World) (stepIndex : nat)
  | TimerThrowing (w : World) (stepIndex : nat)
  | NoTimer (w : World).

(** One firing of the [setInterval] callback. *)
Definition tick (steps : list Step) (w : World) (stepIndex : nat)
    : RunState :=
  match steps !! stepIndex with
  | None => TimerCleared (endExecutionCheck w) stepIndex
  | Some step =>
      let w := setQueueHighlight w (Some (fromIndex step)) in
      match performStep w step with
      | Threw w => TimerThrowing w stepIndex
      | Returned w continueRun =>
          let stepIndex := S stepIndex in
          if negb continueRun
          then TimerCleared (endExecutionCheck w) stepIndex
          else TimerArmed w stepIndex
      end
  end.

(** The state of a run [ticks] firings later. *)
Fixpoint runTicks (steps : list Step) (ticks : nat) (s : RunState)
    : RunState :=
  match ticks with
  | O => s
  | S ticks' =>
      match s with
      | TimerArmed w stepIndex => runTicks steps ticks' (tick steps w stepIndex)
      | _ => s
      end
  end.

(** [startExecution], observed [ticks] timer firings after the call. *)
Definition startExecution (w : World) (ticks : nat) : RunState :=
  let w := set_isRunning w true in
  let w := updateStatus w MSG_STARTING in
  let w := setQueueHighlight w None in
  let w := resetAgentToStart w in
  let steps := expandCommandsForExecution (commandQueue w) in
  match steps with
  | [] => NoTimer (set_isRunning (updateStatus w MSG_NO_STEPS) false)
  | _ :: _ => runTicks steps ticks (TimerArmed w 0)
  end.

(** ** Map generator (path first) *)

(** What [generateRandomMap] leaves behind, with the locals of the call that
    the statements below refer to. *)
Record Generated := mkGenerated {
  gen_world : World;
  gen_calls : nat;              (* calls of [Math.random] made so far *)
  gen_attempts : Z;
  gen_solutionPath : list Pos;
  gen_corners : list Pos;
  gen_selectedCorners : list Pos;
  gen_wallCount : Z;
  gen_placedWalls : Z;
  gen_wallAttempts : Z
}.

Section Generator.

(** The random source. [Math.random()] yields a float [u] with
    [0 <= u < 1]; the source only ever uses [Math.floor(u * k)] for a
    positive integer [k], and [u > 0.5]. The [c]-th call is represented by
    the natural number [rnd c]: [Math.floor(u * k)] is [rnd c mod k] (any
    value of [0 .. k-1], nothing else) and [u > 0.5] is its parity. *)
Variable rnd : nat → nat.

Definition randomFloorTimes (k : Z) (c : nat) : Z := Z.of_nat (rnd c) `mod` k.

Definition randomGtHalf (c : nat) : bool := Nat.odd (rnd c).

(** [randInt(min, max)]; the second component counts the call. *)
Definition randInt (min max : Z) (c : nat) : Z * nat :=
  (randomFloorTimes (max - min + 1) c + min, S c).

(** The [do ... while] loop that draws [goalPos]; [None] when the loop is
    still running after [fuel] rounds. *)
Fixpoint goalLoop (fuel : nat) (startPos : Pos) (attempts : Z) (c : nat)
    : option (Pos * Z * nat) :=
  match fuel with
  | O => None
  | S fuel' =>
      let '(gx, c) := randInt 0 (GRID_SIZE - 1) c in
      let '(gy, c) := randInt 0 (GRID_SIZE - 1) c in
      let goalPos := mkPos gx gy in
      let attempts := attempts + 1 in
      if attempts >? 50 then Some (goalPos, attempts, c)
      else if ((pos_x goalPos =? pos_x startPos)
               && (pos_y goalPos =? pos_y startPos))
              || (Z.abs (pos_x goalPos - pos_x startPos)
                  + Z.abs (pos_y goalPos - pos_y startPos) <? 6)
      then goalLoop fuel' startPos attempts c
      else Some (goalPos, attempts, c)
  end.

(** [for (let v = ...; v !== to; v += step) expandedPath.push(cell v)];
    [None] when the loop is still running after [fuel] rounds. *)
Fixpoint fillLoop (fuel : nat) (v to step : Z) (cell : Z → Pos)
    (expandedPath : list Pos) : option (list Pos) :=
  if v =? to then Some expandedPath
  else match fuel with
       | O => None
       | S fuel' =>
           fillLoop fuel' (v + step) to step cell (expandedPath ++ [cell v])
       end.

(** The loop over consecutive way points [path[i]], [path[i + 1]]. *)
Fixpoint expandSegments (fuel : nat) (path : list Pos)
    (expandedPath : list Pos) : option (list Pos) :=
  match path with
  | from :: rest =>
      match rest with
      | to :: _ =>
          let expandedPath := expandedPath ++ [from] in
          expandedPath ←
            (if pos_x from =? pos_x to then
               let step := if pos_y from <? pos_y to then 1 else -1 in
               fillLoop fuel (pos_y from + step) (pos_y to) step
                 (λ y, mkPos (pos_x from) y) expandedPath
             else if pos_y from =? pos_y to then
               let step := if pos_x from <? pos_x to then 1 else -1 in
               fillLoop fuel (pos_x from + step) (pos_x to) step
                 (λ x, mkPos x (pos_y from)) expandedPath
             else Some expandedPath);
          expandSegments fuel rest expandedPath
      | [] => Some expandedPath
      end
  | [] => Some expandedPath
  end.

(** The way points of [generateSolutionPath], before they are expanded.
    [None] is the [TypeError] of [path[path.length - 1].x] on an empty
    [path]; [path] starts with one point, so it does not occur. *)
Definition wayPoints (start goal : Pos) (useHorizontalFirst : bool)
    : option (list Pos) :=
  let path := [mkPos (pos_x start) (pos_y start)] in
  let path :=
    if useHorizontalFirst then
      let midX := pos_x goal in
      let midY := pos_y start in
      let path :=
        if negb (midX =? pos_x start) then path ++ [mkPos midX midY]
        else path in
      if negb (midY =? pos_y goal)
      then path ++ [mkPos (pos_x goal) (pos_y goal)] else path
    else
      let midX := pos_x start in
      let midY := pos_y goal in
      let path :=
        if negb (midY =? pos_y start) then path ++ [mkPos midX midY]
        else path in
      if negb (midX =? pos_x goal)
      then path ++ [mkPos (pos_x goal) (pos_y goal)] else path in
  match last path with
  | None => None
  | Some l =>
      if negb (pos_x l =? pos_x goal) || negb (pos_y l =? pos_y goal)
      then Some (path ++ [mkPos (pos_x goal) (pos_y goal)])
      else Some path
  end.

Definition generateSolutionPath (fuel : nat) (start goal : Pos) (c : nat)
    : option (list Pos * nat) :=
  let useHorizontalFirst := randomGtHalf c in
  let c := S c in
  path ← wayPoints start goal useHorizontalFirst;
  expandedPath ← expandSegments fuel path [];
  Some (expandedPath ++ [mkPos (pos_x goal) (pos_y goal)], c).

(** [findCorners]: [i] runs over the interior points of [path]. *)
Fixpoint findCorners (path : list Pos) : list Pos :=
  match path with
  | prev :: rest =>
      match rest with
      | curr :: next :: _ =>
          let dx1 := pos_x curr - pos_x prev in
          let dy1 := pos_y curr - pos_y prev in
          let dx2 := pos_x next - pos_x curr in
          let dy2 := pos_y next - pos_y curr in
          (if (negb (dx1 =? 0) && negb (dy2 =? 0))
              || (negb (dy1 =? 0) && negb (dx2 =? 0))
           then [mkPos (pos_x curr) (pos_y curr)] else [])
          ++ findCorners rest
      | _ => []
      end
  | [] => []
  end.

(** [[shuffled[i], shuffled[j]] = [shuffled[j], shuffled[i]]], for indices
    inside the array (the loop below only produces such). *)
Definition swap (shuffled : list Pos) (i j : nat) : list Pos :=
  match shuffled !! i, shuffled !! j with
  | Some vi, Some vj => <[j := vi]> (<[i := vj]> shuffled)
  | _, _ => shuffled
  end.

(** [for (let i = ...; i > 0; i--)] of [shuffleArray]. *)
Fixpoint shuffleLoop (i : nat) (shuffled : list Pos) (c : nat)
    : list Pos * nat :=
  match i with
  | O => (shuffled, c)
  | S i' =>
      let j := Z.to_nat (randomFloorTimes (Z.of_nat i + 1) c) in
      shuffleLoop i' (swap shuffled i j) (S c)
  end.

Definition shuffleArray (array : list Pos) (c : nat) : list Pos * nat :=
  shuffleLoop (length array - 1) array c.

(** The key [`${x},${y}`] of a cell in [pathCells]. *)
Definition cellKey (x y : Z) : string := pretty x +:+ "," +:+ pretty y.

Definition addPathCells (solutionPath : list Pos) : gset string :=
  foldl (λ pathCells p, {[ cellKey (pos_x p) (pos_y p) ]} ∪ pathCells)
    ∅ solutionPath.

(** [selectedCorners.forEach(...)]. *)
Fixpoint placeBlue (selectedCorners : list Pos) (startPos goalPos : Pos)
    (grid : Grid) : option Grid :=
  match selectedCorners with
  | [] => Some grid
  | p :: rest =>
      let x := pos_x p in
      let y := pos_y p in
      if negb ((x =? pos_x startPos) && (y =? pos_y startPos))
         && negb ((x =? pos_x goalPos) && (y =? pos_y goalPos))
      then grid ← gridSet grid x y "blue";
           placeBlue rest startPos goalPos grid
      else placeBlue rest startPos goalPos grid
  end.

(** The [while] loop that places walls. *)
Fixpoint wallLoop (fuel : nat) (pathCells : gset string)
    (startPos goalPos : Pos) (wallCount : Z) (grid : Grid)
    (placedWalls wallAttempts : Z) (c : nat)
    : option (Grid * Z * Z * nat) :=
  if (placedWalls <? wallCount) && (wallAttempts <? 100) then
    match fuel with
    | O => None
    | S fuel' =>
        let '(x, c) := randInt 0 (GRID_SIZE - 1) c in
        let '(y, c) := randInt 0 (GRID_SIZE - 1) c in
        let key := cellKey x y in
        if negb (bool_decide (key ∈ pathCells))
           && negb ((x =? pos_x startPos) && (y =? pos_y startPos))
           && negb ((x =? pos_x goalPos) && (y =? pos_y goalPos))
        then
          cell ← gridGet grid x y;
          if strictEq cell "empty" then
            grid ← gridSet grid x y "wall";
            wallLoop fuel' pathCells startPos goalPos wallCount grid
              (placedWalls + 1) (wallAttempts + 1) c
          else
            wallLoop fuel' pathCells startPos goalPos wallCount grid
              placedWalls (wallAttempts + 1) c
        else
          wallLoop fuel' pathCells startPos goalPos wallCount grid
            placedWalls (wallAttempts + 1) c
    end
  else Some (grid, placedWalls, wallAttempts, c).

(** [generateRandomMap]. [None] if a loop outlives [fuel], a [TypeError] is
    thrown or a cell outside the grid is written; [generateRandomMap_runs]
    shows that none of this happens once [fuel] is 100 or more. *)
Definition generateRandomMap (fuel : nat) (w : World) (c : nat)
    : option Generated :=
  let grid :=
    replicate (Z.to_nat GRID_SIZE) (replicate (Z.to_nat GRID_SIZE) "empty") in
  let startPos := mkPos 0 0 in
  let w := set_startPos w startPos in
  let w := set_agent_x w (pos_x startPos) in
  let w := set_agent_y w (pos_y startPos) in
  '(goalPos, attempts, c) ← goalLoop fuel startPos 0 c;
  let w := set_goalPos w goalPos in
  grid ← gridSet grid (pos_x goalPos) (pos_y goalPos) "goal";
  '(solutionPath, c) ← generateSolutionPath fuel startPos goalPos c;
  let pathCells := addPathCells solutionPath in
  let corners := findCorners solutionPath in
  let '(r, c) := randInt 1 2 c in
  let blueCount := Z.min r (Z.of_nat (length corners)) in
  let '(shuffled, c) := shuffleArray corners c in
  let selectedCorners := take (Z.to_nat blueCount) shuffled in
  grid ← placeBlue selectedCorners startPos goalPos grid;
  let '(wallCount, c) := randInt 3 5 c in
  '(grid, placedWalls, wallAttempts, c) ←
    wallLoop fuel pathCells startPos goalPos wallCount grid 0 0 c;
  Some (mkGenerated (set_grid w grid) c attempts solutionPath corners
          selectedCorners wallCount placedWalls wallAttempts).

End Generator.

(** ** Predicates used in the statements *)

(** Number of cells of [g] that hold [kind]. *)
Definition countCells (kind : string) (g : Grid) : nat :=
  length (filter (λ cell, cell = kind) (concat g)).

(** A grid of [GRID_SIZE] rows of [GRID_SIZE] cells. *)
Definition squareGrid (g : Grid) : Prop :=
  length g = Z.to_nat GRID_SIZE
  ∧ Forall (λ row, length row = Z.to_nat GRID_SIZE) g.

(** The agent stands on a cell of the board and has one of the four
    headings. *)
Definition agentOnBoard (a : Agent) : Prop :=
  0 ≤ agent_x a < GRID_SIZE ∧ 0 ≤ agent_y a < GRID_SIZE
  ∧ 0 ≤ agent_dir a < 4.

(** The globals after a call of [performStep], however it ended. *)
Definition worldAfter (o : StepOutcome) : World :=
  match o with
  | Returned w _ => w
  | Threw w => w
  end.

(** The view shows the success overlay only, or the failure overlay only. *)
Definition showsSuccess (w : World) : Prop :=
  overlaySuccessHidden w = false ∧ overlayFailHidden w = true.

Definition showsFailure (w : World) : Prop :=
  overlaySuccessHidden w = true ∧ overlayFailHidden w = false.

(** [performStep w step] returns [true] (continue) and leaves the agent where
    it is, with heading [d]. *)
Definition continuesWithHeading (w : World) (step : Step) (d : Z) : Prop :=
  ∃ w', performStep w step = Returned w' true
    ∧ agent_dir (agentState w') = d
    ∧ agent_x (agentState w') = agent_x (agentState w)
    ∧ agent_y (agentState w') = agent_y (agentState w).

(** The agent stands on the cell [goalPos]. *)
Definition atGoal (w : World) : Prop :=
  agent_x (agentState w) = pos_x (goalPos w)
  ∧ agent_y (agentState w) = pos_y (goalPos w).

(** The cell [p] is on the board. *)
Definition onBoard (p : Pos) : Prop :=
  0 ≤ pos_x p < GRID_SIZE ∧ 0 ≤ pos_y p < GRID_SIZE.

Definition onBoardb (p : Pos) : bool :=
  (0 <=? pos_x p) && (pos_x p <? GRID_SIZE)
  && (0 <=? pos_y p) && (pos_y p <? GRID_SIZE).

(** Every cell of [path] is next to its successor (one step along one
    axis). *)
Fixpoint stepwise (path : list Pos) : bool :=
  match path with
  | p :: rest =>
      match rest with
      | q :: _ =>
          (Z.abs (pos_x q - pos_x p) + Z.abs (pos_y q - pos_y p) =? 1)
          && stepwise rest
      | [] => true
      end
  | [] => true
  end.

(** [path] is a walk on the board from [start] to [goal], and its corners
    are on the board. *)
Definition walkCheck (start goal : Pos) (path : list Pos) : bool :=
  forallb onBoardb path
  && stepwise path
  && bool_decide (head path = Some start)
  && bool_decide (last path = Some goal)
  && forallb onBoardb (findCorners path).

(** The solution path for a goal cell and a choice of the first axis, with
    the start at (0, 0), checked by [walkCheck]. *)
Definition solutionPathCheck (useHorizontalFirst : bool) (goal : Pos) : bool :=
  match wayPoints (mkPos 0 0) goal useHorizontalFirst with
  | Some path =>
      match expandSegments 4 path [] with
      | Some expandedPath =>
          walkCheck (mkPos 0 0) goal (expandedPath ++ [goal])
      | None => false
      end
  | None => false
  end.

(** What the generator keeps true of the grid once the goal is written:
    the grid is square, "goal" is written once, namely at [goal], and the
    cell (0, 0) is neither "wall" nor "blue". *)
Definition generatedGrid (goal : Pos) (g : Grid) : Prop :=
  squareGrid g
  ∧ countCells "goal" g = 1%nat
  ∧ gridGet g (pos_x goal) (pos_y goal) = Some (Some "goal")
  ∧ (∀ x y, gridGet g x y = Some (Some "goal") →
            x = pos_x goal ∧ y = pos_y goal)
  ∧ gridGet g 0 0 ≠ Some (Some "wall")
  ∧ gridGet g 0 0 ≠ Some (Some "blue").

(** No cell of [path] holds "wall". *)
Definition pathClear (path : list Pos) (g : Grid) : Prop :=
  ∀ p, p ∈ path → gridGet g (pos_x p) (pos_y p) ≠ Some (Some "wall").

(** ** A board to run the statements on *)

Definition sampleGrid : Grid :=
  [ ["empty"; "empty"; "blue";  "empty"; "empty"];
    ["empty"; "wall";  "empty"; "empty"; "empty"];
    ["empty"; "empty"; "empty"; "wall";  "empty"];
    ["wall";  "empty"; "empty"; "empty"; "goal"];
    ["empty"; "empty"; "empty"; "empty"; "empty"] ].

Definition sampleWorld (a : Agent) (queue : list string) : World :=
  mkWorld sampleGrid (mkPos 0 0) (mkPos 4 3) a queue false None "" true true.

(** ** View controller: the button handlers of [bindUIEvents], and [init]

    [renderQueue], [renderGrid], [updateAgentVisual] and [pulseStatus] only
    touch the DOM and are left out, as before. *)

Definition set_commandQueue (w : World) (q : list string) : World :=
  mkWorld (grid w) (startPos w) (goalPos w) (agentState w) q
    (isRunning w) (currentHighlightIndex w) (statusText w)
    (overlaySuccessHidden w) (overlayFailHidden w).

(** [overlaySuccess.classList.add("overlay-hidden")]. *)
Definition hideSuccessOverlay (w : World) : World :=
  mkWorld (grid w) (startPos w) (goalPos w) (agentState w) (commandQueue w)
    (isRunning w) (currentHighlightIndex w) (statusText w)
    true (overlayFailHidden w).

(** [overlayFail.classList.add("overlay-hidden")]. *)
Definition hideFailOverlay (w : World) : World :=
  mkWorld (grid w) (startPos w) (goalPos w) (agentState w) (commandQueue w)
    (isRunning w) (currentHighlightIndex w) (statusText w)
    (overlaySuccessHidden w) true.

Definition MSG_CLEARED : string := "指令已清除，重新規劃路徑。".
Definition MSG_EMPTY_QUEUE : string := "尚未加入任何指令。".
Definition MSG_MAP_RESET : string := "地圖已重置，試著設計新的解法。".
Definition MSG_NEW_MAP : string := "新地圖已載入，挑戰下一關！".
Definition MSG_READY : string := "準備規劃你的演算法…".

(** A click on a command button whose [data-cmd] is [cmd]. *)
Definition clickCommand (w : World) (cmd : string) : World :=
  if isRunning w then w
  else set_commandQueue w (commandQueue w ++ [cmd]).

(** [btnUndo]: [commandQueue.pop()], which leaves an empty array empty. *)
Definition clickUndo (w : World) : World :=
  if isRunning w then w
  else set_commandQueue w (removelast (commandQueue w)).

(** [btnClear]. *)
Definition clickClear (w : World) : World :=
  if isRunning w then w
  else updateStatus (set_commandQueue w []) MSG_CLEARED.

(** [btnRun], observed [ticks] timer firings after the click. *)
Definition clickRun (w : World) (ticks : nat) : RunState :=
  if isRunning w then NoTimer w
  else match commandQueue w with
       | [] => NoTimer (updateStatus w MSG_EMPTY_QUEUE)
       | _ :: _ => startExecution w ticks
       end.

(** [btnFailClose]. *)
Definition clickFailClose (w : World) : World := hideFailOverlay w.

Section Handlers.

(** The random source and the fuel of [generateRandomMap]. *)
Variable rnd : nat → nat.
Variable fuel : nat.

(** [btnResetMap]; [c] counts the calls of [Math.random] so far. *)
Definition clickResetMap (w : World) (c : nat) : option (World * nat) :=
  if isRunning w then Some (w, c)
  else
    r ← generateRandomMap rnd fuel w c;
    let w := resetAgentToStart (gen_world r) in
    Some (updateStatus w MSG_MAP_RESET, gen_calls r).

(** [btnSuccessOk]; unlike the other buttons it does not look at
    [isRunning]. *)
Definition clickSuccessOk (w : World) (c : nat) : option (World * nat) :=
  let w := hideSuccessOverlay w in
  r ← generateRandomMap rnd fuel w c;
  let w := resetAgentToStart (gen_world r) in
  let w := set_commandQueue w [] in
  Some (updateStatus w MSG_NEW_MAP, gen_calls r).

(** [init], on the globals [w] as the script declares them. *)
Definition init (w : World) (c : nat) : option (World * nat) :=
  r ← generateRandomMap rnd fuel w c;
  let w := resetAgentToStart (gen_world r) in
  Some (updateStatus w MSG_READY, gen_calls r).

End Handlers.

(** ** The first version of the game

    [src/main.js] opens with an earlier version of the same script: one
    conditional command "IFBLUE" that looks at the next command, a
    recursive [performStep], and a map generator that places walls and blue
    cells at random. Its three functions that differ are embedded here under
    the names of the source; the globals, [randInt], the grid reads and
    writes and the outcome of a step are the ones above. *)

Module VariantA.

(** A step object: [action] and [nextAction] are [None] where the property
    is [undefined]. *)
Record Step := mkStep {
  fromIndex : nat;
  action : option string;
  nextAction : option string
}.

(** The body of the [for] loop of [expandCommandsForExecution]. *)
Definition expandBody (commandQueue : list string) (i : nat) (cmd : string)
    : list Step :=
  if String.eqb cmd "LOOP2" then
    match commandQueue !! (i + 1)%nat with
    | None => [mkStep i (Some "NOOP") None]
    | Some next =>
        if String.eqb next "" then [mkStep i (Some "NOOP") None]
        else [mkStep i (Some next) None; mkStep i (Some next) None]
    end
  else if String.eqb cmd "IFBLUE" then
    match commandQueue !! (i + 1)%nat with
    | None => [mkStep i (Some "NOOP_COND") None]
    | Some next =>
        if String.eqb next "" then [mkStep i (Some "NOOP_COND") None]
        else [mkStep i (Some "IFBLUE") (Some next)]
    end
  else [mkStep i (Some cmd) None].

Fixpoint expandLoop (commandQueue : list string) (fuel i : nat)
    (steps : list Step) : list Step :=
  match fuel with
  | O => steps
  | S fuel' =>
      match commandQueue !! i with
      | None => steps
      | Some cmd =>
          expandLoop commandQueue fuel' (S i)
            (steps ++ expandBody commandQueue i cmd)
      end
  end.

Definition expandCommandsForExecution (commandQueue : list string)
    : list Step :=
  expandLoop commandQueue (length commandQueue) 0 [].

(** [type === s] for an action that may be [undefined]. *)
Definition isAction (type : option string) (s : string) : bool :=
  strictEq type s.

(** [performStep], which calls itself for an "IFBLUE" step on a blue cell;
    [None] when the calls nest deeper than [fuel]. *)
Fixpoint performStep (fuel : nat) (w : World) (step : Step)
    : option StepOutcome :=
  match fuel with
  | O => None
  | S fuel' =>
      let type := action step in
      let a := agentState w in
      if isAction type "NOOP" || isAction type "NOOP_COND" then
        Some (Returned w true)
      else if isAction type "IFBLUE" then
        match gridGet (grid w) (agent_x a) (agent_y a) with
        | None => Some (Threw w)
        | Some currentCellType =>
            if strictEq currentCellType "blue" then
              let fakeStep := mkStep (fromIndex step) (nextAction step) None in
              performStep fuel' w fakeStep
            else Some (Returned w true)
        end
      else if isAction type "L" then
        Some (Returned (set_agent_dir w ((agent_dir a + 3) `rem` 4)) true)
      else if isAction type "R" then
        Some (Returned (set_agent_dir w ((agent_dir a + 1) `rem` 4)) true)
      else if isAction type "F" then
        match index DIRS (agent_dir a) with
        | None => Some (Threw w)
        | Some dirInfo =>
            let nextX := agent_x a + dx dirInfo in
            let nextY := agent_y a + dy dirInfo in
            if (nextX <? 0) || (nextX >=? GRID_SIZE)
               || (nextY <? 0) || (nextY >=? GRID_SIZE)
            then
              Some (Returned
                      (showFailOverlay (updateStatus w MSG_OUT_OF_BOUNDS))
                      false)
            else
              match gridGet (grid w) nextX nextY with
              | None => Some (Threw w)
              | Some cellType =>
                  if strictEq cellType "wall" then
                    Some (Returned
                            (showFailOverlay (updateStatus w MSG_HIT_WALL))
                            false)
                  else
                    let w := set_agent_x w nextX in
                    let w := set_agent_y w nextY in
                    if strictEq cellType "goal" then
                      Some (Returned
                              (showSuccessOverlay
                                 (updateStatus w MSG_REACHED_GOAL))
                              false)
                    else Some (Returned w true)
              end
        end
      else Some (Returned w true)
  end.

(** What [generateRandomMap] leaves behind, with the two counts it drew. *)
Record Generated := mkGenerated {
  gen_world : World;
  gen_calls : nat;
  gen_wallCount : Z;
  gen_blueCount : Z
}.

Section Generator.

Variable rnd : nat → nat.

(** [do ... while (goalPos is startPos)]: no bound on the rounds. *)
Fixpoint goalLoop (fuel : nat) (startPos : Pos) (c : nat)
    : option (Pos * nat) :=
  match fuel with
  | O => None
  | S fuel' =>
      let '(gx, c) := randInt rnd 0 (GRID_SIZE - 1) c in
      let '(gy, c) := randInt rnd 0 (GRID_SIZE - 1) c in
      let goalPos := mkPos gx gy in
      if (pos_x goalPos =? pos_x startPos) && (pos_y goalPos =? pos_y startPos)
      then goalLoop fuel' startPos c
      else Some (goalPos, c)
  end.

(** The two [while] loops that place walls and blue cells; they differ only
    in the kind written and in the name of the counter. A round that hits
    the start, the goal or a cell that is not "empty" is repeated
    ([continue]): no bound on the rounds. *)
Fixpoint placeLoop (kind : string) (fuel : nat) (startPos goalPos : Pos)
    (count : Z) (grid : Grid) (placed : Z) (c : nat)
    : option (Grid * Z * nat) :=
  if placed <? count then
    match fuel with
    | O => None
    | S fuel' =>
        let '(x, c) := randInt rnd 0 (GRID_SIZE - 1) c in
        let '(y, c) := randInt rnd 0 (GRID_SIZE - 1) c in
        if ((x =? pos_x startPos) && (y =? pos_y startPos))
           || ((x =? pos_x goalPos) && (y =? pos_y goalPos))
        then placeLoop kind fuel' startPos goalPos count grid placed c
        else
          cell ← gridGet grid x y;
          if negb (strictEq cell "empty")
          then placeLoop kind fuel' startPos goalPos count grid placed c
          else
            grid ← gridSet grid x y kind;
            placeLoop kind fuel' startPos goalPos count grid (placed + 1) c
    end
  else Some (grid, placed, c).

(** [generateRandomMap]; [None] if a loop outlives [fuel] (or on a
    [TypeError] or a write outside the grid, which do not occur). *)
Definition generateRandomMap (fuel : nat) (w : World) (c : nat)
    : option Generated :=
  let grid :=
    replicate (Z.to_nat GRID_SIZE) (replicate (Z.to_nat GRID_SIZE) "empty") in
  let startPos := mkPos 0 0 in
  let w := set_startPos w startPos in
  let w := set_agent_x w (pos_x startPos) in
  let w := set_agent_y w (pos_y startPos) in
  '(goalPos, c) ← goalLoop fuel startPos c;
  let w := set_goalPos w goalPos in
  grid ← gridSet grid (pos_x goalPos) (pos_y goalPos) "goal";
  let '(wallCount, c) := randInt rnd 3 6 c in
  '(grid, placedWalls, c) ←
    placeLoop "wall" fuel startPos goalPos wallCount grid 0 c;
  let '(blueCount, c) := randInt rnd 1 2 c in
  '(grid, placedBlue, c) ←
    placeLoop "blue" fuel startPos goalPos blueCount grid 0 c;
  Some (mkGenerated (set_grid w grid) c wallCount blueCount).

End Generator.

End VariantA.

(** A step of the first version that carries the same index and action as a
    step of the second. *)
Definition stepA (s : Step) : VariantA.Step :=
  VariantA.mkStep (fromIndex s) (Some (action s)) None.

(** ** Further predicates and constructions used in the statements *)

(** A step of a later part of a queue, tagged as a step of the whole queue:
    its index moves up by the length [n] of the part before. *)
Definition shiftStep (n : nat) (s : Step) : Step :=
  mkStep (n + fromIndex s) (action s).

Definition manhattan (p q : Pos) : Z :=
  Z.abs (pos_x q - pos_x p) + Z.abs (pos_y q - pos_y p).

(** The 25 cells of the board. *)
Definition boardCells : list Pos :=
  x ← [0; 1; 2; 3; 4]; y ← [0; 1; 2; 3; 4]; [mkPos x y].

(** [path] is a shortest walk on the board from [start] to [goal] with at
    most one corner, and its corners are cells of it other than its ends. *)
Definition shortestWalkCheck (start goal : Pos) (path : list Pos) : bool :=
  forallb onBoardb path
  && stepwise path
  && bool_decide (head path = Some start)
  && bool_decide (last path = Some goal)
  && bool_decide (NoDup path)
  && bool_decide (Z.of_nat (length path) = manhattan start goal + 1)
  && bool_decide (length (findCorners path) ≤ 1)%nat
  && forallb (λ corner, bool_decide (corner ∈ path)
                        && bool_decide (corner ≠ start)
                        && bool_decide (corner ≠ goal))
       (findCorners path)
  && bool_decide (pos_x start ≠ pos_x goal ∧ pos_y start ≠ pos_y goal →
                  length (findCorners path) = 1%nat).

(** [shortestWalkCheck] on what [generateSolutionPath] computes for the two
    choices of the first axis. *)
Definition solutionPathsCheck (start goal : Pos) : bool :=
  forallb
    (λ useHorizontalFirst : bool,
       match wayPoints start goal useHorizontalFirst with
       | Some path =>
           match expandSegments 4 path [] with
           | Some expandedPath =>
               shortestWalkCheck start goal (expandedPath ++ [goal])
           | None => false
           end
       | None => false
       end)
    [true; false].

(** The globals in a state of a run. *)
Definition worldOf (s : RunState) : World :=
  match s with
  | TimerArmed w _ => w
  | TimerCleared w _ => w
  | TimerThrowing w _ => w
  | NoTimer w => w
  end.

(** Every cell of the grid holds one of the four kinds. *)
Definition cellsAreKinds (g : Grid) : Prop :=
  ∀ x y cell, gridGet g x y = Some (Some cell) →
              cell ∈ ["empty"; "wall"; "blue"; "goal"].

(** A puzzle ready to be played: a square grid of the four kinds with its
    one "goal" at [goalPos], and the agent on the start cell (0, 0) heading
    right. *)
Definition readyPuzzle (w : World) : Prop :=
  squareGrid (grid w)
  ∧ cellsAreKinds (grid w)
  ∧ countCells "goal" (grid w) = 1%nat
  ∧ gridGet (grid w) (pos_x (goalPos w)) (pos_y (goalPos w))
    = Some (Some "goal")
  ∧ startPos w = mkPos 0 0
  ∧ agentState w = mkAgent 0 0 1.

(** The heading (index into [DIRS]) of the unit step from [p] to [q]. *)
Definition headingOf (p q : Pos) : Z :=
  if pos_x q - pos_x p =? 1 then 1
  else if pos_x q - pos_x p =? -1 then 3
  else if pos_y q - pos_y p =? 1 then 2
  else 0.

(** A command queue that walks along [path] from its first cell, starting
    with the given heading: before every step, turn right until the agent
    faces the next cell, then go forward. *)
Fixpoint route (path : list Pos) (heading : Z) : list string :=
  match path with
  | p :: rest =>
      match rest with
      | q :: _ =>
          replicate (Z.to_nat ((headingOf p q - heading) `mod` 4)) "R"
          ++ "F" :: route rest (headingOf p q)
      | [] => []
      end
  | [] => []
  end.

(** * Properties *)

(** ** Command expander *)

Section Expander.

Variable commandQueue : list string.

Lemma expandLoop_acc fuel i steps :
  expandLoop commandQueue fuel i steps
  = steps ++ expandLoop commandQueue fuel i [].
Proof.
  revert i steps. induction fuel as [|fuel IH]; intros i steps; simpl.
  - by rewrite app_nil_r.
  - destruct (commandQueue !! i) as [cmd|]; [|by rewrite app_nil_r].
    rewrite IH, (IH _ (expandBody _ _ _)). by rewrite app_assoc.
Qed.

Lemma expandLoop_past_end fuel i steps :
  (length commandQueue ≤ i)%nat →
  expandLoop commandQueue fuel i steps = steps.
Proof.
  intros Hi. destruct fuel as [|fuel]; simpl; [done|].
  by rewrite (lookup_ge_None_2 commandQueue i Hi).
Qed.

Lemma expandLoop_one i cmd :
  commandQueue !! i = Some cmd →
  expandLoop commandQueue 1 i [] = expandBody commandQueue i cmd.
Proof. intros H. simpl. by rewrite H. Qed.

Lemma expandLoop_split a b i :
  expandLoop commandQueue (a + b) i []
  = expandLoop commandQueue a i []
    ++ expandLoop commandQueue b (i + a) [].
Proof.
  revert i. induction a as [|a IH]; intros i; simpl.
  - by rewrite Nat.add_0_r.
  - destruct (commandQueue !! i) as [cmd|] eqn:Hcmd.
    + rewrite expandLoop_acc, (expandLoop_acc a), IH.
      replace (S i + a)%nat with (i + S a)%nat by lia.
      by rewrite app_assoc.
    + symmetry. apply expandLoop_past_end.
      apply lookup_ge_None_1 in Hcmd. lia.
Qed.

Lemma expandBody_fromIndex i cmd :
  Forall (λ s, fromIndex s = i) (expandBody commandQueue i cmd).
Proof.
  unfold expandBody.
  repeat case_match; repeat constructor.
Qed.

Lemma expandLoop_fromIndex fuel i :
  Forall (λ s, (i ≤ fromIndex s < i + fuel)%nat)
    (expandLoop commandQueue fuel i []).
Proof.
  revert i. induction fuel as [|fuel IH]; intros i; simpl; [constructor|].
  destruct (commandQueue !! i) as [cmd|]; [|constructor].
  rewrite expandLoop_acc. simpl. apply Forall_app. split.
  - eapply Forall_impl; [apply expandBody_fromIndex|]. simpl. lia.
  - eapply Forall_impl; [apply IH|]. simpl. lia.
Qed.

(** The expansion, cut at iteration [i]. *)
Lemma expand_cut i :
  (i ≤ length commandQueue)%nat →
  expandCommandsForExecution commandQueue
  = expandLoop commandQueue i 0 []
    ++ expandLoop commandQueue (length commandQueue - i) i [].
Proof.
  intros Hi. unfold expandCommandsForExecution.
  replace (length commandQueue) with (i + (length commandQueue - i))%nat
    at 1 by lia.
  by rewrite expandLoop_split.
Qed.

End Expander.

(** C1. A "LOOP2" at index [i] followed by a command [next] puts the token
    [next] twice into the expansion, both steps tagged [i]; right after them
    come the steps that iteration [i + 1] emits for [next] itself. Everything
    before is tagged below [i], everything after above [i + 1]. When [next]
    is not itself "LOOP2", its own iteration emits exactly one step with the
    same action, tagged [i + 1]. In particular ["LOOP2"; "F"] expands to
    F@0, F@0, F@1. (A command of the vocabulary is never the empty string,
    the one token that [!next] would take for a missing follower.) *)
Theorem expand_repeat_next_twice
    (commandQueue : list string) (i : nat) (next : string) :
  commandQueue !! i = Some "LOOP2" →
  commandQueue !! S i = Some next →
  next ≠ "" →
  (∃ before after,
     expandCommandsForExecution commandQueue
     = before ++ [mkStep i next; mkStep i next]
         ++ expandBody commandQueue (S i) next ++ after
     ∧ Forall (λ s, (fromIndex s < i)%nat) before
     ∧ Forall (λ s, (S i < fromIndex s)%nat) after)
  ∧ (next ≠ "LOOP2" →
     expandBody commandQueue (S i) next = [mkStep (S i) next])
  ∧ expandCommandsForExecution ["LOOP2"; "F"]
    = [mkStep 0 "F"; mkStep 0 "F"; mkStep 1 "F"].
Proof.
  intros Hloop Hnext Hne. split; [|split; [|reflexivity]].
  - pose proof (lookup_lt_Some _ _ _ Hnext) as Hlen.
    exists (expandLoop commandQueue i 0 []),
      (expandLoop commandQueue (length commandQueue - i - 2) (S (S i)) []).
    split; [|split].
    + rewrite (expand_cut commandQueue i) by lia.
      f_equal.
      set (rest := (length commandQueue - i - 2)%nat).
      replace (length commandQueue - i)%nat with (1 + (1 + rest))%nat by lia.
      rewrite !expandLoop_split.
      rewrite (expandLoop_one _ _ _ Hloop).
      replace (i + 1)%nat with (S i) by lia.
      rewrite (expandLoop_one _ _ _ Hnext).
      replace (S i + 1)%nat with (S (S i)) by lia.
      f_equal. unfold expandBody at 1. simpl.
      replace (i + 1)%nat with (S i) by lia. rewrite Hnext.
      destruct (String.eqb_spec next ""); [done|reflexivity].
    + eapply Forall_impl; [apply expandLoop_fromIndex|]. simpl. lia.
    + eapply Forall_impl; [apply expandLoop_fromIndex|]. simpl. lia.
  - intros Hnl. unfold expandBody.
    destruct (String.eqb_spec next "LOOP2"); [done|].
    destruct (String.eqb_spec next "IFBLUE_R"); [by subst|].
    destruct (String.eqb_spec next "IFBLUE_L"); [by subst|done].
Qed.

Lemma expand_repeat_next_twice_witness :
  ∃ before after,
    expandCommandsForExecution ["F"; "LOOP2"; "L"; "R"]
    = before ++ [mkStep 1 "L"; mkStep 1 "L"]
        ++ expandBody ["F"; "LOOP2"; "L"; "R"] 2 "L" ++ after
    ∧ Forall (λ s, (fromIndex s < 1)%nat) before
    ∧ Forall (λ s, (2 < fromIndex s)%nat) after.
Proof.
  apply (expand_repeat_next_twice ["F"; "LOOP2"; "L"; "R"] 1 "L");
    [reflexivity | reflexivity | discriminate].
Defined.

(** C4 does not hold for a trailing conditional: it is expanded to its own
    conditional action, not to "NOOP". *)
Lemma expand_trailing_conditional_not_noop :
  expandCommandsForExecution ["IFBLUE_R"] = [mkStep 0 "IFBLUE_R"]
  ∧ mkStep 0 "NOOP" ∉ expandCommandsForExecution ["IFBLUE_R"].
Proof.
  split; [reflexivity|].
  intros H. apply list_elem_of_singleton in H. discriminate.
Qed.

(** C4, amended. The last command of a queue is expanded to one final step
    tagged with its index: "NOOP" for a trailing "LOOP2", the conditional
    action itself for a trailing "IFBLUE_R" or "IFBLUE_L". The expander is a
    total function: there is a result for every queue. *)
Theorem expand_trailing_modifier (front : list string) (cmd : string) :
  cmd = "LOOP2" ∨ cmd = "IFBLUE_R" ∨ cmd = "IFBLUE_L" →
  ∃ before,
    expandCommandsForExecution (front ++ [cmd])
    = before
        ++ [mkStep (length front) (if String.eqb cmd "LOOP2" then "NOOP" else cmd)]
    ∧ Forall (λ s, (fromIndex s < length front)%nat) before.
Proof.
  intros Hcmd.
  exists (expandLoop (front ++ [cmd]) (length front) 0 []). split.
  - rewrite (expand_cut _ (length front)) by (rewrite length_app; lia).
    f_equal. rewrite length_app. simpl.
    replace (length front + 1 - length front)%nat with 1%nat by lia.
    assert (Hlast : (front ++ [cmd]) !! length front = Some cmd).
    { by rewrite list_lookup_middle. }
    rewrite (expandLoop_one _ _ _ Hlast). unfold expandBody.
    assert (Hnone : (front ++ [cmd]) !! (length front + 1)%nat = None).
    { apply lookup_ge_None_2. rewrite length_app. simpl. lia. }
    rewrite Hnone.
    destruct Hcmd as [-> | [-> | ->]]; reflexivity.
  - eapply Forall_impl; [apply expandLoop_fromIndex|]. simpl. lia.
Qed.

Lemma expand_trailing_modifier_witness :
  ∃ before,
    expandCommandsForExecution (["F"; "R"] ++ ["LOOP2"])
    = before ++ [mkStep 2 "NOOP"]
    ∧ Forall (λ s, (fromIndex s < 2)%nat) before.
Proof.
  apply (expand_trailing_modifier ["F"; "R"] "LOOP2"). by left.
Defined.

(** ** Step interpreter *)

Lemma rem_mod_4 (d k : Z) : 0 ≤ d → 0 ≤ k → (d + k) `rem` 4 = (d + k) `mod` 4.
Proof. intros Hd Hk. apply Z.rem_mod_nonneg; lia. Qed.

(** C6. "L" sets the heading to (heading + 3) mod 4 and "R" to
    (heading + 1) mod 4; the position stays and the step returns [true].
    (The source computes with JavaScript's [%], which is the mathematical
    mod on the non-negative headings.) *)
Theorem turn_steps (w : World) (i : nat) :
  0 ≤ agent_dir (agentState w) →
  continuesWithHeading w (mkStep i "L")
    ((agent_dir (agentState w) + 3) `mod` 4)
  ∧ continuesWithHeading w (mkStep i "R")
      ((agent_dir (agentState w) + 1) `mod` 4).
Proof.
  intros Hd. split; eexists; (split; [reflexivity|]); simpl;
    (split; [by apply rem_mod_4|done]).
Qed.

Lemma turn_steps_witness :
  continuesWithHeading (sampleWorld (mkAgent 2 1 0) []) (mkStep 0 "L") 3
  ∧ continuesWithHeading (sampleWorld (mkAgent 2 1 0) []) (mkStep 0 "R") 1.
Proof.
  apply (turn_steps (sampleWorld (mkAgent 2 1 0) []) 0). simpl. lia.
Defined.

(** C5. On a "blue" cell "IFBLUE_R" sets the heading to (heading + 1) mod 4
    and "IFBLUE_L" to (heading + 3) mod 4; on any other cell both leave the
    heading as it is. In all four cases the position stays and the step
    returns [true]. [cell] is what [grid[y][x]] reads under the agent. *)
Theorem conditional_turn_steps (w : World) (i : nat) (cell : option string) :
  0 ≤ agent_dir (agentState w) →
  gridGet (grid w) (agent_x (agentState w)) (agent_y (agentState w))
  = Some cell →
  (cell = Some "blue" →
     continuesWithHeading w (mkStep i "IFBLUE_R")
       ((agent_dir (agentState w) + 1) `mod` 4)
     ∧ continuesWithHeading w (mkStep i "IFBLUE_L")
         ((agent_dir (agentState w) + 3) `mod` 4))
  ∧ (cell ≠ Some "blue" →
     continuesWithHeading w (mkStep i "IFBLUE_R") (agent_dir (agentState w))
     ∧ continuesWithHeading w (mkStep i "IFBLUE_L")
         (agent_dir (agentState w))).
Proof.
  intros Hd Hcell. unfold continuesWithHeading, performStep. simpl.
  rewrite Hcell. split.
  - intros ->. simpl.
    split; eexists; (split; [reflexivity|]); simpl;
      (split; [by apply rem_mod_4|done]).
  - intros Hnb.
    assert (Hs : strictEq cell "blue" = false).
    { destruct cell as [c|]; simpl; [|done].
      destruct (String.eqb_spec c "blue"); [by subst|done]. }
    rewrite Hs. split; eexists; done.
Qed.

Lemma conditional_turn_steps_witness :
  (continuesWithHeading (sampleWorld (mkAgent 2 0 1) []) (mkStep 0 "IFBLUE_R") 2
   ∧ continuesWithHeading (sampleWorld (mkAgent 2 0 1) []) (mkStep 0 "IFBLUE_L") 0)
  ∧ (continuesWithHeading (sampleWorld (mkAgent 1 0 1) []) (mkStep 0 "IFBLUE_R") 1
     ∧ continuesWithHeading (sampleWorld (mkAgent 1 0 1) []) (mkStep 0 "IFBLUE_L") 1).
Proof.
  split.
  - apply (conditional_turn_steps (sampleWorld (mkAgent 2 0 1) []) 0
             (Some "blue")); [simpl; lia | reflexivity | reflexivity].
  - apply (conditional_turn_steps (sampleWorld (mkAgent 1 0 1) []) 0
             (Some "empty")); [simpl; lia | reflexivity | discriminate].
Defined.

(** C10. Whatever the step and however the call ends, [performStep] leaves
    the grid alone; only an "F" step can move the agent ("NOOP", the turns,
    the conditionals and every unknown token leave the position as it is);
    an "F" step never changes the heading. *)
Theorem performStep_frame (w : World) (step : Step) :
  let w' := worldAfter (performStep w step) in
  grid w' = grid w
  ∧ (action step ≠ "F" →
     agent_x (agentState w') = agent_x (agentState w)
     ∧ agent_y (agentState w') = agent_y (agentState w))
  ∧ (action step = "F" →
     agent_dir (agentState w') = agent_dir (agentState w)).
Proof.
  unfold performStep. destruct step as [i type]. simpl.
  destruct (String.eqb_spec type "NOOP") as [->|_];
    [simpl; split_and!; done|].
  destruct (String.eqb_spec type "NOOP_COND") as [->|_];
    [simpl; split_and!; done|]. simpl.
  destruct (String.eqb_spec type "IFBLUE_R") as [->|_].
  { repeat case_match; simpl; split_and!; done. }
  destruct (String.eqb_spec type "IFBLUE_L") as [->|_].
  { repeat case_match; simpl; split_and!; done. }
  destruct (String.eqb_spec type "L") as [->|_]; [simpl; split_and!; done|].
  destruct (String.eqb_spec type "R") as [->|_]; [simpl; split_and!; done|].
  destruct (String.eqb_spec type "F") as [->|Hnf].
  { repeat case_match; simpl; split_and!; done. }
  simpl. split_and!; done.
Qed.

Lemma performStep_frame_witness :
  let w' :=
    worldAfter (performStep (sampleWorld (mkAgent 1 0 1) []) (mkStep 0 "F")) in
  grid w' = sampleGrid
  ∧ (action (mkStep 0 "F") ≠ "F" →
     agent_x (agentState w') = 1 ∧ agent_y (agentState w') = 0)
  ∧ (action (mkStep 0 "F") = "F" → agent_dir (agentState w') = 1).
Proof.
  apply (performStep_frame (sampleWorld (mkAgent 1 0 1) []) (mkStep 0 "F")).
Defined.

Lemma endExecutionCheck_agentState (w : World) :
  agentState (endExecutionCheck w) = agentState w
  ∧ grid (endExecutionCheck w) = grid w.
Proof. unfold endExecutionCheck. by case_match. Qed.

Lemma endExecutionCheck_verdict (w : World) :
  (atGoal w →
   showsSuccess (endExecutionCheck w)
   ∧ statusText (endExecutionCheck w) = MSG_REACHED_GOAL)
  ∧ (¬ atGoal w →
     showsFailure (endExecutionCheck w)
     ∧ statusText (endExecutionCheck w) = MSG_NOT_AT_GOAL).
Proof.
  unfold atGoal, endExecutionCheck. simpl.
  destruct (Z.eqb_spec (agent_x (agentState w)) (pos_x (goalPos w)));
    destruct (Z.eqb_spec (agent_y (agentState w)) (pos_y (goalPos w)));
    simpl; split; intros H; try done; by destruct H.
Qed.

(** Once the timer is cleared, further ticks change nothing. *)
Lemma runTicks_cleared steps ticks w stepIndex :
  runTicks steps ticks (TimerCleared w stepIndex) = TimerCleared w stepIndex.
Proof. by destruct ticks. Qed.

(** C2. An "F" step whose candidate cell is off the board, or is a "wall",
    returns [false] with the failure overlay up and the matching status
    text, and leaves the agent (position and heading) and the grid as they
    were. In a run, the tick that performs it clears the timer, so that no
    later step is performed; the agent is still unmoved after
    [endExecutionCheck], which keeps the failure overlay unless the agent
    is standing on [goalPos]. [dirInfo] is the entry of [DIRS] for the
    agent's heading. *)
Theorem forward_blocked (w : World) (i : nat) (dirInfo : Dir) :
  index DIRS (agent_dir (agentState w)) = Some dirInfo →
  let nextX := agent_x (agentState w) + dx dirInfo in
  let nextY := agent_y (agentState w) + dy dirInfo in
  let offBoard := ¬ (0 ≤ nextX < GRID_SIZE ∧ 0 ≤ nextY < GRID_SIZE) in
  offBoard ∨ gridGet (grid w) nextX nextY = Some (Some "wall") →
  (∃ w', performStep w (mkStep i "F") = Returned w' false
     ∧ agentState w' = agentState w
     ∧ grid w' = grid w
     ∧ showsFailure w'
     ∧ (offBoard → statusText w' = MSG_OUT_OF_BOUNDS)
     ∧ (¬ offBoard → statusText w' = MSG_HIT_WALL))
  ∧ (∀ steps stepIndex ticks,
       steps !! stepIndex = Some (mkStep i "F") →
       ∃ wEnd,
         runTicks steps (S ticks) (TimerArmed w stepIndex)
         = TimerCleared wEnd (S stepIndex)
         ∧ agentState wEnd = agentState w
         ∧ grid wEnd = grid w
         ∧ (¬ atGoal w → showsFailure wEnd)).
Proof.
  intros Hdir nextX nextY offBoard Hblocked.
  assert (Hstep : ∀ w0, agentState w0 = agentState w → grid w0 = grid w →
    ∃ w', performStep w0 (mkStep i "F") = Returned w' false
     ∧ agentState w' = agentState w
     ∧ grid w' = grid w
     ∧ goalPos w' = goalPos w0
     ∧ showsFailure w'
     ∧ (offBoard → statusText w' = MSG_OUT_OF_BOUNDS)
     ∧ (¬ offBoard → statusText w' = MSG_HIT_WALL)).
  { intros w0 Ha Hg. unfold performStep. simpl. rewrite Ha, Hg, Hdir.
    fold nextX nextY.
    destruct ((nextX <? 0) || (nextX >=? GRID_SIZE)
              || (nextY <? 0) || (nextY >=? GRID_SIZE)) eqn:Hb.
    - eexists. split; [reflexivity|]. simpl.
      split_and!; try done. intros Hon. exfalso. apply Hon.
      unfold offBoard. unfold GRID_SIZE in *. lia.
    - assert (Hon : ¬ offBoard).
      { unfold offBoard. unfold GRID_SIZE in *. intros Hoff. apply Hoff. lia. }
      destruct Hblocked as [Hoff | Hwall]; [done|].
      rewrite Hwall. simpl. eexists. split; [reflexivity|]. simpl.
      split_and!; done. }
  split.
  - destruct (Hstep w eq_refl eq_refl) as (w' & Hp & Ha & Hg & _ & Hrest).
    exists w'. split_and!; try done; apply Hrest.
  - intros steps stepIndex ticks Hlook.
    destruct (Hstep (setQueueHighlight w (Some i)) eq_refl eq_refl)
      as (w' & Hp & Ha & Hg & Hgoal & Hfail & _).
    exists (endExecutionCheck w'). simpl. unfold tick. rewrite Hlook. simpl.
    rewrite Hp. simpl. rewrite runTicks_cleared.
    destruct (endExecutionCheck_agentState w') as [Ha' Hg'].
    split_and!; [done | congruence | congruence |].
    intros Hng. apply endExecutionCheck_verdict.
    unfold atGoal in *. rewrite Ha, Hgoal. done.
Qed.

Lemma forward_blocked_witness :
  (∃ w', performStep (sampleWorld (mkAgent 0 0 0) []) (mkStep 0 "F")
         = Returned w' false
     ∧ agentState w' = mkAgent 0 0 0
     ∧ showsFailure w' ∧ statusText w' = MSG_OUT_OF_BOUNDS)
  ∧ (∃ w', performStep (sampleWorld (mkAgent 0 1 1) []) (mkStep 0 "F")
           = Returned w' false
       ∧ agentState w' = mkAgent 0 1 1
       ∧ showsFailure w' ∧ statusText w' = MSG_HIT_WALL).
Proof.
  split.
  - destruct (forward_blocked (sampleWorld (mkAgent 0 0 0) []) 0
                (mkDir 0 (-1) 0) eq_refl) as [(w' & Hp & Ha & _ & Hf & Ht & _) _].
    { left. unfold GRID_SIZE. simpl. lia. }
    exists w'. split_and!; try done. apply Ht. unfold GRID_SIZE. simpl. lia.
  - destruct (forward_blocked (sampleWorld (mkAgent 0 1 1) []) 0
                (mkDir 1 0 90) eq_refl) as [(w' & Hp & Ha & _ & Hf & _ & Ht) _].
    { right. reflexivity. }
    exists w'. split_and!; try done. apply Ht. unfold GRID_SIZE. simpl. lia.
Defined.

(** C3. An "F" step whose candidate cell is on the board and holds "goal"
    moves the agent onto it, puts up the success overlay and returns
    [false]. In a run, the tick that performs it clears the timer: the run
    has consumed exactly the steps up to this one, however many ticks pass
    and whatever steps follow in the sequence ([wEnd] is the same for every
    [steps]). After [endExecutionCheck] the agent is still on the candidate
    cell, and the success overlay stays when [goalPos] is that cell, which is
    where the generator writes "goal". *)
Theorem forward_reaches_goal (w : World) (i : nat) (dirInfo : Dir) :
  index DIRS (agent_dir (agentState w)) = Some dirInfo →
  let nextX := agent_x (agentState w) + dx dirInfo in
  let nextY := agent_y (agentState w) + dy dirInfo in
  0 ≤ nextX < GRID_SIZE →
  0 ≤ nextY < GRID_SIZE →
  gridGet (grid w) nextX nextY = Some (Some "goal") →
  let moved := mkAgent nextX nextY (agent_dir (agentState w)) in
  ∃ w' wEnd,
    performStep w (mkStep i "F") = Returned w' false
    ∧ agentState w' = moved
    ∧ showsSuccess w'
    ∧ statusText w' = MSG_REACHED_GOAL
    ∧ agentState wEnd = moved
    ∧ (goalPos w = mkPos nextX nextY →
       showsSuccess wEnd ∧ statusText wEnd = MSG_REACHED_GOAL)
    ∧ ∀ steps stepIndex ticks,
        steps !! stepIndex = Some (mkStep i "F") →
        runTicks steps (S ticks) (TimerArmed w stepIndex)
        = TimerCleared wEnd (S stepIndex).
Proof.
  intros Hdir nextX nextY Hx Hy Hcell moved.
  assert (Hstep : ∀ w0, agentState w0 = agentState w → grid w0 = grid w →
    ∃ w', performStep w0 (mkStep i "F") = Returned w' false
     ∧ agentState w' = moved
     ∧ goalPos w' = goalPos w0
     ∧ showsSuccess w'
     ∧ statusText w' = MSG_REACHED_GOAL).
  { intros w0 Ha Hg. unfold performStep. simpl. rewrite Ha, Hg, Hdir.
    fold nextX nextY.
    assert (Hb : (nextX <? 0) || (nextX >=? GRID_SIZE)
                 || (nextY <? 0) || (nextY >=? GRID_SIZE) = false).
    { unfold GRID_SIZE in *. lia. }
    rewrite Hb, Hcell. simpl. eexists. split; [reflexivity|]. simpl.
    unfold set_agent_y, set_agent_x. simpl. rewrite Ha. done. }
  destruct (Hstep w eq_refl eq_refl) as (w' & Hp & Ha & _ & Hs & Ht).
  destruct (Hstep (setQueueHighlight w (Some i)) eq_refl eq_refl)
    as (wh & Hph & Hah & Hgoal & _ & _).
  exists w', (endExecutionCheck wh).
  destruct (endExecutionCheck_agentState wh) as [Ha' _].
  split_and!; try done.
  - congruence.
  - intros Hgp. apply endExecutionCheck_verdict.
    unfold atGoal. rewrite Hah, Hgoal. simpl. by rewrite Hgp.
  - intros steps stepIndex ticks Hlook. simpl. unfold tick.
    rewrite Hlook. simpl. rewrite Hph. simpl. apply runTicks_cleared.
Qed.

Lemma forward_reaches_goal_witness :
  ∃ w' wEnd,
    performStep (sampleWorld (mkAgent 3 3 1) []) (mkStep 0 "F")
    = Returned w' false
    ∧ agentState w' = mkAgent 4 3 1
    ∧ showsSuccess wEnd
    ∧ runTicks [mkStep 0 "F"; mkStep 1 "R"; mkStep 2 "F"] 3
        (TimerArmed (sampleWorld (mkAgent 3 3 1) []) 0)
      = TimerCleared wEnd 1.
Proof.
  destruct (forward_reaches_goal (sampleWorld (mkAgent 3 3 1) []) 0
              (mkDir 1 0 90) eq_refl)
    as (w' & wEnd & Hp & Ha & _ & _ & _ & Hs & Hrun).
  - unfold GRID_SIZE. simpl. lia.
  - unfold GRID_SIZE. simpl. lia.
  - reflexivity.
  - exists w', wEnd. split_and!; [done | done | by apply Hs |].
    by apply (Hrun [mkStep 0 "F"; mkStep 1 "R"; mkStep 2 "F"] 0%nat 2%nat).
Defined.

(** While the timer is armed, every tick has consumed one step. *)
Lemma runTicks_armed_index steps ticks w stepIndex w' stepIndex' :
  runTicks steps ticks (TimerArmed w stepIndex) = TimerArmed w' stepIndex' →
  stepIndex' = (stepIndex + ticks)%nat.
Proof.
  revert w stepIndex. induction ticks as [|ticks IH]; intros w stepIndex; simpl.
  - intros [= _ <-]. lia.
  - unfold tick. destruct (steps !! stepIndex) as [step|]; simpl.
    + destruct (performStep _ step) as [w1 [|]|w1]; simpl.
      * intros H. apply IH in H. lia.
      * by destruct ticks.
      * by destruct ticks.
    + by destruct ticks.
Qed.

Lemma runTicks_add steps a b s :
  runTicks steps (a + b) s = runTicks steps b (runTicks steps a s).
Proof.
  revert s. induction a as [|a IH]; intros s; simpl; [done|].
  destruct s as [w i|w i|w i|w]; [apply IH | by destruct b ..].
Qed.

(** [startExecution] either finds nothing to run, or arms the timer on the
    expansion of the queue with the agent back on the start cell. *)
Lemma startExecution_shape (w : World) :
  let prepared :=
    resetAgentToStart
      (setQueueHighlight (updateStatus (set_isRunning w true) MSG_STARTING)
         None) in
  let steps := expandCommandsForExecution (commandQueue w) in
  (steps = []
   ∧ ∀ ticks, startExecution w ticks
              = NoTimer (set_isRunning (updateStatus prepared MSG_NO_STEPS) false))
  ∨ (∀ ticks, startExecution w ticks
              = runTicks steps ticks (TimerArmed prepared 0)).
Proof.
  intros prepared steps. unfold startExecution.
  change (commandQueue _) with (commandQueue w). fold steps. fold prepared.
  destruct steps; [left | right]; done.
Qed.

(** C7. When the run has consumed all steps of the expansion and none of
    them stopped it (after as many ticks as there are steps the timer is
    still armed), the next tick clears the timer and calls
    [endExecutionCheck]: the success overlay with the success text if the
    agent stands on [goalPos], the failure overlay with the "commands ended
    short of the goal" text otherwise. The agent is where the last step
    left it. *)
Theorem run_exhausted (w wLast : World) :
  let n := length (expandCommandsForExecution (commandQueue w)) in
  startExecution w n = TimerArmed wLast n →
  ∃ wEnd,
    (∀ ticks, startExecution w (S n + ticks) = TimerCleared wEnd n)
    ∧ agentState wEnd = agentState wLast
    ∧ (atGoal wLast →
       showsSuccess wEnd ∧ statusText wEnd = MSG_REACHED_GOAL)
    ∧ (¬ atGoal wLast →
       showsFailure wEnd ∧ statusText wEnd = MSG_NOT_AT_GOAL).
Proof.
  intros n Hrun. exists (endExecutionCheck wLast).
  split; [|split; [apply endExecutionCheck_agentState
                  |apply endExecutionCheck_verdict]].
  intros ticks.
  destruct (startExecution_shape w) as [[Hnil Hno] | Hshape].
  { rewrite Hno in Hrun. discriminate. }
  rewrite Hshape in Hrun. rewrite Hshape.
  replace (S n + ticks)%nat with (n + S ticks)%nat by lia.
  rewrite runTicks_add, Hrun.
  change (runTicks ?st (S ticks) (TimerArmed ?a ?b))
    with (runTicks st ticks (tick st a b)).
  unfold tick. rewrite lookup_ge_None_2 by (subst n; lia).
  apply runTicks_cleared.
Qed.

Lemma run_exhausted_witness :
  ∃ wEnd,
    startExecution (sampleWorld (mkAgent 0 0 1) ["F"; "IFBLUE_R"; "F"]) 4
    = TimerCleared wEnd 3
    ∧ agentState wEnd = mkAgent 2 0 1
    ∧ showsFailure wEnd ∧ statusText wEnd = MSG_NOT_AT_GOAL.
Proof.
  destruct (run_exhausted
              (sampleWorld (mkAgent 0 0 1) ["F"; "IFBLUE_R"; "F"])
              (mkWorld sampleGrid (mkPos 0 0) (mkPos 4 3) (mkAgent 2 0 1)
                 ["F"; "IFBLUE_R"; "F"] true (Some 2%nat) MSG_STARTING
                 true true) eq_refl)
    as (wEnd & Hrun & Ha & _ & Hfail).
  exists wEnd. split_and!; [apply (Hrun 0%nat) | done | |];
    apply Hfail; unfold atGoal; simpl; lia.
Defined.

(** An empty expansion never starts the timer: the overlays stay as they
    were and only the status text changes. *)
Lemma startExecution_empty (w : World) (ticks : nat) :
  commandQueue w = [] →
  ∃ w', startExecution w ticks = NoTimer w'
    ∧ statusText w' = MSG_NO_STEPS ∧ isRunning w' = false
    ∧ overlaySuccessHidden w' = overlaySuccessHidden w
    ∧ overlayFailHidden w' = overlayFailHidden w.
Proof.
  intros Hq. unfold startExecution. simpl. rewrite Hq. simpl.
  eexists. split; [reflexivity|]. done.
Qed.

(** ** Reads and writes of the grid *)

Lemma index_Some {A} (a : list A) (i : Z) (v : A) :
  index a i = Some v → 0 ≤ i < Z.of_nat (length a).
Proof.
  unfold index. case_bool_decide; [|done].
  intros Hl. apply lookup_lt_Some in Hl. lia.
Qed.

Lemma index_is_Some {A} (a : list A) (i : Z) :
  0 ≤ i < Z.of_nat (length a) → ∃ v, index a i = Some v.
Proof.
  intros Hi. unfold index. rewrite bool_decide_eq_true_2 by lia.
  apply lookup_lt_is_Some_2. lia.
Qed.

Lemma index_insert {A} (a : list A) (i j : Z) (v : A) :
  0 ≤ i < Z.of_nat (length a) →
  index (<[Z.to_nat i := v]> a) j = if decide (j = i) then Some v else index a j.
Proof.
  intros Hi. unfold index. case_decide as Hj.
  - subst j. rewrite bool_decide_eq_true_2 by lia.
    apply list_lookup_insert_eq. lia.
  - case_bool_decide; [|done].
    apply list_lookup_insert_ne. lia.
Qed.

Lemma squareGrid_row (g : Grid) (y : Z) :
  squareGrid g → 0 ≤ y < GRID_SIZE →
  ∃ row, index g y = Some row ∧ length row = Z.to_nat GRID_SIZE.
Proof.
  intros [Hlen Hrows] Hy.
  destruct (index_is_Some g y) as [row Hrow]; [rewrite Hlen; lia|].
  exists row. split; [done|].
  unfold index in Hrow. case_bool_decide; [|done].
  by apply (Forall_lookup_1 _ _ _ _ Hrows Hrow).
Qed.

Lemma squareGrid_gridGet (g : Grid) (x y : Z) :
  squareGrid g → 0 ≤ x < GRID_SIZE → 0 ≤ y < GRID_SIZE →
  ∃ cell, gridGet g x y = Some (Some cell).
Proof.
  intros Hsq Hx Hy. unfold gridGet.
  destruct (squareGrid_row g y Hsq Hy) as (row & -> & Hlen).
  destruct (index_is_Some row x) as [cell ->]; [rewrite Hlen; lia|].
  by exists cell.
Qed.

(** A write inside a square grid succeeds, keeps the grid square, is read
    back at the written cell, and is not seen at any other cell. *)
Lemma squareGrid_gridSet (g : Grid) (x y : Z) (v : string) :
  squareGrid g → 0 ≤ x < GRID_SIZE → 0 ≤ y < GRID_SIZE →
  ∃ g', gridSet g x y v = Some g'
    ∧ squareGrid g'
    ∧ ∀ x' y', gridGet g' x' y'
               = if decide (x' = x ∧ y' = y) then Some (Some v)
                 else gridGet g x' y'.
Proof.
  intros Hsq Hx Hy. unfold gridSet.
  destruct (squareGrid_row g y Hsq Hy) as (row & Hrow & Hlen).
  rewrite Hrow. rewrite bool_decide_eq_true_2 by (rewrite Hlen; lia).
  eexists. split; [reflexivity|]. destruct Hsq as [Hg Hrows]. split.
  - split; [by rewrite length_insert|].
    apply Forall_insert; [done|]. by rewrite length_insert.
  - intros x' y'. unfold gridGet.
    rewrite index_insert by (rewrite Hg; lia).
    destruct (decide (y' = y)) as [->|Hy'].
    + rewrite Hrow. rewrite index_insert by (rewrite Hlen; lia).
      destruct (decide (x' = x)) as [->|Hx'].
      * by rewrite decide_True.
      * rewrite decide_False; [done|]. by intros [? _].
    + rewrite decide_False; [done|]. by intros [_ ?].
Qed.

Lemma filter_insert_length (P : string → Prop) `{∀ c, Decision (P c)}
    (row : list string) (i : nat) (old v : string) :
  row !! i = Some old →
  (length (filter P (<[i := v]> row)) + (if decide (P old) then 1 else 0)
   = length (filter P row) + (if decide (P v) then 1 else 0))%nat.
Proof.
  revert i. induction row as [|c row IH]; intros i Hi; [done|].
  destruct i as [|i]; simpl in *.
  - injection Hi as ->. rewrite !filter_cons.
    repeat case_decide; simpl; lia.
  - specialize (IH i Hi). rewrite !filter_cons.
    destruct (decide (P c)); simpl; lia.
Qed.

(** Writing [v] over a cell that held [old] moves the count of [kind] cells
    by at most one. *)
Lemma countCells_gridSet (kind : string) (g g' : Grid) (x y : Z)
    (old v : string) :
  gridGet g x y = Some (Some old) →
  gridSet g x y v = Some g' →
  (countCells kind g' + (if decide (old = kind) then 1 else 0)
   = countCells kind g + (if decide (v = kind) then 1 else 0))%nat.
Proof.
  unfold gridGet, gridSet, countCells.
  destruct (index g y) as [row|] eqn:Hrow; [|done].
  intros [= Hold]. case_bool_decide; [|done]. intros [= <-].
  unfold index in Hrow, Hold.
  repeat case_bool_decide; try done.
  rewrite <- (take_drop_middle g (Z.to_nat y) row Hrow) at 2.
  rewrite insert_take_drop by (by eapply lookup_lt_Some).
  rewrite !concat_app, !concat_cons, !filter_app, !length_app.
  pose proof (filter_insert_length (λ cell, cell = kind) row (Z.to_nat x)
                old v Hold).
  lia.
Qed.

(** ** Runs end *)

Lemma endExecutionCheck_shows (w : World) :
  showsSuccess (endExecutionCheck w) ∨ showsFailure (endExecutionCheck w).
Proof. unfold endExecutionCheck. case_match; [by left | by right]. Qed.

(** Closes a case of [performStep_returns]: the call returns, the grid is
    the same and the agent is on the board. *)
Local Ltac step_returns Hrem :=
  eexists _, _; split; [reflexivity|]; split; [done|];
  unfold agentOnBoard; simpl;
  pose proof (Hrem 1 ltac:(lia)); pose proof (Hrem 3 ltac:(lia)); lia.

(** On a square grid, with the agent on the board, [performStep] returns
    (no [TypeError]) and leaves the agent on the board. *)
Lemma performStep_returns (w : World) (step : Step) :
  squareGrid (grid w) → agentOnBoard (agentState w) →
  ∃ w' continueRun,
    performStep w step = Returned w' continueRun
    ∧ grid w' = grid w
    ∧ agentOnBoard (agentState w').
Proof.
  intros Hsq (Hx & Hy & Hd). destruct step as [i type].
  destruct (squareGrid_gridGet _ _ _ Hsq Hx Hy) as [here Hhere].
  assert (Hrem : ∀ k, 0 ≤ k → 0 ≤ (agent_dir (agentState w) + k) `rem` 4 < 4).
  { intros k Hk. apply Z.rem_bound_pos; lia. }
  unfold performStep. simpl.
  destruct (String.eqb_spec type "NOOP") as [->|_]; [step_returns Hrem|].
  destruct (String.eqb_spec type "NOOP_COND") as [->|_];
    [step_returns Hrem|]. simpl.
  destruct (String.eqb_spec type "IFBLUE_R") as [->|_].
  { rewrite Hhere. destruct (strictEq _ _); step_returns Hrem. }
  destruct (String.eqb_spec type "IFBLUE_L") as [->|_].
  { rewrite Hhere. destruct (strictEq _ _); step_returns Hrem. }
  destruct (String.eqb_spec type "L") as [->|_]; [step_returns Hrem|].
  destruct (String.eqb_spec type "R") as [->|_]; [step_returns Hrem|].
  destruct (String.eqb_spec type "F") as [->|_]; [|step_returns Hrem].
  assert (Hdir : ∃ dirInfo, index DIRS (agent_dir (agentState w)) = Some dirInfo).
  { apply index_is_Some. simpl. lia. }
  destruct Hdir as [dirInfo ->].
  set (nextX := agent_x (agentState w) + dx dirInfo).
  set (nextY := agent_y (agentState w) + dy dirInfo).
  destruct ((nextX <? 0) || (nextX >=? GRID_SIZE)
            || (nextY <? 0) || (nextY >=? GRID_SIZE)) eqn:Hb;
    [step_returns Hrem|].
  assert (Hnx : 0 ≤ nextX < GRID_SIZE) by lia.
  assert (Hny : 0 ≤ nextY < GRID_SIZE) by lia.
  destruct (squareGrid_gridGet _ _ _ Hsq Hnx Hny) as [cell ->].
  destruct (strictEq (Some cell) "wall"); [step_returns Hrem|].
  destruct (strictEq (Some cell) "goal"); step_returns Hrem.
Qed.

Lemma runTicks_finishes (steps : list Step) (ticks : nat) (w : World)
    (stepIndex : nat) :
  squareGrid (grid w) → agentOnBoard (agentState w) →
  (stepIndex < length steps < stepIndex + ticks)%nat →
  ∃ wEnd consumed,
    runTicks steps ticks (TimerArmed w stepIndex) = TimerCleared wEnd consumed
    ∧ (stepIndex < consumed ≤ length steps)%nat
    ∧ (showsSuccess wEnd ∨ showsFailure wEnd).
Proof.
  revert w stepIndex.
  induction ticks as [|ticks IH]; intros w stepIndex Hsq Hon Hlt; [lia|].
  simpl. unfold tick.
  destruct (lookup_lt_is_Some_2 steps stepIndex) as [step Hstep]; [lia|].
  rewrite Hstep.
  destruct (performStep_returns (setQueueHighlight w (Some (fromIndex step)))
              step Hsq Hon) as (w' & continueRun & -> & Hg & Hon').
  destruct continueRun; simpl.
  - destruct (decide (S stepIndex < length steps)%nat) as [Hmore|Hlast].
    + destruct (IH w' (S stepIndex)) as (wEnd & k & -> & Hk & Hshow);
        [by rewrite Hg | done | lia |].
      exists wEnd, k. split; [done|]. split; [lia|done].
    + destruct ticks as [|ticks]; [lia|]. simpl. unfold tick.
      rewrite lookup_ge_None_2 by lia. rewrite runTicks_cleared.
      eexists _, _. split; [done|]. split; [lia|].
      apply endExecutionCheck_shows.
  - rewrite runTicks_cleared. eexists _, _. split; [done|]. split; [lia|].
    apply endExecutionCheck_shows.
Qed.

Lemma expand_nonempty (cmd : string) (queue : list string) :
  expandCommandsForExecution (cmd :: queue) ≠ [].
Proof.
  rewrite (expand_cut (cmd :: queue) 1) by (simpl; lia).
  rewrite (expandLoop_one (cmd :: queue) 0 cmd eq_refl).
  intros Hnil. apply app_eq_nil in Hnil as [Hnil _]. revert Hnil.
  unfold expandBody. repeat case_match; discriminate.
Qed.

(** A run on a square grid from a start cell on the board is over after one
    tick more than there are steps: the timer is cleared,
    [endExecutionCheck] has given its verdict, and at least one step was
    consumed. *)
Lemma startExecution_finishes (w : World) :
  squareGrid (grid w) →
  0 ≤ pos_x (startPos w) < GRID_SIZE →
  0 ≤ pos_y (startPos w) < GRID_SIZE →
  commandQueue w ≠ [] →
  let steps := expandCommandsForExecution (commandQueue w) in
  ∃ wEnd consumed,
    startExecution w (S (length steps)) = TimerCleared wEnd consumed
    ∧ (0 < consumed ≤ length steps)%nat
    ∧ (showsSuccess wEnd ∨ showsFailure wEnd).
Proof.
  intros Hsq Hx Hy Hq steps.
  assert (Hne : steps ≠ []).
  { subst steps. destruct (commandQueue w); [done|apply expand_nonempty]. }
  destruct (startExecution_shape w) as [[Hnil _] | Hshape]; [done|].
  rewrite Hshape. fold steps.
  apply runTicks_finishes; [done | | ].
  - split_and!; simpl; try done; lia.
  - destruct steps; [done|]. simpl. lia.
Qed.

(** ** Map generator *)

Lemma generatedGrid_write (goal : Pos) (g : Grid) (x y : Z) (v : string) :
  generatedGrid goal g →
  0 ≤ x < GRID_SIZE → 0 ≤ y < GRID_SIZE →
  ¬ (x = pos_x goal ∧ y = pos_y goal) →
  ¬ (x = 0 ∧ y = 0) →
  v ≠ "goal" →
  ∃ g', gridSet g x y v = Some g'
    ∧ generatedGrid goal g'
    ∧ ∀ x' y', gridGet g' x' y'
               = if decide (x' = x ∧ y' = y) then Some (Some v)
                 else gridGet g x' y'.
Proof.
  intros (Hsq & Hcount & Hgoal & Honly & Hsw & Hsb) Hx Hy Hng Hns Hv.
  destruct (squareGrid_gridSet g x y v Hsq Hx Hy) as (g' & Hset & Hsq' & Hread).
  exists g'. split; [done|]. split; [|done].
  destruct (squareGrid_gridGet g x y Hsq Hx Hy) as [old Hold].
  assert (Holdg : old ≠ "goal").
  { intros ->. apply Hng. by apply Honly. }
  pose proof (countCells_gridSet "goal" g g' x y old v Hold Hset) as Hc.
  rewrite !decide_False in Hc by done.
  split_and!; try done.
  - lia.
  - rewrite Hread. rewrite decide_False; [done|].
    intros [? ?]. apply Hng. by split.
  - intros x' y'. rewrite Hread. case_decide; [|apply Honly].
    intros [= ?]. done.
  - rewrite Hread. rewrite decide_False; [done|].
    intros [? ?]. apply Hns. by split.
  - rewrite Hread. rewrite decide_False; [done|].
    intros [? ?]. apply Hns. by split.
Qed.

Lemma emptyGrid_reads (x y : Z) (cell : string) :
  gridGet (replicate (Z.to_nat GRID_SIZE)
             (replicate (Z.to_nat GRID_SIZE) "empty")) x y
  = Some (Some cell) →
  cell = "empty".
Proof.
  unfold gridGet, index. case_bool_decide; [|done].
  destruct (replicate _ _ !! Z.to_nat y) as [row|] eqn:Hrow; [|done].
  apply lookup_replicate in Hrow as [-> _].
  case_bool_decide; [|done]. intros [= Hc].
  by apply (lookup_replicate 5 "empty" cell (Z.to_nat x)) in Hc as [-> _].
Qed.

(** The grid right after [grid[goalPos.y][goalPos.x] = "goal"]. *)
Lemma goal_written (goal : Pos) :
  onBoard goal →
  ∃ g, gridSet (replicate (Z.to_nat GRID_SIZE)
                  (replicate (Z.to_nat GRID_SIZE) "empty"))
         (pos_x goal) (pos_y goal) "goal" = Some g
    ∧ generatedGrid goal g
    ∧ ∀ x y, gridGet g x y ≠ Some (Some "wall").
Proof.
  intros [Hx Hy].
  set (g0 := replicate (Z.to_nat GRID_SIZE)
               (replicate (Z.to_nat GRID_SIZE) "empty")).
  assert (Hsq : squareGrid g0).
  { split; [apply length_replicate|].
    apply Forall_replicate. apply length_replicate. }
  destruct (squareGrid_gridSet g0 _ _ "goal" Hsq Hx Hy)
    as (g & Hset & Hsq' & Hread).
  destruct (squareGrid_gridGet g0 _ _ Hsq Hx Hy) as [old Hold].
  pose proof (emptyGrid_reads _ _ _ Hold) as ->.
  pose proof (countCells_gridSet "goal" g0 g _ _ "empty" "goal" Hold Hset)
    as Hc.
  exists g. split; [done|].
  assert (Hother : ∀ x y cell, gridGet g x y = Some (Some cell) →
            cell = "goal" ∧ x = pos_x goal ∧ y = pos_y goal
            ∨ cell = "empty").
  { intros x y cell. rewrite Hread.
    destruct (decide (x = pos_x goal ∧ y = pos_y goal)) as [Hxy|Hxy].
    - intros [= <-]. left. by destruct Hxy.
    - intros Hc'. right. by apply (emptyGrid_reads x y). }
  split; [split_and!|].
  - done.
  - change (countCells "goal" g0) with 0%nat in Hc.
    rewrite decide_False, decide_True in Hc by done. lia.
  - rewrite Hread. by rewrite decide_True.
  - intros x y Hg. by destruct (Hother _ _ _ Hg) as [(_ & ? & ?)|?].
  - intros Hw. by destruct (Hother _ _ _ Hw) as [(? & _)|?].
  - intros Hb. by destruct (Hother _ _ _ Hb) as [(? & _)|?].
  - intros x y Hw. by destruct (Hother _ _ _ Hw) as [(? & _)|?].
Qed.

Lemma fillLoop_fuel (fuel fuel' : nat) v to step cell acc r :
  fillLoop fuel v to step cell acc = Some r →
  (fuel ≤ fuel')%nat →
  fillLoop fuel' v to step cell acc = Some r.
Proof.
  revert fuel' v acc. induction fuel as [|fuel IH]; intros fuel' v acc.
  - simpl. destruct fuel'; simpl; case_match; done.
  - destruct fuel' as [|fuel']; [lia|]. simpl. case_match; [done|].
    intros Hr Hle. apply IH; [done|lia].
Qed.

Lemma expandSegments_fuel (fuel fuel' : nat) path acc r :
  expandSegments fuel path acc = Some r →
  (fuel ≤ fuel')%nat →
  expandSegments fuel' path acc = Some r.
Proof.
  intros Hr Hle. revert acc Hr.
  induction path as [|from rest IH]; intros acc; [done|].
  simpl. destruct rest as [|to rest']; [done|].
  match goal with
  | |- ?m ≫= _ = _ → _ => destruct m as [filled|] eqn:Hfill; [|done]
  end.
  simpl. intros Hr.
  assert (Hfill' :
    (if pos_x from =? pos_x to
     then fillLoop fuel' (pos_y from + (if pos_y from <? pos_y to then 1 else -1))
            (pos_y to) (if pos_y from <? pos_y to then 1 else -1)
            (λ y, mkPos (pos_x from) y) (acc ++ [from])
     else if pos_y from =? pos_y to
     then fillLoop fuel' (pos_x from + (if pos_x from <? pos_x to then 1 else -1))
            (pos_x to) (if pos_x from <? pos_x to then 1 else -1)
            (λ x, mkPos x (pos_y from)) (acc ++ [from])
     else Some (acc ++ [from])) = Some filled).
  { revert Hfill. repeat case_match; try done;
      intros Hf; by apply (fillLoop_fuel fuel). }
  rewrite Hfill'. simpl. by apply IH.
Qed.

Lemma solutionPathCheck_board (useHorizontalFirst : bool) (goal : Pos) :
  onBoard goal → solutionPathCheck useHorizontalFirst goal = true.
Proof.
  destruct goal as [gx gy]. unfold onBoard, GRID_SIZE. simpl. intros [Hx Hy].
  assert (Ex : gx = 0 ∨ gx = 1 ∨ gx = 2 ∨ gx = 3 ∨ gx = 4) by lia.
  assert (Ey : gy = 0 ∨ gy = 1 ∨ gy = 2 ∨ gy = 3 ∨ gy = 4) by lia.
  clear Hx Hy.
  destruct Ex as [->|[->|[->|[->| ->]]]];
    destruct Ey as [->|[->|[->|[->| ->]]]];
    destruct useHorizontalFirst; vm_compute; reflexivity.
Qed.

Lemma forallb_onBoard (path : list Pos) :
  forallb onBoardb path = true → Forall onBoard path.
Proof.
  intros H. apply Forall_forall. intros p Hp.
  apply list_elem_of_In in Hp.
  pose proof (proj1 (forallb_forall onBoardb path) H p Hp) as Hb.
  unfold onBoardb in Hb. unfold onBoard. lia.
Qed.

Section GeneratorFacts.

Variable rnd : nat → nat.

Lemma randInt_range (min max : Z) (c : nat) :
  min ≤ max →
  min ≤ (randInt rnd min max c).1 ≤ max ∧ (randInt rnd min max c).2 = S c.
Proof.
  intros Hle. unfold randInt, randomFloorTimes. simpl. split; [|done].
  pose proof (Z.mod_pos_bound (Z.of_nat (rnd c)) (max - min + 1)). lia.
Qed.

(** The goal loop ends within 51 draws, on a cell of the board; when it
    ends before the bound is hit, the cell passed the test of the loop. *)
Lemma goalLoop_ends (fuel : nat) (startPos : Pos) (attempts : Z) (c : nat) :
  0 ≤ attempts ≤ 50 → 51 - attempts ≤ Z.of_nat fuel →
  ∃ goal attempts' c',
    goalLoop rnd fuel startPos attempts c = Some (goal, attempts', c')
    ∧ onBoard goal
    ∧ attempts < attempts' ≤ 51
    ∧ (attempts' ≤ 50 →
       goal ≠ startPos
       ∧ 6 ≤ Z.abs (pos_x goal - pos_x startPos)
             + Z.abs (pos_y goal - pos_y startPos)).
Proof.
  revert attempts c. induction fuel as [|fuel IH]; intros attempts c Ha Hf.
  { lia. }
  cbn [goalLoop].
  destruct (randInt rnd 0 (GRID_SIZE - 1) c) as [gx c1] eqn:Hgx.
  destruct (randInt rnd 0 (GRID_SIZE - 1) c1) as [gy c2] eqn:Hgy.
  pose proof (randInt_range 0 (GRID_SIZE - 1) c ltac:(done)) as [Hx _].
  pose proof (randInt_range 0 (GRID_SIZE - 1) c1 ltac:(done)) as [Hy _].
  rewrite Hgx in Hx. rewrite Hgy in Hy. simpl in Hx, Hy.
  assert (Hon : onBoard (mkPos gx gy)).
  { unfold onBoard, GRID_SIZE in *. simpl. lia. }
  destruct (attempts + 1 >? 50) eqn:Hmany.
  { eexists _, _, _. split; [reflexivity|]. split; [done|]. lia. }
  cbn [pos_x pos_y].
  destruct (((gx =? pos_x startPos) && (gy =? pos_y startPos))
            || (Z.abs (gx - pos_x startPos) + Z.abs (gy - pos_y startPos)
                <? 6)) eqn:Hagain.
  - destruct (IH (attempts + 1) c2) as (goal & a' & c' & -> & Hg & Hb & Hok);
      [lia | lia |].
    eexists _, _, _. split; [reflexivity|]. split; [done|].
    split; [lia|done].
  - eexists _, _, _. split; [reflexivity|]. split; [done|].
    split; [lia|]. intros _. simpl. split; [|lia].
    intros Heq. rewrite <- Heq in Hagain. simpl in Hagain. lia.
Qed.

Lemma generateSolutionPath_walk (fuel : nat) (goal : Pos) (c : nat) :
  (4 ≤ fuel)%nat → onBoard goal →
  ∃ solutionPath,
    generateSolutionPath rnd fuel (mkPos 0 0) goal c
    = Some (solutionPath, S c)
    ∧ walkCheck (mkPos 0 0) goal solutionPath = true.
Proof.
  intros Hfuel Hon. unfold generateSolutionPath.
  pose proof (solutionPathCheck_board (randomGtHalf rnd c) goal Hon) as Hc.
  unfold solutionPathCheck in Hc.
  destruct (wayPoints _ _ _) as [path|]; [|done]. simpl.
  destruct (expandSegments 4 path []) as [expandedPath|] eqn:He; [|done].
  rewrite (expandSegments_fuel 4 fuel _ _ _ He Hfuel). simpl.
  destruct goal as [gx gy]. simpl in *. by eexists.
Qed.

Lemma swap_Forall (P : Pos → Prop) (l : list Pos) (i j : nat) :
  Forall P l → Forall P (swap l i j).
Proof.
  intros Hl. unfold swap.
  destruct (l !! i) as [vi|] eqn:Hi; [|done].
  destruct (l !! j) as [vj|] eqn:Hj; [|done].
  apply Forall_insert; [apply Forall_insert|]; try done.
  - by apply (Forall_lookup_1 _ _ _ _ Hl Hj).
  - by apply (Forall_lookup_1 _ _ _ _ Hl Hi).
Qed.

Lemma shuffleArray_Forall (P : Pos → Prop) (l : list Pos) (c : nat) :
  Forall P l → Forall P (shuffleArray rnd l c).1.
Proof.
  unfold shuffleArray. generalize (length l - 1)%nat as i.
  intros i. revert l c. induction i as [|i IH]; intros l c Hl; [done|].
  simpl. apply IH. by apply swap_Forall.
Qed.

End GeneratorFacts.

Lemma placeBlue_keeps (selectedCorners : list Pos) (goal : Pos) (g : Grid) :
  Forall onBoard selectedCorners →
  generatedGrid goal g →
  (∀ x y, gridGet g x y ≠ Some (Some "wall")) →
  ∃ g', placeBlue selectedCorners (mkPos 0 0) goal g = Some g'
    ∧ generatedGrid goal g'
    ∧ ∀ x y, gridGet g' x y ≠ Some (Some "wall").
Proof.
  revert g. induction selectedCorners as [|p rest IH]; intros g Hsel Hg Hnw.
  { by exists g. }
  apply Forall_cons in Hsel as [[Hx Hy] Hrest]. simpl.
  destruct (negb ((pos_x p =? 0) && (pos_y p =? 0))
            && negb ((pos_x p =? pos_x goal) && (pos_y p =? pos_y goal)))
    eqn:Hguard; [|by apply IH].
  destruct (generatedGrid_write goal g (pos_x p) (pos_y p) "blue" Hg Hx Hy)
    as (g1 & -> & Hg1 & Hread); [lia | lia | done |].
  simpl. apply IH; [done | done |].
  intros x y. rewrite Hread. case_decide; [done|apply Hnw].
Qed.

Lemma addPathCells_elem (solutionPath : list Pos) (p : Pos) :
  p ∈ solutionPath → cellKey (pos_x p) (pos_y p) ∈ addPathCells solutionPath.
Proof.
  unfold addPathCells.
  assert (Hacc : ∀ (acc : gset string) k,
            k ∈ acc ∨ (∃ q, q ∈ solutionPath ∧ k = cellKey (pos_x q) (pos_y q)) →
            k ∈ foldl (λ pathCells q,
                         {[ cellKey (pos_x q) (pos_y q) ]} ∪ pathCells)
                  acc solutionPath).
  { induction solutionPath as [|q rest IH]; intros acc k.
    - intros [Hk | (q & Hq & _)]; [done|]. by apply elem_of_nil in Hq.
    - simpl. intros [Hk | (q' & Hq' & ->)].
      + apply IH. left. set_solver.
      + apply elem_of_cons in Hq' as [-> | Hq'].
        * apply IH. left. set_solver.
        * apply IH. right. by exists q'. }
  intros Hp. apply Hacc. right. by exists p.
Qed.

Section WallFacts.

Variable rnd : nat → nat.
Variables (goal : Pos) (solutionPath : list Pos) (wallCount : Z).

(** The wall loop ends within 100 rounds; it keeps the grid a generated
    grid and the solution path free of walls. *)
Lemma wallLoop_keeps (fuel : nat) (g : Grid) (placedWalls wallAttempts : Z)
    (c : nat) :
  0 ≤ wallAttempts → 100 - wallAttempts ≤ Z.of_nat fuel →
  generatedGrid goal g → pathClear solutionPath g →
  ∃ g' placedWalls' wallAttempts' c',
    wallLoop rnd fuel (addPathCells solutionPath) (mkPos 0 0) goal
      wallCount g placedWalls wallAttempts c
    = Some (g', placedWalls', wallAttempts', c')
    ∧ generatedGrid goal g' ∧ pathClear solutionPath g'.
Proof.
  revert g placedWalls wallAttempts c.
  induction fuel as [|fuel IH];
    intros g placedWalls wallAttempts c Ha Hf Hg Hclear.
  { simpl. destruct ((placedWalls <? wallCount) && (wallAttempts <? 100))
      eqn:Hcond; [lia|]. by eexists _, _, _, _. }
  cbn [wallLoop].
  destruct ((placedWalls <? wallCount) && (wallAttempts <? 100)) eqn:Hcond;
    [|by eexists _, _, _, _].
  destruct (randInt rnd 0 (GRID_SIZE - 1) c) as [x c1] eqn:Hrx.
  destruct (randInt rnd 0 (GRID_SIZE - 1) c1) as [y c2] eqn:Hry.
  pose proof (randInt_range rnd 0 (GRID_SIZE - 1) c ltac:(done)) as [Hx _].
  pose proof (randInt_range rnd 0 (GRID_SIZE - 1) c1 ltac:(done)) as [Hy _].
  rewrite Hrx in Hx. rewrite Hry in Hy. simpl in Hx, Hy.
  assert (Hx' : 0 ≤ x < GRID_SIZE) by (unfold GRID_SIZE in *; lia).
  assert (Hy' : 0 ≤ y < GRID_SIZE) by (unfold GRID_SIZE in *; lia).
  cbn [pos_x pos_y].
  destruct (negb (bool_decide (cellKey x y ∈ addPathCells solutionPath))
            && negb ((x =? 0) && (y =? 0))
            && negb ((x =? pos_x goal) && (y =? pos_y goal))) eqn:Hguard;
    [|apply IH; (done || lia)].
  destruct Hg as (Hsq & Hrest).
  destruct (squareGrid_gridGet g x y Hsq Hx' Hy') as [cell ->]. simpl.
  destruct (String.eqb_spec cell "empty") as [->|_];
    [|apply IH; (done || lia)].
  destruct (generatedGrid_write goal g x y "wall" (conj Hsq Hrest) Hx' Hy')
    as (g1 & -> & Hg1 & Hread); [lia | lia | done |].
  simpl. apply IH; [lia | lia | done |].
  intros p Hp. rewrite Hread. rewrite decide_False; [by apply Hclear|].
  intros [Hpx Hpy].
  pose proof (addPathCells_elem solutionPath p Hp) as Hin.
  rewrite Hpx, Hpy in Hin.
  apply andb_prop in Hguard as [Hguard _].
  apply andb_prop in Hguard as [Hguard _].
  apply negb_true_iff, bool_decide_eq_false in Hguard. done.
Qed.

End WallFacts.

(** What a call of [generateRandomMap] with enough fuel does, for every
    random source. *)
Lemma generateRandomMap_runs (rnd : nat → nat) (fuel : nat) (w : World)
    (c : nat) :
  (100 ≤ fuel)%nat →
  ∃ r,
    generateRandomMap rnd fuel w c = Some r
    ∧ startPos (gen_world r) = mkPos 0 0
    ∧ onBoard (goalPos (gen_world r))
    ∧ generatedGrid (goalPos (gen_world r)) (grid (gen_world r))
    ∧ walkCheck (mkPos 0 0) (goalPos (gen_world r)) (gen_solutionPath r) = true
    ∧ pathClear (gen_solutionPath r) (grid (gen_world r))
    ∧ 1 ≤ gen_attempts r ≤ 51
    ∧ (gen_attempts r ≤ 50 →
       goalPos (gen_world r) ≠ mkPos 0 0
       ∧ 6 ≤ Z.abs (pos_x (goalPos (gen_world r)) - 0)
             + Z.abs (pos_y (goalPos (gen_world r)) - 0)).
Proof.
  intros Hfuel. unfold generateRandomMap.
  destruct (goalLoop_ends rnd fuel (mkPos 0 0) 0 c)
    as (goal & attempts & c1 & -> & Hon & Hatt & Hfar); [lia | lia |].
  cbn [mbind option_bind].
  destruct (goal_written goal Hon) as (g1 & -> & Hg1 & Hnw1).
  cbn [mbind option_bind].
  destruct (generateSolutionPath_walk rnd fuel goal c1)
    as (solutionPath & -> & Hwalk); [lia | done |].
  cbn [mbind option_bind].
  destruct (randInt rnd 1 2 (S c1)) as [r c2] eqn:Hr.
  destruct (shuffleArray rnd (findCorners solutionPath) c2)
    as [shuffled c3] eqn:Hshuffle.
  set (selectedCorners := take _ shuffled).
  assert (Hsel : Forall onBoard selectedCorners).
  { apply Forall_take.
    pose proof (shuffleArray_Forall rnd onBoard (findCorners solutionPath) c2)
      as Hs.
    rewrite Hshuffle in Hs. apply Hs. apply forallb_onBoard.
    unfold walkCheck in Hwalk. apply andb_prop in Hwalk. apply Hwalk. }
  destruct (placeBlue_keeps selectedCorners goal g1 Hsel Hg1 Hnw1)
    as (g2 & -> & Hg2 & Hnw2).
  cbn [mbind option_bind].
  destruct (randInt rnd 3 5 c3) as [wallCount c4] eqn:Hwc.
  destruct (wallLoop_keeps rnd goal solutionPath wallCount fuel g2 0 0 c4)
    as (g3 & placed & tried & c5 & -> & Hg3 & Hclear);
    [lia | lia | done | by intros p _ |].
  cbn [mbind option_bind].
  eexists. split; [reflexivity|]. cbn.
  split_and!; try done; lia.
Qed.

(** C8. For every random source the generator returns a map whose grid
    holds "goal" in exactly one cell, the cell [goalPos]; the start cell
    (0, 0) is neither "wall" nor "blue"; and no cell of the solution path
    holds "wall", where the solution path is a cell-by-cell walk on the
    board from the start to the goal. *)
Theorem generateRandomMap_grid (rnd : nat → nat) (fuel : nat) (w : World)
    (c : nat) :
  (100 ≤ fuel)%nat →
  ∃ r,
    generateRandomMap rnd fuel w c = Some r
    ∧ countCells "goal" (grid (gen_world r)) = 1%nat
    ∧ gridGet (grid (gen_world r))
        (pos_x (goalPos (gen_world r))) (pos_y (goalPos (gen_world r)))
      = Some (Some "goal")
    ∧ startPos (gen_world r) = mkPos 0 0
    ∧ gridGet (grid (gen_world r)) 0 0 ≠ Some (Some "wall")
    ∧ gridGet (grid (gen_world r)) 0 0 ≠ Some (Some "blue")
    ∧ (∀ p, p ∈ gen_solutionPath r →
          gridGet (grid (gen_world r)) (pos_x p) (pos_y p)
          ≠ Some (Some "wall"))
    ∧ head (gen_solutionPath r) = Some (startPos (gen_world r))
    ∧ last (gen_solutionPath r) = Some (goalPos (gen_world r))
    ∧ stepwise (gen_solutionPath r) = true.
Proof.
  intros Hfuel.
  destruct (generateRandomMap_runs rnd fuel w c Hfuel)
    as (r & Hr & Hstart & _ & Hgrid & Hwalk & Hclear & _).
  destruct Hgrid as (_ & Hcount & Hgoal & _ & Hsw & Hsb).
  unfold walkCheck in Hwalk.
  apply andb_prop in Hwalk as [Hwalk _].
  apply andb_prop in Hwalk as [Hwalk Hlast].
  apply andb_prop in Hwalk as [Hwalk Hhead].
  apply andb_prop in Hwalk as [_ Hsteps].
  apply bool_decide_eq_true in Hlast, Hhead.
  exists r. rewrite Hstart. by split_and!.
Qed.

Lemma generateRandomMap_grid_witness :
  ∃ r,
    generateRandomMap (λ n, (n * 7 + 3)%nat) 100
      (sampleWorld (mkAgent 0 0 1) []) 0 = Some r
    ∧ countCells "goal" (grid (gen_world r)) = 1%nat
    ∧ gridGet (grid (gen_world r)) 0 0 ≠ Some (Some "wall")
    ∧ gridGet (grid (gen_world r)) 0 0 ≠ Some (Some "blue")
    ∧ pathClear (gen_solutionPath r) (grid (gen_world r)).
Proof.
  destruct (generateRandomMap_grid (λ n, (n * 7 + 3)%nat) 100
              (sampleWorld (mkAgent 0 0 1) []) 0)
    as (r & Hr & Hc & _ & _ & Hw & Hb & Hp & _); [lia|].
  exists r. by split_and!.
Defined.

(** C9. The goal is meant to differ from the start for every random source:
    the [while] test of the goal loop asks for it (and the first version
    loops until it holds). The [break] at more than 50 attempts leaves the
    loop before that test. When all 51 draws of the goal loop give (0, 0),
    the generator returns after 51 attempts with the goal on the start
    cell. *)
Lemma generateRandomMap_goal_on_start :
  ∃ r,
    generateRandomMap (λ _, 0%nat) 100 (sampleWorld (mkAgent 0 0 1) []) 0
    = Some r
    ∧ gen_attempts r = 51
    ∧ goalPos (gen_world r) = startPos (gen_world r).
Proof. eexists. split; [vm_compute; reflexivity|]. by split. Qed.

(** X29. Within its bound the goal loop does what its test says. For every
    random source the loop ends after at most 51 draws; whenever it ends
    within the bound of 50 attempts, the goal is not the start cell and its
    Manhattan distance from the start is at least 6. *)
Theorem generateRandomMap_goal_distance (rnd : nat → nat) (fuel : nat)
    (w : World) (c : nat) :
  (100 ≤ fuel)%nat →
  ∃ r,
    generateRandomMap rnd fuel w c = Some r
    ∧ 1 ≤ gen_attempts r ≤ 51
    ∧ (gen_attempts r ≤ 50 →
       goalPos (gen_world r) ≠ startPos (gen_world r)
       ∧ 6 ≤ Z.abs (pos_x (goalPos (gen_world r))
                     - pos_x (startPos (gen_world r)))
             + Z.abs (pos_y (goalPos (gen_world r))
                      - pos_y (startPos (gen_world r)))).
Proof.
  intros Hfuel.
  destruct (generateRandomMap_runs rnd fuel w c Hfuel)
    as (r & Hr & Hstart & _ & _ & _ & _ & Hatt & Hfar).
  exists r. rewrite Hstart. simpl. split; [done|]. split; [lia|exact Hfar].
Qed.

Lemma generateRandomMap_goal_distance_witness :
  ∃ r,
    generateRandomMap (λ n, (n * 7 + 3)%nat) 100
      (sampleWorld (mkAgent 0 0 1) []) 0 = Some r
    ∧ 1 ≤ gen_attempts r ≤ 51
    ∧ (gen_attempts r ≤ 50 →
       goalPos (gen_world r) ≠ startPos (gen_world r)
       ∧ 6 ≤ Z.abs (pos_x (goalPos (gen_world r))
                     - pos_x (startPos (gen_world r)))
             + Z.abs (pos_y (goalPos (gen_world r))
                      - pos_y (startPos (gen_world r)))).
Proof.
  apply (generateRandomMap_goal_distance (λ n, (n * 7 + 3)%nat) 100
           (sampleWorld (mkAgent 0 0 1) []) 0).
  lia.
Defined.

(** On that random source the loop ends at its second draw, on (2, 4). *)
Example generateRandomMap_second_draw :
  ∃ r,
    generateRandomMap (λ n, (n * 7 + 3)%nat) 100
      (sampleWorld (mkAgent 0 0 1) []) 0 = Some r
    ∧ gen_attempts r = 2
    ∧ goalPos (gen_world r) = mkPos 2 4.
Proof. eexists. split; [vm_compute; reflexivity|]. by split. Qed.

(** ** Further checks of the model *)

(** The fuel of [expandLoop] does not cut the loop short: with more fuel the
    expansion is the same. *)
Lemma expand_fuel_irrelevant (commandQueue : list string) (extra : nat) :
  expandLoop commandQueue (length commandQueue + extra) 0 []
  = expandCommandsForExecution commandQueue.
Proof.
  rewrite expandLoop_split. rewrite (expandLoop_past_end _ extra) by (simpl; lia).
  by rewrite app_nil_r.
Qed.

(** The expander laws of the specification, on the source's tokens. *)
Example expand_laws :
  expandCommandsForExecution [] = []
  ∧ expandCommandsForExecution ["F"] = [mkStep 0 "F"]
  ∧ expandCommandsForExecution ["LOOP2"] = [mkStep 0 "NOOP"]
  ∧ expandCommandsForExecution ["LOOP2"; "LOOP2"; "R"]
    = [mkStep 0 "LOOP2"; mkStep 0 "LOOP2";
       mkStep 1 "R"; mkStep 1 "R"; mkStep 2 "R"].
Proof. by split_and!. Qed.

(** A run on the sample board: forward twice onto the blue cell, turn right
    there, and walk three cells down (two of them from the repeat); the
    queue ends short of the goal. *)
Example sample_run :
  ∃ wEnd,
    startExecution
      (sampleWorld (mkAgent 0 0 1) ["F"; "F"; "IFBLUE_R"; "LOOP2"; "F"]) 7
    = TimerCleared wEnd 6
    ∧ agentState wEnd = mkAgent 2 3 2
    ∧ showsFailure wEnd
    ∧ statusText wEnd = MSG_NOT_AT_GOAL.
Proof. eexists. split; [vm_compute; reflexivity|]. by split_and!. Qed.

(** When the generator has left the goal on the start cell, a run that walks
    off the board from there first shows the failure overlay and then, in
    [endExecutionCheck], the success overlay: the agent never left
    [goalPos]. *)
Remark blocked_on_goal_cell :
  ∃ r w1 wEnd,
    generateRandomMap (λ _, 0%nat) 100 (sampleWorld (mkAgent 0 0 1) ["L"; "F"]) 0
    = Some r
    ∧ performStep
        (set_agent_dir (resetAgentToStart (gen_world r)) 0) (mkStep 1 "F")
      = Returned w1 false
    ∧ showsFailure w1
    ∧ startExecution (gen_world r) 2 = TimerCleared wEnd 2
    ∧ showsSuccess wEnd.
Proof.
  eexists _, _, _. split; [vm_compute; reflexivity|].
  split; [vm_compute; reflexivity|]. split; [done|].
  split; [vm_compute; reflexivity|]. done.
Qed.

(** * Further properties *)

(** ** Command expander, as a whole *)

(** The expansion is the concatenation, in queue order, of what each command
    emits at its index. *)
Lemma expandLoop_imap (commandQueue rest : list string) (i : nat) :
  drop i commandQueue = rest →
  expandLoop commandQueue (length rest) i []
  = concat (imap (λ j cmd, expandBody commandQueue (i + j) cmd) rest).
Proof.
  revert i. induction rest as [|cmd rest IH]; intros i Hdrop; [done|].
  assert (Hcmd : commandQueue !! i = Some cmd).
  { rewrite <- (Nat.add_0_r i), <- lookup_drop, Hdrop. done. }
  assert (Hrest : drop (S i) commandQueue = rest).
  { rewrite (drop_S _ _ _ Hcmd) in Hdrop. by injection Hdrop. }
  simpl. rewrite Hcmd, expandLoop_acc, (IH (S i) Hrest). simpl.
  rewrite Nat.add_0_r. f_equal. f_equal. apply imap_ext.
  intros j c _. simpl. f_equal. lia.
Qed.

Lemma expand_imap (commandQueue : list string) :
  expandCommandsForExecution commandQueue
  = concat (imap (expandBody commandQueue) commandQueue).
Proof.
  unfold expandCommandsForExecution.
  by rewrite (expandLoop_imap commandQueue commandQueue 0 eq_refl).
Qed.

Lemma expandBody_length (commandQueue : list string) (i : nat) (cmd : string) :
  (1 ≤ length (expandBody commandQueue i cmd) ≤ 2)%nat.
Proof. unfold expandBody. repeat case_match; simpl; lia. Qed.

Lemma concat_imap_length {A B} (f : nat → A → list B) (l : list A) :
  (∀ i x, 1 ≤ length (f i x) ≤ 2)%nat →
  (length l ≤ length (concat (imap f l)) ≤ 2 * length l)%nat.
Proof.
  revert f. induction l as [|x l IH]; intros f Hf; simpl; [lia|].
  rewrite length_app. pose proof (Hf 0%nat x).
  pose proof (IH (f ∘ S) (λ i y, Hf (S i) y)). lia.
Qed.

Lemma elem_of_concat_imap {A B} (f : nat → A → list B) (l : list A) (y : B) :
  y ∈ concat (imap f l) ↔ ∃ i x, l !! i = Some x ∧ y ∈ f i x.
Proof.
  revert f. induction l as [|x l IH]; intros f; simpl.
  - split; [by intros ?%elem_of_nil | by intros (i & z & ? & _)].
  - rewrite elem_of_app, IH. split.
    + intros [Hy | (i & z & Hz & Hy)]; [by exists 0%nat, x | by exists (S i), z].
    + intros ([|i] & z & Hz & Hy); simpl in Hz.
      * left. by injection Hz as ->.
      * right. by exists i, z.
Qed.

Lemma concat_imap_singleton {A B} (g : nat → A → B) (l : list A) :
  concat (imap (λ i x, [g i x]) l) = imap g l.
Proof.
  revert g. induction l as [|x l IH]; intros g; simpl; [done|].
  f_equal. apply (IH (g ∘ S)).
Qed.

Lemma concat_imap_fmap {A B C} (g : B → C) (f : nat → A → list B)
    (l : list A) :
  concat (imap (λ i x, g <$> f i x) l) = g <$> concat (imap f l).
Proof.
  revert f. induction l as [|x l IH]; intros f; simpl; [done|].
  rewrite fmap_app. f_equal. apply (IH (f ∘ S)).
Qed.

(** X1. Every command of the queue yields one or two steps: the expansion
    is at least as long as the queue and at most twice as long, and it is
    empty exactly when the queue is. *)
Theorem expand_length_bounds (commandQueue : list string) :
  (length commandQueue
   ≤ length (expandCommandsForExecution commandQueue)
   ≤ 2 * length commandQueue)%nat
  ∧ (expandCommandsForExecution commandQueue = [] ↔ commandQueue = []).
Proof.
  assert (Hlen : (length commandQueue
                  ≤ length (expandCommandsForExecution commandQueue)
                  ≤ 2 * length commandQueue)%nat).
  { rewrite expand_imap. apply concat_imap_length.
    intros i cmd. apply expandBody_length. }
  split; [done|]. split.
  - intros He. rewrite He in Hlen. simpl in Hlen.
    destruct commandQueue; [done|simpl in Hlen; lia].
  - by intros ->.
Qed.

Lemma expandBody_sorted (commandQueue : list string) (i : nat) (cmd : string) :
  StronglySorted le (fromIndex <$> expandBody commandQueue i cmd).
Proof.
  unfold expandBody. repeat case_match; simpl;
    repeat (constructor; simpl); lia.
Qed.

Lemma expandLoop_sorted (commandQueue : list string) (fuel i : nat) :
  StronglySorted le (fromIndex <$> expandLoop commandQueue fuel i []).
Proof.
  revert i. induction fuel as [|fuel IH]; intros i; simpl; [constructor|].
  destruct (commandQueue !! i) as [cmd|]; [|constructor].
  rewrite expandLoop_acc. simpl. rewrite fmap_app.
  apply StronglySorted_app_2; [|apply expandBody_sorted|apply IH].
  intros t1 t2 (s1 & -> & Hs1)%list_elem_of_fmap (s2 & -> & Hs2)%list_elem_of_fmap.
  pose proof (expandBody_fromIndex commandQueue i cmd) as Hb.
  pose proof (expandLoop_fromIndex commandQueue fuel (S i)) as Hl.
  rewrite Forall_forall in Hb, Hl.
  specialize (Hb s1 Hs1). specialize (Hl s2 Hs2). simpl in *. lia.
Qed.

(** X2. The source indices of the expansion never decrease along the
    sequence, and they are exactly the indices of the queue: every command
    has at least one step tagged with its index, and no step is tagged
    outside the queue. *)
Theorem expand_tags_sorted_complete (commandQueue : list string) :
  StronglySorted le (fromIndex <$> expandCommandsForExecution commandQueue)
  ∧ ∀ i, (∃ s, s ∈ expandCommandsForExecution commandQueue ∧ fromIndex s = i)
         ↔ (i < length commandQueue)%nat.
Proof.
  split; [apply expandLoop_sorted|].
  intros i. rewrite expand_imap. split.
  - intros (s & Hs & <-).
    apply elem_of_concat_imap in Hs as (j & cmd & Hcmd & Hs).
    pose proof (expandBody_fromIndex commandQueue j cmd) as Hb.
    rewrite Forall_forall in Hb. rewrite (Hb s Hs).
    by apply lookup_lt_Some in Hcmd.
  - intros Hi. destruct (lookup_lt_is_Some_2 commandQueue i Hi) as [cmd Hcmd].
    pose proof (expandBody_length commandQueue i cmd) as Hlen.
    destruct (expandBody commandQueue i cmd) as [|s body] eqn:Hbody;
      [simpl in Hlen; lia|].
    exists s. split.
    + apply elem_of_concat_imap. exists i, cmd. rewrite Hbody.
      split; [done|apply list_elem_of_here].
    + pose proof (expandBody_fromIndex commandQueue i cmd) as Hb.
      rewrite Hbody in Hb. by apply Forall_cons in Hb as [? _].
Qed.

Lemma expandBody_plain (commandQueue : list string) (i : nat) (cmd : string) :
  cmd ≠ "LOOP2" → expandBody commandQueue i cmd = [mkStep i cmd].
Proof.
  intros Hne. unfold expandBody.
  destruct (String.eqb_spec cmd "LOOP2"); [done|].
  destruct (String.eqb_spec cmd "IFBLUE_R"); [by subst|].
  destruct (String.eqb_spec cmd "IFBLUE_L"); [by subst|done].
Qed.

(** X3. A queue without "LOOP2" is expanded command by command: step [i] is
    the command at index [i], tagged [i]. *)
Theorem expand_without_repeat (commandQueue : list string) :
  "LOOP2" ∉ commandQueue →
  expandCommandsForExecution commandQueue = imap mkStep commandQueue.
Proof.
  intros Hno. rewrite expand_imap, <- (concat_imap_singleton mkStep). f_equal.
  apply imap_ext. intros i cmd Hcmd.
  apply expandBody_plain.
  intros ->. apply Hno. by apply list_elem_of_lookup_2 in Hcmd.
Qed.

Lemma expand_without_repeat_witness :
  expandCommandsForExecution ["F"; "IFBLUE_L"; "R"; "F"]
  = imap mkStep ["F"; "IFBLUE_L"; "R"; "F"].
Proof.
  apply (expand_without_repeat ["F"; "IFBLUE_L"; "R"; "F"]).
  intros H. repeat (apply elem_of_cons in H as [H|H]; [discriminate|]).
  by apply elem_of_nil in H.
Defined.

(** X4. Expansion distributes over appending queues, as long as the first
    queue does not end in "LOOP2" (whose lookahead would reach into the
    second): the second part expands as it does alone, with its tags moved
    up by the length of the first. *)
Theorem expand_app (queue1 queue2 : list string) :
  last queue1 ≠ Some "LOOP2" →
  expandCommandsForExecution (queue1 ++ queue2)
  = expandCommandsForExecution queue1
    ++ (shiftStep (length queue1) <$> expandCommandsForExecution queue2).
Proof.
  intros Hlast. rewrite !expand_imap, imap_app, concat_app. f_equal.
  - f_equal. apply imap_ext. intros i cmd Hcmd. unfold expandBody.
    destruct (String.eqb_spec cmd "LOOP2") as [->|_]; [|done].
    assert (Hi : (i + 1 < length queue1)%nat).
    { pose proof (lookup_lt_Some _ _ _ Hcmd).
      destruct (decide (i + 1 < length queue1)%nat); [done|].
      exfalso. apply Hlast. rewrite last_lookup.
      replace (pred (length queue1)) with i by lia. done. }
    by rewrite lookup_app_l.
  - rewrite <- concat_imap_fmap. f_equal. apply imap_ext.
    intros j cmd _. unfold expandBody.
    replace (length queue1 + j + 1)%nat with (length queue1 + (j + 1))%nat by lia.
    rewrite lookup_app_r by lia.
    replace (length queue1 + (j + 1) - length queue1)%nat with (j + 1)%nat by lia.
    repeat case_match; done.
Qed.

Lemma expand_app_witness :
  expandCommandsForExecution (["LOOP2"; "F"] ++ ["L"; "LOOP2"])
  = expandCommandsForExecution ["LOOP2"; "F"]
    ++ (shiftStep 2 <$> expandCommandsForExecution ["L"; "LOOP2"]).
Proof. apply (expand_app ["LOOP2"; "F"] ["L"; "LOOP2"]). discriminate. Defined.

(** X5. Where every step comes from: a step tagged [i] carries the command
    at index [i] itself, or, when that command is "LOOP2", the command at
    index [i + 1], or "NOOP" when the "LOOP2" has no (non-empty) follower.
    The expander invents no other action. *)
Theorem expand_step_origin (commandQueue : list string) (s : Step) :
  s ∈ expandCommandsForExecution commandQueue →
  (commandQueue !! fromIndex s = Some (action s) ∧ action s ≠ "LOOP2")
  ∨ (commandQueue !! fromIndex s = Some "LOOP2"
     ∧ commandQueue !! S (fromIndex s) = Some (action s)
     ∧ action s ≠ "")
  ∨ (commandQueue !! fromIndex s = Some "LOOP2"
     ∧ action s = "NOOP"
     ∧ (commandQueue !! S (fromIndex s) = None
        ∨ commandQueue !! S (fromIndex s) = Some "")).
Proof.
  rewrite expand_imap. intros (i & cmd & Hcmd & Hs)%elem_of_concat_imap.
  revert Hs. unfold expandBody.
  replace (i + 1)%nat with (S i) by lia.
  destruct (String.eqb_spec cmd "LOOP2") as [->|Hnl].
  - destruct (commandQueue !! S i) as [next|] eqn:Hnext.
    + destruct (String.eqb_spec next "") as [->|Hne].
      * intros ->%list_elem_of_singleton. simpl. right. right.
        rewrite Hnext. eauto.
      * intros Hs. right. left.
        assert (s = mkStep i next) as ->.
        { apply elem_of_cons in Hs as [->|Hs]; [done|].
          by apply list_elem_of_singleton in Hs. }
        simpl. by rewrite Hnext.
    + intros ->%list_elem_of_singleton. simpl. right. right.
      rewrite Hnext. eauto.
  - destruct (String.eqb_spec cmd "IFBLUE_R") as [->|_];
      [intros ->%list_elem_of_singleton; by left|].
    destruct (String.eqb_spec cmd "IFBLUE_L") as [->|_];
      [intros ->%list_elem_of_singleton; by left|].
    intros ->%list_elem_of_singleton. by left.
Qed.

Lemma expand_step_origin_witness :
  (["F"; "LOOP2"; "R"] !! 1%nat = Some "R" ∧ "R" ≠ "LOOP2")
  ∨ (["F"; "LOOP2"; "R"] !! 1%nat = Some "LOOP2"
     ∧ ["F"; "LOOP2"; "R"] !! 2%nat = Some "R"
     ∧ "R" ≠ "")
  ∨ (["F"; "LOOP2"; "R"] !! 1%nat = Some "LOOP2"
     ∧ "R" = "NOOP"
     ∧ (["F"; "LOOP2"; "R"] !! 2%nat = None
        ∨ ["F"; "LOOP2"; "R"] !! 2%nat = Some "")).
Proof.
  apply (expand_step_origin ["F"; "LOOP2"; "R"] (mkStep 1 "R")).
  apply list_elem_of_further, list_elem_of_here.
Defined.

(** ** Step interpreter, as a whole *)

(** X6. Only a forward step can stop a run. When [performStep] returns
    [false], the action is "F", and either the agent is where it was and the
    failure overlay is up, or the agent has moved onto a "goal" cell and the
    success overlay is up. *)
Theorem performStep_stops_only_on_forward (w w' : World) (step : Step) :
  performStep w step = Returned w' false →
  action step = "F"
  ∧ ((agentState w' = agentState w ∧ showsFailure w')
     ∨ (gridGet (grid w) (agent_x (agentState w')) (agent_y (agentState w'))
        = Some (Some "goal")
        ∧ showsSuccess w')).
Proof.
  unfold performStep. destruct step as [i type]. simpl.
  destruct (String.eqb_spec type "NOOP") as [->|_]; [done|].
  destruct (String.eqb_spec type "NOOP_COND") as [->|_]; [done|]. simpl.
  destruct (String.eqb_spec type "IFBLUE_R") as [->|_];
    [by repeat case_match|].
  destruct (String.eqb_spec type "IFBLUE_L") as [->|_];
    [by repeat case_match|].
  destruct (String.eqb_spec type "L") as [->|_]; [done|].
  destruct (String.eqb_spec type "R") as [->|_]; [done|].
  destruct (String.eqb_spec type "F") as [->|_]; [|done].
  destruct (index DIRS _) as [dirInfo|]; [|done].
  destruct (_ || _); [intros [= <-]; split; [done|by left]|].
  destruct (gridGet _ _ _) as [cellType|] eqn:Hcell; [|done].
  destruct (strictEq cellType "wall");
    [intros [= <-]; split; [done|by left]|].
  destruct (strictEq cellType "goal") eqn:Hgoal; [|done].
  intros [= <-]. split; [done|]. right. simpl. split; [|done].
  rewrite Hcell. destruct cellType as [c|]; [|done]. simpl in Hgoal.
  by destruct (String.eqb_spec c "goal") as [->|].
Qed.

Lemma performStep_stops_only_on_forward_witness :
  action (mkStep 0 "F") = "F"
  ∧ ((agentState (showFailOverlay
                    (updateStatus (sampleWorld (mkAgent 0 1 1) [])
                       MSG_HIT_WALL))
      = agentState (sampleWorld (mkAgent 0 1 1) [])
      ∧ showsFailure (showFailOverlay
                        (updateStatus (sampleWorld (mkAgent 0 1 1) [])
                           MSG_HIT_WALL)))
     ∨ (gridGet sampleGrid 0 1 = Some (Some "goal")
        ∧ showsSuccess (showFailOverlay
                          (updateStatus (sampleWorld (mkAgent 0 1 1) [])
                             MSG_HIT_WALL)))).
Proof.
  apply (performStep_stops_only_on_forward
           (sampleWorld (mkAgent 0 1 1) [])
           (showFailOverlay
              (updateStatus (sampleWorld (mkAgent 0 1 1) []) MSG_HIT_WALL))
           (mkStep 0 "F")).
  reflexivity.
Defined.

(** X7. The third case of a forward step: when the candidate cell is on the
    board and holds neither "wall" nor "goal" (an "empty" or a "blue" cell),
    the agent moves onto it, keeps its heading, the step returns [true], and
    the view (status text, overlays) is not touched. *)
Theorem forward_moves (w : World) (i : nat) (dirInfo : Dir) (cell : string) :
  index DIRS (agent_dir (agentState w)) = Some dirInfo →
  let nextX := agent_x (agentState w) + dx dirInfo in
  let nextY := agent_y (agentState w) + dy dirInfo in
  0 ≤ nextX < GRID_SIZE →
  0 ≤ nextY < GRID_SIZE →
  gridGet (grid w) nextX nextY = Some (Some cell) →
  cell ≠ "wall" → cell ≠ "goal" →
  ∃ w',
    performStep w (mkStep i "F") = Returned w' true
    ∧ agentState w' = mkAgent nextX nextY (agent_dir (agentState w))
    ∧ statusText w' = statusText w
    ∧ overlaySuccessHidden w' = overlaySuccessHidden w
    ∧ overlayFailHidden w' = overlayFailHidden w.
Proof.
  intros Hdir nextX nextY Hx Hy Hcell Hnw Hng.
  unfold performStep. simpl. rewrite Hdir. fold nextX nextY.
  assert (Hb : (nextX <? 0) || (nextX >=? GRID_SIZE)
               || (nextY <? 0) || (nextY >=? GRID_SIZE) = false).
  { unfold GRID_SIZE in *. lia. }
  rewrite Hb, Hcell. simpl.
  destruct (String.eqb_spec cell "wall"); [done|].
  destruct (String.eqb_spec cell "goal"); [done|].
  eexists. split; [reflexivity|]. done.
Qed.

Lemma forward_moves_witness :
  ∃ w',
    performStep (sampleWorld (mkAgent 1 0 1) []) (mkStep 0 "F")
    = Returned w' true
    ∧ agentState w' = mkAgent 2 0 1.
Proof.
  destruct (forward_moves (sampleWorld (mkAgent 1 0 1) []) 0 (mkDir 1 0 90)
              "blue" eq_refl)
    as (w' & Hp & Ha & _); try done; try (unfold GRID_SIZE; simpl; lia).
  by exists w'.
Defined.

(** X8. Turns undo each other: for a heading of 0..3, a right turn followed
    by a left turn, a left turn followed by a right turn, and four right
    turns in a row each give back the very same globals. *)
Theorem turns_cancel (w : World) (i : nat) :
  0 ≤ agent_dir (agentState w) < 4 →
  (∃ w1, performStep w (mkStep i "R") = Returned w1 true
         ∧ performStep w1 (mkStep i "L") = Returned w true)
  ∧ (∃ w1, performStep w (mkStep i "L") = Returned w1 true
           ∧ performStep w1 (mkStep i "R") = Returned w true)
  ∧ (∃ w1 w2 w3,
       performStep w (mkStep i "R") = Returned w1 true
       ∧ performStep w1 (mkStep i "R") = Returned w2 true
       ∧ performStep w2 (mkStep i "R") = Returned w3 true
       ∧ performStep w3 (mkStep i "R") = Returned w true).
Proof.
  destruct w as [g sp gp [x y d] q run hl st os ofl]. simpl. intros Hd.
  assert (Ed : d = 0 ∨ d = 1 ∨ d = 2 ∨ d = 3) by lia.
  split_and!.
  - eexists. split; [reflexivity|].
    destruct Ed as [->|[->|[->| ->]]]; reflexivity.
  - eexists. split; [reflexivity|].
    destruct Ed as [->|[->|[->| ->]]]; reflexivity.
  - eexists _, _, _. split_and!; [reflexivity..|].
    destruct Ed as [->|[->|[->| ->]]]; reflexivity.
Qed.

Lemma turns_cancel_witness :
  ∃ w1, performStep (sampleWorld (mkAgent 2 1 3) []) (mkStep 0 "R")
        = Returned w1 true
        ∧ performStep w1 (mkStep 0 "L")
          = Returned (sampleWorld (mkAgent 2 1 3) []) true.
Proof.
  apply (turns_cancel (sampleWorld (mkAgent 2 1 3) []) 0). simpl. lia.
Defined.

(** ** Runs, as a whole *)

Lemma performStep_keeps (w : World) (step : Step) :
  let w' := worldAfter (performStep w step) in
  grid w' = grid w ∧ startPos w' = startPos w ∧ goalPos w' = goalPos w
  ∧ commandQueue w' = commandQueue w ∧ isRunning w' = isRunning w.
Proof.
  unfold performStep. destruct step as [i type]. simpl.
  repeat case_match; simpl; done.
Qed.

Lemma endExecutionCheck_keeps (w : World) :
  grid (endExecutionCheck w) = grid w
  ∧ startPos (endExecutionCheck w) = startPos w
  ∧ goalPos (endExecutionCheck w) = goalPos w
  ∧ commandQueue (endExecutionCheck w) = commandQueue w
  ∧ agentState (endExecutionCheck w) = agentState w.
Proof. unfold endExecutionCheck. by case_match. Qed.

Lemma tick_keeps (steps : list Step) (w : World) (i : nat) :
  let w' := worldOf (tick steps w i) in
  grid w' = grid w ∧ startPos w' = startPos w ∧ goalPos w' = goalPos w
  ∧ commandQueue w' = commandQueue w.
Proof.
  unfold tick. destruct (steps !! i) as [step|]; simpl.
  - pose proof (performStep_keeps
                  (setQueueHighlight w (Some (fromIndex step))) step) as Hk.
    destruct (performStep _ step) as [w1 [|]|w1]; simpl in *;
      try (pose proof (endExecutionCheck_keeps w1));
      destruct_and!; split_and!; congruence.
  - pose proof (endExecutionCheck_keeps w). destruct_and!. by split_and!.
Qed.

Lemma runTicks_keeps (steps : list Step) (ticks : nat) (s : RunState) :
  let w' := worldOf (runTicks steps ticks s) in
  grid w' = grid (worldOf s) ∧ startPos w' = startPos (worldOf s)
  ∧ goalPos w' = goalPos (worldOf s)
  ∧ commandQueue w' = commandQueue (worldOf s).
Proof.
  revert s. induction ticks as [|ticks IH]; intros s; simpl; [done|].
  destruct s as [w i|w i|w i|w]; simpl; try done.
  pose proof (tick_keeps steps w i) as Ht.
  pose proof (IH (tick steps w i)) as Hr. simpl in *.
  destruct_and!; split_and!; congruence.
Qed.

(** X11. A run never edits the puzzle: whatever the queue, the state of the
    run and the number of ticks, the grid, the start cell, the goal cell and
    the command queue are the ones the run started with. *)
Theorem run_keeps_puzzle (w : World) (ticks : nat) :
  let w' := worldOf (startExecution w ticks) in
  grid w' = grid w ∧ startPos w' = startPos w ∧ goalPos w' = goalPos w
  ∧ commandQueue w' = commandQueue w.
Proof.
  destruct (startExecution_shape w) as [[_ Hno] | Hshape]; simpl.
  - by rewrite Hno.
  - rewrite Hshape.
    pose proof (runTicks_keeps (expandCommandsForExecution (commandQueue w))
                  ticks (TimerArmed (resetAgentToStart
                     (setQueueHighlight
                        (updateStatus (set_isRunning w true) MSG_STARTING)
                        None)) 0)) as Hk.
    exact Hk.
Qed.

Lemma runTicks_cleared_by_check (steps : list Step) (ticks : nat) (w : World)
    (i : nat) (wEnd : World) (k : nat) :
  runTicks steps ticks (TimerArmed w i) = TimerCleared wEnd k →
  ∃ w0, wEnd = endExecutionCheck w0.
Proof.
  revert w i. induction ticks as [|ticks IH]; intros w i; simpl; [done|].
  unfold tick. destruct (steps !! i) as [step|].
  - destruct (performStep _ step) as [w1 [|]|w1]; simpl.
    + apply IH.
    + rewrite runTicks_cleared. intros [= <- _]. by eexists.
    + by destruct ticks.
  - rewrite runTicks_cleared. intros [= <- _]. by eexists.
Qed.

(** X10. The verdict a finished run leaves on the screen is decided by the
    position alone: whether it was stopped by a forward step or ran out of
    steps, the success overlay is up exactly when the agent stands on
    [goalPos], and the failure overlay exactly when it does not. The run
    flag and the queue highlight are cleared. *)
Theorem run_verdict_is_position (w : World) (ticks : nat) (wEnd : World)
    (consumed : nat) :
  startExecution w ticks = TimerCleared wEnd consumed →
  (showsSuccess wEnd ↔ atGoal wEnd)
  ∧ (showsFailure wEnd ↔ ¬ atGoal wEnd)
  ∧ isRunning wEnd = false
  ∧ currentHighlightIndex wEnd = None.
Proof.
  intros Hrun.
  assert (Hcheck : ∃ w0, wEnd = endExecutionCheck w0).
  { destruct (startExecution_shape w) as [[_ Hno] | Hshape].
    - by rewrite Hno in Hrun.
    - rewrite Hshape in Hrun. by eapply runTicks_cleared_by_check. }
  destruct Hcheck as [w0 ->]. clear Hrun.
  pose proof (endExecutionCheck_verdict w0) as [Hyes Hno].
  pose proof (endExecutionCheck_keeps w0) as (_ & _ & Hg & _ & Ha).
  assert (Hat : atGoal (endExecutionCheck w0) ↔ atGoal w0).
  { unfold atGoal. by rewrite Hg, Ha. }
  rewrite Hat.
  assert (Hdec : atGoal w0 ∨ ¬ atGoal w0).
  { unfold atGoal. lia. }
  split_and!.
  - split; [|intros Hy; by destruct (Hyes Hy)].
    intros [Hs _]. destruct Hdec as [|Hn]; [done|].
    destruct (Hno Hn) as [[Hs' _] _]. congruence.
  - split; [|intros Hn; by destruct (Hno Hn)].
    intros [Hs _] Hy. destruct (Hyes Hy) as [[Hs' _] _]. congruence.
  - unfold endExecutionCheck. by case_match.
  - unfold endExecutionCheck. by case_match.
Qed.

Lemma run_verdict_is_position_witness :
  ∃ wEnd,
    startExecution (sampleWorld (mkAgent 0 0 1) ["R"; "F"; "F"]) 4
    = TimerCleared wEnd 3
    ∧ (showsFailure wEnd ↔ ¬ atGoal wEnd).
Proof.
  eexists. split; [vm_compute; reflexivity|].
  eapply (run_verdict_is_position
            (sampleWorld (mkAgent 0 0 1) ["R"; "F"; "F"]) 4).
  vm_compute. reflexivity.
Defined.

Lemma runTicks_on_board (steps : list Step) (ticks : nat) (w : World)
    (i : nat) :
  squareGrid (grid w) → agentOnBoard (agentState w) →
  agentOnBoard (agentState (worldOf (runTicks steps ticks (TimerArmed w i))))
  ∧ ∀ w' k, runTicks steps ticks (TimerArmed w i) ≠ TimerThrowing w' k.
Proof.
  revert w i. induction ticks as [|ticks IH]; intros w i Hsq Hon; simpl;
    [done|].
  unfold tick. destruct (steps !! i) as [step|].
  - destruct (performStep_returns (setQueueHighlight w (Some (fromIndex step)))
                step Hsq Hon) as (w1 & continueRun & -> & Hg & Hon1).
    destruct continueRun; simpl.
    + apply IH; [by rewrite Hg|done].
    + rewrite runTicks_cleared. simpl.
      by destruct (endExecutionCheck_keeps w1) as (_ & _ & _ & _ & ->).
  - rewrite runTicks_cleared. simpl.
    by destruct (endExecutionCheck_keeps w) as (_ & _ & _ & _ & ->).
Qed.

(** X9. On a square grid with the start cell on the board, a run of a
    non-empty queue never throws and never leaves the board, at any tick;
    and one tick after as many ticks as there are steps it is over for
    good: the timer is cleared, at least one and at most all steps were
    consumed, and later ticks change nothing. *)
Theorem run_always_ends (w : World) :
  squareGrid (grid w) →
  0 ≤ pos_x (startPos w) < GRID_SIZE →
  0 ≤ pos_y (startPos w) < GRID_SIZE →
  commandQueue w ≠ [] →
  let steps := expandCommandsForExecution (commandQueue w) in
  (∀ ticks,
     agentOnBoard (agentState (worldOf (startExecution w ticks)))
     ∧ ∀ w' k, startExecution w ticks ≠ TimerThrowing w' k)
  ∧ ∃ wEnd consumed,
      (∀ extra, startExecution w (S (length steps) + extra)
                = TimerCleared wEnd consumed)
      ∧ (0 < consumed ≤ length steps)%nat.
Proof.
  intros Hsq Hx Hy Hq steps.
  destruct (startExecution_shape w) as [[Hnil _] | Hshape].
  { exfalso. destruct (commandQueue w) as [|cmd q]; [done|].
    by apply (expand_nonempty cmd q). }
  split.
  - intros ticks. rewrite Hshape. apply runTicks_on_board; [done|].
    split_and!; simpl; try done; lia.
  - destruct (startExecution_finishes w Hsq Hx Hy Hq)
      as (wEnd & consumed & Hrun & Hk & _).
    exists wEnd, consumed. split; [|done].
    intros extra. rewrite Hshape in *. fold steps in Hrun |- *.
    by rewrite runTicks_add, Hrun, runTicks_cleared.
Qed.

Lemma run_always_ends_witness :
  ∃ wEnd consumed,
    (∀ extra,
       startExecution (sampleWorld (mkAgent 3 3 0) ["F"; "LOOP2"; "F"])
         (S 4 + extra)
       = TimerCleared wEnd consumed)
    ∧ (0 < consumed ≤ 4)%nat.
Proof.
  apply (run_always_ends (sampleWorld (mkAgent 3 3 0) ["F"; "LOOP2"; "F"])).
  - split; [reflexivity|]. repeat constructor.
  - unfold GRID_SIZE. simpl. lia.
  - unfold GRID_SIZE. simpl. lia.
  - discriminate.
Defined.

Lemma runTicks_armed_running (steps : list Step) (ticks : nat) (w : World)
    (i : nat) (w' : World) (i' : nat) :
  isRunning w = true →
  runTicks steps ticks (TimerArmed w i) = TimerArmed w' i' →
  isRunning w' = true.
Proof.
  revert w i. induction ticks as [|ticks IH]; intros w i Hrun; simpl.
  { by intros [= <- _]. }
  unfold tick. destruct (steps !! i) as [step|].
  - pose proof (performStep_keeps
                  (setQueueHighlight w (Some (fromIndex step))) step) as Hk.
    destruct (performStep _ step) as [w1 [|]|w1]; simpl in *.
    + apply IH. destruct_and!. congruence.
    + by rewrite runTicks_cleared.
    + by destruct ticks.
  - by rewrite runTicks_cleared.
Qed.

(** ** Button handlers *)

(** X12. While a run's timer is armed the run flag is set, and every button
    that edits the queue or the map, and the run button itself, does
    nothing: the globals stay exactly as they are. *)
Theorem buttons_inert_during_run (rnd : nat → nat) (fuel : nat) (w : World)
    (ticks : nat) (w' : World) (stepIndex : nat) :
  startExecution w ticks = TimerArmed w' stepIndex →
  isRunning w' = true
  ∧ (∀ cmd, clickCommand w' cmd = w')
  ∧ clickUndo w' = w'
  ∧ clickClear w' = w'
  ∧ (∀ n, clickRun w' n = NoTimer w')
  ∧ (∀ c, clickResetMap rnd fuel w' c = Some (w', c)).
Proof.
  intros Hrun.
  assert (Hflag : isRunning w' = true).
  { destruct (startExecution_shape w) as [[_ Hno] | Hshape].
    - by rewrite Hno in Hrun.
    - rewrite Hshape in Hrun.
      by eapply runTicks_armed_running in Hrun. }
  unfold clickCommand, clickUndo, clickClear, clickRun, clickResetMap.
  rewrite Hflag. by split_and!.
Qed.

Lemma buttons_inert_during_run_witness :
  ∃ w',
    startExecution (sampleWorld (mkAgent 0 0 1) ["F"; "F"]) 1
    = TimerArmed w' 1
    ∧ isRunning w' = true
    ∧ clickUndo w' = w'.
Proof.
  eexists. split; [vm_compute; reflexivity|].
  destruct (buttons_inert_during_run (λ _, 0%nat) 100
              (sampleWorld (mkAgent 0 0 1) ["F"; "F"]) 1
              (mkWorld sampleGrid (mkPos 0 0) (mkPos 4 3) (mkAgent 1 0 1)
                 ["F"; "F"] true (Some 0%nat) MSG_STARTING true true) 1)
    as (Hflag & _ & Hundo & _); [vm_compute; reflexivity|].
  by split.
Defined.

(** X13. Between runs, a click on a command button appends the command, and
    Undo takes it away again: together they give back the very same
    globals. Undo on an empty queue changes nothing. *)
Theorem undo_after_command (w : World) (cmd : string) :
  isRunning w = false →
  commandQueue (clickCommand w cmd) = commandQueue w ++ [cmd]
  ∧ clickUndo (clickCommand w cmd) = w
  ∧ (commandQueue w = [] → clickUndo w = w).
Proof.
  intros Hflag. unfold clickUndo, clickCommand. rewrite Hflag. simpl.
  rewrite Hflag. destruct w as [g sp gp a q run hl st os ofl].
  unfold set_commandQueue. simpl in *. split; [done|]. split.
  - by rewrite removelast_last.
  - by intros ->.
Qed.

Lemma undo_after_command_witness :
  clickUndo (clickCommand (sampleWorld (mkAgent 0 0 1) ["F"]) "LOOP2")
  = sampleWorld (mkAgent 0 0 1) ["F"].
Proof.
  apply (undo_after_command (sampleWorld (mkAgent 0 0 1) ["F"]) "LOOP2").
  reflexivity.
Defined.

(** X14. The Run button starts a run exactly when the queue is not empty.
    On an empty queue no timer is set and only the status text changes; on
    a non-empty queue the timer is always armed, with the run flag set and
    the agent put back on the start cell heading right, so that the "no
    valid steps" exit inside [startExecution] is never taken from the
    button. *)
Theorem run_button_starts_iff_queue (w : World) :
  isRunning w = false →
  (commandQueue w = [] →
   ∀ ticks, clickRun w ticks = NoTimer (updateStatus w MSG_EMPTY_QUEUE))
  ∧ (commandQueue w ≠ [] →
     ∃ w0, clickRun w 0 = TimerArmed w0 0
       ∧ isRunning w0 = true
       ∧ agentState w0
         = mkAgent (pos_x (startPos w)) (pos_y (startPos w)) 1
       ∧ grid w0 = grid w ∧ commandQueue w0 = commandQueue w).
Proof.
  intros Hflag. unfold clickRun. rewrite Hflag. split.
  - by intros ->.
  - intros Hq. destruct (commandQueue w) as [|cmd q] eqn:Hcq; [done|].
    destruct (startExecution_shape w) as [[Hnil _] | Hshape].
    { exfalso. rewrite Hcq in Hnil. by apply (expand_nonempty cmd q). }
    rewrite Hshape. simpl. eexists. split; [reflexivity|]. by simpl.
Qed.

Lemma run_button_starts_iff_queue_witness :
  ∃ w0, clickRun (sampleWorld (mkAgent 2 2 0) ["F"; "L"]) 0 = TimerArmed w0 0
    ∧ isRunning w0 = true
    ∧ agentState w0 = mkAgent 0 0 1.
Proof.
  destruct (run_button_starts_iff_queue (sampleWorld (mkAgent 2 2 0) ["F"; "L"])
              eq_refl) as [_ Hrun].
  destruct (Hrun ltac:(discriminate)) as (w0 & H0 & Hf & Ha & _).
  by exists w0.
Defined.

(** ** Map generator, in detail *)

Lemma swap_Permutation (l : list Pos) (i j : nat) : swap l i j ≡ₚ l.
Proof.
  unfold swap. destruct (l !! i) as [vi|] eqn:Hi; [|done].
  destruct (l !! j) as [vj|] eqn:Hj; [|done].
  by apply Permutation_insert_swap.
Qed.

(** X15. [shuffleArray] returns a permutation of its argument: the same
    elements, each as often as before. It draws one random number per
    element but the first. *)
Theorem shuffleArray_Permutation (rnd : nat → nat) (array : list Pos)
    (c : nat) :
  (shuffleArray rnd array c).1 ≡ₚ array
  ∧ (shuffleArray rnd array c).2 = (c + (length array - 1))%nat.
Proof.
  unfold shuffleArray. generalize (length array - 1)%nat as i. intros i.
  revert array c. induction i as [|i IH]; intros array c; simpl.
  - split; [done|lia].
  - destruct (IH (swap array (S i)
                    (Z.to_nat (randomFloorTimes rnd (Z.of_nat (S i) + 1) c)))
                (S c)) as [Hp Hc].
    split; [|lia]. rewrite Hp. apply swap_Permutation.
Qed.

Lemma onBoard_boardCells (p : Pos) : onBoard p → p ∈ boardCells.
Proof.
  destruct p as [x y]. unfold onBoard, GRID_SIZE. simpl. intros [Hx Hy].
  assert (Ex : x = 0 ∨ x = 1 ∨ x = 2 ∨ x = 3 ∨ x = 4) by lia.
  assert (Ey : y = 0 ∨ y = 1 ∨ y = 2 ∨ y = 3 ∨ y = 4) by lia.
  clear Hx Hy.
  destruct Ex as [->|[->|[->|[->| ->]]]];
    destruct Ey as [->|[->|[->|[->| ->]]]];
    apply (bool_decide_unpack _); vm_compute; exact I.
Qed.

Lemma solutionPathsCheck_board :
  forallb (λ start, forallb (solutionPathsCheck start) boardCells) boardCells
  = true.
Proof. vm_compute. reflexivity. Qed.

Lemma shortestWalkCheck_generated (rnd : nat → nat) (fuel : nat)
    (start goal : Pos) (c : nat) :
  (4 ≤ fuel)%nat → onBoard start → onBoard goal →
  ∃ path,
    generateSolutionPath rnd fuel start goal c = Some (path, S c)
    ∧ shortestWalkCheck start goal path = true.
Proof.
  intros Hfuel Hs Hg.
  pose proof solutionPathsCheck_board as Hall.
  rewrite forallb_forall in Hall.
  specialize (Hall start (proj1 (list_elem_of_In _ _) (onBoard_boardCells _ Hs))).
  rewrite forallb_forall in Hall.
  specialize (Hall goal (proj1 (list_elem_of_In _ _) (onBoard_boardCells _ Hg))).
  unfold solutionPathsCheck in Hall. rewrite forallb_forall in Hall.
  specialize (Hall (randomGtHalf rnd c)).
  unfold generateSolutionPath.
  destruct (wayPoints start goal (randomGtHalf rnd c)) as [wp|].
  2:{ exfalso. destruct (randomGtHalf rnd c);
        (assert (false = true) as Hf; [apply Hall; simpl; tauto|done]). }
  simpl.
  destruct (expandSegments 4 wp []) as [expandedPath|] eqn:He.
  2:{ exfalso. destruct (randomGtHalf rnd c);
        (assert (false = true) as Hf; [apply Hall; simpl; tauto|done]). }
  rewrite (expandSegments_fuel 4 fuel _ _ _ He Hfuel). simpl.
  destruct goal as [gx gy]. simpl in *. eexists. split; [reflexivity|].
  apply Hall. destruct (randomGtHalf rnd c); simpl; tauto.
Qed.

(** X16. For any start and goal cell on the board and either choice of the
    first axis, [generateSolutionPath] returns (with fuel 4 or more) a walk
    that begins on the start, ends on the goal, moves one cell along one
    axis at a time, stays on the board, visits no cell twice and is as
    short as the Manhattan distance allows. [findCorners] finds at most one
    corner on it, exactly one when start and goal differ in both
    coordinates; a corner is a cell of the walk other than its two ends. *)
Theorem generateSolutionPath_shortest (rnd : nat → nat) (fuel : nat)
    (start goal : Pos) (c : nat) :
  (4 ≤ fuel)%nat → onBoard start → onBoard goal →
  ∃ path,
    generateSolutionPath rnd fuel start goal c = Some (path, S c)
    ∧ head path = Some start
    ∧ last path = Some goal
    ∧ stepwise path = true
    ∧ Forall onBoard path
    ∧ NoDup path
    ∧ Z.of_nat (length path) = manhattan start goal + 1
    ∧ (length (findCorners path) ≤ 1)%nat
    ∧ (pos_x start ≠ pos_x goal ∧ pos_y start ≠ pos_y goal →
       length (findCorners path) = 1%nat)
    ∧ (∀ corner, corner ∈ findCorners path →
         corner ∈ path ∧ corner ≠ start ∧ corner ≠ goal).
Proof.
  intros Hfuel Hs Hg.
  destruct (shortestWalkCheck_generated rnd fuel start goal c Hfuel Hs Hg)
    as (path & Hpath & Hcheck).
  exists path. split; [done|].
  unfold shortestWalkCheck in Hcheck.
  repeat (apply andb_prop in Hcheck as [Hcheck ?]).
  repeat match goal with
         | H : bool_decide _ = true |- _ => apply bool_decide_eq_true in H
         end.
  split_and!; try done.
  - by apply forallb_onBoard.
  - intros corner Hc.
    match goal with
    | H : forallb _ (findCorners path) = true |- _ =>
        rewrite forallb_forall in H;
        specialize (H corner (proj1 (list_elem_of_In _ _) Hc));
        apply andb_prop in H as [H Hng]; apply andb_prop in H as [Hin Hns]
    end.
    by repeat match goal with
         | H : bool_decide _ = true |- _ => apply bool_decide_eq_true in H
         end.
Qed.

Lemma generateSolutionPath_shortest_witness :
  ∃ path,
    generateSolutionPath (λ _, 1%nat) 4 (mkPos 4 1) (mkPos 1 3) 0
    = Some (path, 1%nat)
    ∧ head path = Some (mkPos 4 1)
    ∧ last path = Some (mkPos 1 3)
    ∧ NoDup path
    ∧ Z.of_nat (length path) = 6.
Proof.
  destruct (generateSolutionPath_shortest (λ _, 1%nat) 4 (mkPos 4 1)
              (mkPos 1 3) 0)
    as (path & Hp & Hh & Hl & _ & _ & Hnd & Hlen & _);
    [lia | unfold onBoard, GRID_SIZE; simpl; lia
     | unfold onBoard, GRID_SIZE; simpl; lia |].
  exists path. by split_and!.
Defined.

(** Membership in the list of the four cell kinds. *)
Local Ltac in_kinds :=
  repeat first [apply list_elem_of_here | apply list_elem_of_further].

Lemma goalLoop_calls (rnd : nat → nat) (fuel : nat) (startPos : Pos)
    (attempts : Z) (c : nat) (goal : Pos) (attempts' : Z) (c' : nat) :
  goalLoop rnd fuel startPos attempts c = Some (goal, attempts', c') →
  Z.of_nat c' = Z.of_nat c + 2 * (attempts' - attempts).
Proof.
  revert attempts c. induction fuel as [|fuel IH]; intros attempts c; [done|].
  cbn [goalLoop]. unfold randInt.
  destruct (attempts + 1 >? 50); [intros [= _ <- <-]; lia|].
  destruct (_ || _); [|intros [= _ <- <-]; lia].
  intros Hrec. apply IH in Hrec. lia.
Qed.

(** The grid right after the goal is written, cell by cell. *)
Lemma goal_written_cells (goal : Pos) :
  onBoard goal →
  ∃ g, gridSet (replicate (Z.to_nat GRID_SIZE)
                  (replicate (Z.to_nat GRID_SIZE) "empty"))
         (pos_x goal) (pos_y goal) "goal" = Some g
    ∧ squareGrid g
    ∧ (∀ x y, gridGet g (pos_x goal) (pos_y goal) = Some (Some "goal")
              ∧ (¬ (x = pos_x goal ∧ y = pos_y goal) →
                 0 ≤ x < GRID_SIZE → 0 ≤ y < GRID_SIZE →
                 gridGet g x y = Some (Some "empty")))
    ∧ cellsAreKinds g
    ∧ countCells "blue" g = 0%nat
    ∧ countCells "wall" g = 0%nat.
Proof.
  intros [Hx Hy].
  set (g0 := replicate (Z.to_nat GRID_SIZE)
               (replicate (Z.to_nat GRID_SIZE) "empty")).
  assert (Hsq : squareGrid g0).
  { split; [apply length_replicate|].
    apply Forall_replicate. apply length_replicate. }
  destruct (squareGrid_gridSet g0 _ _ "goal" Hsq Hx Hy)
    as (g & Hset & Hsq' & Hread).
  destruct (squareGrid_gridGet g0 _ _ Hsq Hx Hy) as [old Hold].
  pose proof (emptyGrid_reads _ _ _ Hold) as ->.
  pose proof (countCells_gridSet "blue" g0 g _ _ "empty" "goal" Hold Hset)
    as Hcb.
  pose proof (countCells_gridSet "wall" g0 g _ _ "empty" "goal" Hold Hset)
    as Hcw.
  change (countCells "blue" g0) with 0%nat in Hcb.
  change (countCells "wall" g0) with 0%nat in Hcw.
  rewrite !decide_False in Hcb by done. rewrite !decide_False in Hcw by done.
  exists g. split_and!; try done; try lia.
  - intros x y. split.
    + rewrite Hread. by rewrite decide_True.
    + intros Hne Hx' Hy'. rewrite Hread, decide_False by done.
      destruct (squareGrid_gridGet g0 x y Hsq Hx' Hy') as [cell Hcell].
      by rewrite Hcell, (emptyGrid_reads _ _ _ Hcell).
  - intros x y cell. rewrite Hread. case_decide.
    + intros [= <-]. in_kinds.
    + intros ->%emptyGrid_reads. in_kinds.
Qed.

Section WallAccounting.

Variable rnd : nat → nat.
Variables (pathCells : gset string) (startPos goalPos : Pos) (wallCount : Z).

(** The wall loop, with its counters: every wall placed is written over an
    "empty" cell and counted; the loop leaves when the count is reached or
    after its 100th round, two random draws per round. *)
Lemma wallLoop_accounting (fuel : nat) (g : Grid)
    (placedWalls wallAttempts : Z) (c : nat) (blue : nat) :
  0 ≤ wallAttempts ≤ 100 → 100 - wallAttempts ≤ Z.of_nat fuel →
  placedWalls ≤ wallCount →
  squareGrid g → cellsAreKinds g →
  Z.of_nat (countCells "wall" g) = placedWalls →
  countCells "blue" g = blue →
  ∃ g' placedWalls' wallAttempts' c',
    wallLoop rnd fuel pathCells startPos goalPos wallCount g
      placedWalls wallAttempts c
    = Some (g', placedWalls', wallAttempts', c')
    ∧ squareGrid g' ∧ cellsAreKinds g'
    ∧ Z.of_nat (countCells "wall" g') = placedWalls'
    ∧ countCells "blue" g' = blue
    ∧ (∀ x y, gridGet g' x y = Some (Some "blue")
              ↔ gridGet g x y = Some (Some "blue"))
    ∧ placedWalls ≤ placedWalls' ≤ wallCount
    ∧ wallAttempts ≤ wallAttempts' ≤ 100
    ∧ (placedWalls' = wallCount ∨ wallAttempts' = 100)
    ∧ Z.of_nat c' = Z.of_nat c + 2 * (wallAttempts' - wallAttempts).
Proof.
  revert g placedWalls wallAttempts c.
  induction fuel as [|fuel IH];
    intros g placedWalls wallAttempts c Ha Hf Hp Hsq Hkinds Hwall Hblue.
  { simpl. destruct ((placedWalls <? wallCount) && (wallAttempts <? 100))
      eqn:Hcond; [lia|].
    eexists _, _, _, _. split; [reflexivity|]. split_and!; try done; lia. }
  cbn [wallLoop].
  destruct ((placedWalls <? wallCount) && (wallAttempts <? 100)) eqn:Hcond.
  2:{ eexists _, _, _, _. split; [reflexivity|]. split_and!; try done; lia. }
  destruct (randInt rnd 0 (GRID_SIZE - 1) c) as [x c1] eqn:Hrx.
  destruct (randInt rnd 0 (GRID_SIZE - 1) c1) as [y c2] eqn:Hry.
  pose proof (randInt_range rnd 0 (GRID_SIZE - 1) c ltac:(done)) as [Hx Hc1].
  pose proof (randInt_range rnd 0 (GRID_SIZE - 1) c1 ltac:(done)) as [Hy Hc2].
  rewrite Hrx in Hx, Hc1. rewrite Hry in Hy, Hc2. simpl in Hx, Hy, Hc1, Hc2.
  assert (Hx' : 0 ≤ x < GRID_SIZE) by (unfold GRID_SIZE in *; lia).
  assert (Hy' : 0 ≤ y < GRID_SIZE) by (unfold GRID_SIZE in *; lia).
  assert (Hskip :
    ∃ g' placedWalls' wallAttempts' c',
      wallLoop rnd fuel pathCells startPos goalPos wallCount g
        placedWalls (wallAttempts + 1) c2
      = Some (g', placedWalls', wallAttempts', c')
      ∧ squareGrid g' ∧ cellsAreKinds g'
      ∧ Z.of_nat (countCells "wall" g') = placedWalls'
      ∧ countCells "blue" g' = blue
      ∧ (∀ x y, gridGet g' x y = Some (Some "blue")
                ↔ gridGet g x y = Some (Some "blue"))
      ∧ placedWalls ≤ placedWalls' ≤ wallCount
      ∧ wallAttempts ≤ wallAttempts' ≤ 100
      ∧ (placedWalls' = wallCount ∨ wallAttempts' = 100)
      ∧ Z.of_nat c' = Z.of_nat c + 2 * (wallAttempts' - wallAttempts)).
  { destruct (IH g placedWalls (wallAttempts + 1) c2)
      as (g' & p' & a' & c' & Hl & ? & ? & ? & ? & ? & ? & ? & ? & Hc');
      try done; try lia.
    eexists _, _, _, _. split; [exact Hl|]. split_and!; try done; lia. }
  destruct (negb (bool_decide (cellKey x y ∈ pathCells))
            && negb ((x =? pos_x startPos) && (y =? pos_y startPos))
            && negb ((x =? pos_x goalPos) && (y =? pos_y goalPos)));
    [|exact Hskip].
  destruct (squareGrid_gridGet g x y Hsq Hx' Hy') as [cell Hcell].
  rewrite Hcell. simpl.
  destruct (String.eqb_spec cell "empty") as [->|_]; [|exact Hskip].
  clear Hskip.
  destruct (squareGrid_gridSet g x y "wall" Hsq Hx' Hy')
    as (g1 & Hset & Hsq1 & Hread).
  rewrite Hset. simpl.
  pose proof (countCells_gridSet "wall" g g1 x y "empty" "wall" Hcell Hset)
    as Hcw.
  pose proof (countCells_gridSet "blue" g g1 x y "empty" "wall" Hcell Hset)
    as Hcb.
  rewrite decide_False, decide_True in Hcw by done.
  rewrite !decide_False in Hcb by done.
  destruct (IH g1 (placedWalls + 1) (wallAttempts + 1) c2)
    as (g' & p' & a' & c' & Hl & ? & ? & ? & ? & Hb' & ? & ? & ? & Hc');
    try done; try lia.
  { intros x' y' cell'. rewrite Hread. case_decide; [|apply Hkinds].
    intros [= <-]. in_kinds. }
  eexists _, _, _, _. split; [exact Hl|]. split_and!; try done; try lia.
  intros x' y'. rewrite Hb', Hread. case_decide as Hxy; [|done].
  destruct Hxy as [-> ->]. rewrite Hcell. split; intros [=].
Qed.

End WallAccounting.

(** Blue cells: the corners of a walk with at most one corner, none of them
    the start or the goal, are all selected and all written. *)
Lemma placeBlue_corners (rnd : nat → nat) (goal : Pos) (g1 : Grid)
    (path corners : list Pos) (r : Z) (c : nat) :
  1 ≤ r →
  (length corners ≤ 1)%nat →
  Forall onBoard corners →
  (∀ corner, corner ∈ corners → corner ≠ mkPos 0 0 ∧ corner ≠ goal) →
  squareGrid g1 →
  (∀ x y, ¬ (x = pos_x goal ∧ y = pos_y goal) →
          0 ≤ x < GRID_SIZE → 0 ≤ y < GRID_SIZE →
          gridGet g1 x y = Some (Some "empty")) →
  gridGet g1 (pos_x goal) (pos_y goal) = Some (Some "goal") →
  cellsAreKinds g1 →
  countCells "blue" g1 = 0%nat → countCells "wall" g1 = 0%nat →
  shuffleArray rnd corners c = (corners, c)
  ∧ take (Z.to_nat (Z.min r (Z.of_nat (length corners)))) corners = corners
  ∧ ∃ g2,
      placeBlue corners (mkPos 0 0) goal g1 = Some g2
      ∧ squareGrid g2 ∧ cellsAreKinds g2
      ∧ countCells "blue" g2 = length corners
      ∧ countCells "wall" g2 = 0%nat
      ∧ ∀ x y, gridGet g2 x y = Some (Some "blue") ↔ mkPos x y ∈ corners.
Proof.
  intros Hr Hlen Hon Hends Hsq Hempty Hgoal Hkinds Hb Hw.
  assert (Hnoblue : ∀ x y, gridGet g1 x y ≠ Some (Some "blue")).
  { intros x y Hblue.
    destruct (decide (x = pos_x goal ∧ y = pos_y goal)) as [[-> ->]|Hne].
    { rewrite Hgoal in Hblue. discriminate. }
    assert (Hxy : 0 ≤ x < GRID_SIZE ∧ 0 ≤ y < GRID_SIZE).
    { unfold gridGet in Hblue.
      destruct (index g1 y) as [row|] eqn:Hrow; [|done].
      injection Hblue as Hcell.
      pose proof (index_Some _ _ _ Hrow) as Hy.
      pose proof (index_Some _ _ _ Hcell) as Hx.
      destruct Hsq as [Hl Hrows]. rewrite Hl in Hy.
      unfold index in Hrow. case_bool_decide; [|done].
      rewrite (Forall_lookup_1 _ _ _ _ Hrows Hrow) in Hx. lia. }
    destruct Hxy as [Hx Hy]. rewrite (Hempty x y Hne Hx Hy) in Hblue.
    discriminate. }
  destruct corners as [|p [|q rest]]; [| |simpl in Hlen; lia].
  - split; [done|]. split; [apply take_nil|]. exists g1. simpl.
    split_and!; try done. intros x y. split; [|by intros ?%elem_of_nil].
    intros Hblue. by apply Hnoblue in Hblue.
  - split; [done|]. split.
    { change (length [p]) with 1%nat.
      replace (Z.to_nat (r `min` Z.of_nat 1)) with 1%nat by lia. done. }
    apply Forall_cons in Hon as [[Hx Hy] _].
    destruct (Hends p ltac:(apply list_elem_of_here)) as [Hns Hng].
    assert (Hnsxy : ¬ (pos_x p = 0 ∧ pos_y p = 0)).
    { intros [? ?]. apply Hns. destruct p. simpl in *. by subst. }
    assert (Hngxy : ¬ (pos_x p = pos_x goal ∧ pos_y p = pos_y goal)).
    { intros [? ?]. apply Hng. destruct p, goal. simpl in *. by subst. }
    simpl.
    assert (Hguard : negb ((pos_x p =? 0) && (pos_y p =? 0))
                     && negb ((pos_x p =? pos_x goal)
                              && (pos_y p =? pos_y goal)) = true) by lia.
    rewrite Hguard.
    destruct (squareGrid_gridSet g1 (pos_x p) (pos_y p) "blue" Hsq Hx Hy)
      as (g2 & Hset & Hsq2 & Hread).
    rewrite Hset. simpl. exists g2.
    pose proof (Hempty _ _ Hngxy Hx Hy) as Hold.
    pose proof (countCells_gridSet "blue" g1 g2 _ _ "empty" "blue" Hold Hset)
      as Hcb.
    pose proof (countCells_gridSet "wall" g1 g2 _ _ "empty" "blue" Hold Hset)
      as Hcw.
    rewrite decide_False, decide_True in Hcb by done.
    rewrite !decide_False in Hcw by done.
    split_and!; try done; try lia.
    + intros x y cell. rewrite Hread.
      destruct (decide (x = pos_x p ∧ y = pos_y p)); [|apply Hkinds].
      intros [= <-]. in_kinds.
    + intros x y. rewrite Hread, list_elem_of_singleton.
      destruct (decide (x = pos_x p ∧ y = pos_y p)) as [[-> ->]|Hne].
      * split; [|done]. intros _. by destruct p.
      * split; [intros Hblue; by apply Hnoblue in Hblue|].
        intros Heq. exfalso. apply Hne. by rewrite <- Heq.
Qed.

(** The generator step by step, with its counters (compare
    [generateRandomMap_runs], which follows the cells of the solution
    path). *)
Lemma generateRandomMap_accounting (rnd : nat → nat) (fuel : nat) (w : World)
    (c : nat) :
  (100 ≤ fuel)%nat →
  ∃ r,
    generateRandomMap rnd fuel w c = Some r
    ∧ squareGrid (grid (gen_world r))
    ∧ cellsAreKinds (grid (gen_world r))
    ∧ onBoard (goalPos (gen_world r))
    ∧ shortestWalkCheck (mkPos 0 0) (goalPos (gen_world r))
        (gen_solutionPath r) = true
    ∧ gen_corners r = findCorners (gen_solutionPath r)
    ∧ gen_selectedCorners r = gen_corners r
    ∧ countCells "blue" (grid (gen_world r)) = length (gen_corners r)
    ∧ (∀ x y, gridGet (grid (gen_world r)) x y = Some (Some "blue")
              ↔ mkPos x y ∈ gen_corners r)
    ∧ 3 ≤ gen_wallCount r ≤ 5
    ∧ Z.of_nat (countCells "wall" (grid (gen_world r))) = gen_placedWalls r
    ∧ 0 ≤ gen_placedWalls r ≤ gen_wallCount r
    ∧ 0 ≤ gen_wallAttempts r ≤ 100
    ∧ (gen_placedWalls r = gen_wallCount r ∨ gen_wallAttempts r = 100)
    ∧ 1 ≤ gen_attempts r ≤ 51
    ∧ (gen_attempts r ≤ 50 →
       6 ≤ manhattan (mkPos 0 0) (goalPos (gen_world r)))
    ∧ Z.of_nat (gen_calls r)
      = Z.of_nat c + 2 * gen_attempts r + 3 + 2 * gen_wallAttempts r
    ∧ startPos (gen_world r) = mkPos 0 0
    ∧ agentState (gen_world r) = mkAgent 0 0 (agent_dir (agentState w))
    ∧ commandQueue (gen_world r) = commandQueue w
    ∧ isRunning (gen_world r) = isRunning w
    ∧ currentHighlightIndex (gen_world r) = currentHighlightIndex w
    ∧ statusText (gen_world r) = statusText w
    ∧ overlaySuccessHidden (gen_world r) = overlaySuccessHidden w
    ∧ overlayFailHidden (gen_world r) = overlayFailHidden w.
Proof.
  intros Hfuel. unfold generateRandomMap.
  destruct (goalLoop_ends rnd fuel (mkPos 0 0) 0 c)
    as (goal & attempts & c1 & Hgl & Hon & Hatt & Hfar); [lia | lia |].
  rewrite Hgl. apply goalLoop_calls in Hgl.
  cbn [mbind option_bind].
  destruct (goal_written_cells goal Hon)
    as (g1 & -> & Hsq1 & Hcells1 & Hkinds1 & Hb1 & Hw1).
  cbn [mbind option_bind].
  destruct (shortestWalkCheck_generated rnd fuel (mkPos 0 0) goal c1)
    as (solutionPath & -> & Hwalk); [lia | by unfold onBoard, GRID_SIZE | done |].
  cbn [mbind option_bind].
  pose proof Hwalk as Hcheck. unfold shortestWalkCheck in Hcheck.
  repeat (apply andb_prop in Hcheck as [Hcheck ?]).
  repeat match goal with
         | H : bool_decide _ = true |- _ => apply bool_decide_eq_true in H
         end.
  assert (Hcorners : ∀ corner, corner ∈ findCorners solutionPath →
            corner ∈ solutionPath ∧ corner ≠ mkPos 0 0 ∧ corner ≠ goal).
  { intros corner Hc.
    match goal with
    | H : forallb _ (findCorners solutionPath) = true |- _ =>
        rewrite forallb_forall in H;
        specialize (H corner (proj1 (list_elem_of_In _ _) Hc));
        apply andb_prop in H as [H Hng]; apply andb_prop in H as [Hin Hns]
    end.
    by repeat match goal with
         | H : bool_decide _ = true |- _ => apply bool_decide_eq_true in H
         end. }
  assert (Hpath : Forall onBoard solutionPath) by by apply forallb_onBoard.
  destruct (randInt rnd 1 2 (S c1)) as [r c2] eqn:Hr.
  pose proof (randInt_range rnd 1 2 (S c1) ltac:(done)) as [Hrr Hc2].
  rewrite Hr in Hrr, Hc2. simpl in Hrr, Hc2.
  destruct (placeBlue_corners rnd goal g1 solutionPath
              (findCorners solutionPath) r c2)
    as (-> & -> & g2 & -> & Hsq2 & Hkinds2 & Hb2 & Hw2 & Hblue2);
    try done; try lia.
  { rewrite Forall_forall in Hpath. apply Forall_forall.
    intros corner Hc. apply Hpath. by apply Hcorners. }
  { intros corner Hc. by destruct (Hcorners corner Hc) as (_ & ? & ?). }
  { intros x y. apply (Hcells1 x y). }
  { apply (Hcells1 0 0). }
  cbn [mbind option_bind].
  destruct (randInt rnd 3 5 c2) as [wallCount c4] eqn:Hwc.
  pose proof (randInt_range rnd 3 5 c2 ltac:(done)) as [Hwr Hc4].
  rewrite Hwc in Hwr, Hc4. simpl in Hwr, Hc4.
  destruct (wallLoop_accounting rnd (addPathCells solutionPath) (mkPos 0 0)
              goal wallCount fuel g2 0 0 c4 (length (findCorners solutionPath)))
    as (g3 & placed & tried & c5 & -> & Hsq3 & Hkinds3 & Hw3 & Hb3 & Hblue3
        & Hplaced & Htried & Hdone & Hc5);
    try done; try lia.
  cbn [mbind option_bind].
  eexists. split; [reflexivity|]. cbn.
  split_and!; try done; try lia.
  - intros x y. by rewrite Hblue3, Hblue2.
  - intros Hin. destruct (Hfar Hin) as [_ Hd]. unfold manhattan. simpl in *.
    lia.
Qed.

(** X17. Blue cells of a generated map. The "blue" cells are exactly the
    corners that [findCorners] finds on the solution path: there is at most
    one, it lies on the solution path and is neither the start nor the goal.
    There is exactly one whenever the goal loop ended within its bound of 50
    attempts (the goal then differs from the start in both coordinates). *)
Theorem generateRandomMap_blue (rnd : nat → nat) (fuel : nat) (w : World)
    (c : nat) :
  (100 ≤ fuel)%nat →
  ∃ r,
    generateRandomMap rnd fuel w c = Some r
    ∧ (∀ x y, gridGet (grid (gen_world r)) x y = Some (Some "blue")
              ↔ mkPos x y ∈ findCorners (gen_solutionPath r))
    ∧ countCells "blue" (grid (gen_world r))
      = length (findCorners (gen_solutionPath r))
    ∧ (countCells "blue" (grid (gen_world r)) ≤ 1)%nat
    ∧ (gen_attempts r ≤ 50 → countCells "blue" (grid (gen_world r)) = 1%nat)
    ∧ (∀ x y, gridGet (grid (gen_world r)) x y = Some (Some "blue") →
         mkPos x y ∈ gen_solutionPath r
         ∧ mkPos x y ≠ startPos (gen_world r)
         ∧ mkPos x y ≠ goalPos (gen_world r)).
Proof.
  intros Hfuel.
  destruct (generateRandomMap_accounting rnd fuel w c Hfuel)
    as (r & Hr & _ & _ & Hon & Hwalk & Hco & _ & Hcount & Hblue & _ & _ & _
        & _ & _ & _ & Hfar & _ & Hstart & _).
  exists r. rewrite Hco in *. rewrite Hstart. clear Hco.
  unfold shortestWalkCheck in Hwalk.
  repeat (apply andb_prop in Hwalk as [Hwalk ?]).
  repeat match goal with
         | H : bool_decide _ = true |- _ => apply bool_decide_eq_true in H
         end.
  split_and!; try done.
  - lia.
  - intros Hin. specialize (Hfar Hin). rewrite Hcount.
    match goal with H : _ → length _ = 1%nat |- _ => apply H end.
    destruct Hon as [Hx Hy]. unfold manhattan, GRID_SIZE in *. simpl in *.
    lia.
  - intros x y Hb. apply Hblue in Hb.
    match goal with
    | H : forallb _ (findCorners _) = true |- _ =>
        rewrite forallb_forall in H;
        specialize (H _ (proj1 (list_elem_of_In _ _) Hb));
        apply andb_prop in H as [H Hng]; apply andb_prop in H as [Hin Hns]
    end.
    by repeat match goal with
         | H : bool_decide _ = true |- _ => apply bool_decide_eq_true in H
         end.
Qed.

Lemma generateRandomMap_blue_witness :
  ∃ r,
    generateRandomMap (λ n, (n * 7 + 3)%nat) 100
      (sampleWorld (mkAgent 0 0 1) []) 0 = Some r
    ∧ (countCells "blue" (grid (gen_world r)) ≤ 1)%nat
    ∧ (gen_attempts r ≤ 50 → countCells "blue" (grid (gen_world r)) = 1%nat).
Proof.
  destruct (generateRandomMap_blue (λ n, (n * 7 + 3)%nat) 100
              (sampleWorld (mkAgent 0 0 1) []) 0)
    as (r & Hr & _ & _ & Hle & Hone & _); [lia|].
  by exists r.
Defined.

(** X18. Walls of a generated map. The target count is 3, 4 or 5; the number
    of "wall" cells is the number of walls the loop counted, never more than
    the target, and it falls short of the target only when all 100 attempts
    were used. *)
Theorem generateRandomMap_walls (rnd : nat → nat) (fuel : nat) (w : World)
    (c : nat) :
  (100 ≤ fuel)%nat →
  ∃ r,
    generateRandomMap rnd fuel w c = Some r
    ∧ 3 ≤ gen_wallCount r ≤ 5
    ∧ Z.of_nat (countCells "wall" (grid (gen_world r))) = gen_placedWalls r
    ∧ gen_placedWalls r ≤ gen_wallCount r
    ∧ 0 ≤ gen_wallAttempts r ≤ 100
    ∧ (gen_placedWalls r < gen_wallCount r → gen_wallAttempts r = 100).
Proof.
  intros Hfuel.
  destruct (generateRandomMap_accounting rnd fuel w c Hfuel)
    as (r & Hr & _ & _ & _ & _ & _ & _ & _ & _ & Hwc & Hcount & Hle & Htried
        & Hdone & _).
  exists r. split_and!; try done; lia.
Qed.

Lemma generateRandomMap_walls_witness :
  ∃ r,
    generateRandomMap (λ n, (n * 7 + 3)%nat) 100
      (sampleWorld (mkAgent 0 0 1) []) 0 = Some r
    ∧ 3 ≤ gen_wallCount r ≤ 5
    ∧ Z.of_nat (countCells "wall" (grid (gen_world r))) = gen_placedWalls r.
Proof.
  destruct (generateRandomMap_walls (λ n, (n * 7 + 3)%nat) 100
              (sampleWorld (mkAgent 0 0 1) []) 0)
    as (r & Hr & Hwc & Hcount & _); [lia|].
  by exists r.
Defined.

(** X19. The generator always comes to an end: whatever the random source,
    it returns after two draws per goal attempt (at most 51), one draw for
    the first axis of the path, one for the number of blue cells, one for
    the number of walls and two per wall attempt (at most 100), that is
    after at most 305 calls of [Math.random]. *)
Theorem generateRandomMap_draws (rnd : nat → nat) (fuel : nat) (w : World)
    (c : nat) :
  (100 ≤ fuel)%nat →
  ∃ r,
    generateRandomMap rnd fuel w c = Some r
    ∧ Z.of_nat (gen_calls r)
      = Z.of_nat c + 2 * gen_attempts r + 3 + 2 * gen_wallAttempts r
    ∧ 1 ≤ gen_attempts r ≤ 51
    ∧ 0 ≤ gen_wallAttempts r ≤ 100
    ∧ (gen_calls r ≤ c + 305)%nat.
Proof.
  intros Hfuel.
  destruct (generateRandomMap_accounting rnd fuel w c Hfuel)
    as (r & Hr & _ & _ & _ & _ & _ & _ & _ & _ & _ & _ & _ & Htried
        & _ & Hatt & _ & Hcalls & _).
  exists r. split_and!; try done; lia.
Qed.

Lemma generateRandomMap_draws_witness :
  ∃ r,
    generateRandomMap (λ _, 0%nat) 100 (sampleWorld (mkAgent 0 0 1) []) 0
    = Some r
    ∧ (gen_calls r ≤ 0 + 305)%nat.
Proof.
  destruct (generateRandomMap_draws (λ _, 0%nat) 100
              (sampleWorld (mkAgent 0 0 1) []) 0)
    as (r & Hr & _ & _ & _ & Hle); [lia|].
  by exists r.
Defined.

(** ** Every generated map can be solved *)

Lemma drop_actions_cons (steps : list Step) (i : nat) (a : string)
    (rest : list string) :
  action <$> drop i steps = a :: rest →
  ∃ s, steps !! i = Some s ∧ action s = a
       ∧ action <$> drop (S i) steps = rest.
Proof.
  destruct (drop i steps) as [|s l] eqn:Hdrop; [done|].
  intros [= Ha Hrest]. exists s.
  assert (Hs : steps !! i = Some s).
  { rewrite <- (Nat.add_0_r i), <- lookup_drop, Hdrop. done. }
  split; [done|]. split; [done|].
  rewrite (drop_S _ _ _ Hs) in Hdrop. injection Hdrop as <-. done.
Qed.

(** [k] right turns in a row. *)
Lemma run_right_turns (k : nat) (steps : list Step) (w : World) (i : nat)
    (rest : list string) :
  action <$> drop i steps = replicate k "R" ++ rest →
  0 ≤ agent_dir (agentState w) < 4 →
  ∃ w',
    runTicks steps k (TimerArmed w i) = TimerArmed w' (i + k)
    ∧ action <$> drop (i + k) steps = rest
    ∧ grid w' = grid w ∧ goalPos w' = goalPos w
    ∧ agentState w'
      = mkAgent (agent_x (agentState w)) (agent_y (agentState w))
          ((agent_dir (agentState w) + Z.of_nat k) `mod` 4).
Proof.
  revert w i. induction k as [|k IH]; intros w i Hacts Hd.
  - exists w. rewrite Nat.add_0_r, Z.add_0_r, Z.mod_small by lia.
    split_and!; try done. by destruct (agentState w).
  - simpl in Hacts.
    apply drop_actions_cons in Hacts as ([idx act] & Hs & Hact & Hacts).
    simpl in Hact. subst act.
    cbn [runTicks]. unfold tick. rewrite Hs.
    change (performStep (setQueueHighlight w (Some (fromIndex (mkStep idx "R"))))
              (mkStep idx "R"))
      with (Returned (set_agent_dir (setQueueHighlight w (Some idx))
                        ((agent_dir (agentState w) + 1) `rem` 4)) true).
    cbn [negb].
    destruct (IH (set_agent_dir (setQueueHighlight w (Some idx))
                    ((agent_dir (agentState w) + 1) `rem` 4)) (S i) Hacts)
      as (w' & Hrun & Hrest & Hg & Hgp & Ha).
    { simpl. apply Z.rem_bound_pos; lia. }
    exists w'. replace (i + S k)%nat with (S i + k)%nat by lia.
    split_and!; try done. rewrite Ha. simpl. f_equal.
    rewrite Z.rem_mod_nonneg by lia.
    rewrite Zplus_mod_idemp_l. f_equal. lia.
Qed.

Lemma headingOf_DIRS (p q : Pos) :
  Z.abs (pos_x q - pos_x p) + Z.abs (pos_y q - pos_y p) = 1 →
  0 ≤ headingOf p q < 4
  ∧ ∃ dirInfo,
      index DIRS (headingOf p q) = Some dirInfo
      ∧ pos_x p + dx dirInfo = pos_x q
      ∧ pos_y p + dy dirInfo = pos_y q.
Proof.
  intros Hstep. unfold headingOf.
  destruct (Z.eqb_spec (pos_x q - pos_x p) 1);
    [split; [lia|]; eexists; split; [reflexivity|]; simpl; lia|].
  destruct (Z.eqb_spec (pos_x q - pos_x p) (-1));
    [split; [lia|]; eexists; split; [reflexivity|]; simpl; lia|].
  destruct (Z.eqb_spec (pos_y q - pos_y p) 1);
    [split; [lia|]; eexists; split; [reflexivity|]; simpl; lia|].
  split; [lia|]. eexists. split; [reflexivity|]. simpl. lia.
Qed.

(** A forward step onto a cell of the board that is not a wall. *)
Lemma performStep_forward (w : World) (idx : nat) (dirInfo : Dir)
    (cell : string) :
  index DIRS (agent_dir (agentState w)) = Some dirInfo →
  let nextX := agent_x (agentState w) + dx dirInfo in
  let nextY := agent_y (agentState w) + dy dirInfo in
  0 ≤ nextX < GRID_SIZE → 0 ≤ nextY < GRID_SIZE →
  gridGet (grid w) nextX nextY = Some (Some cell) →
  cell ≠ "wall" →
  performStep w (mkStep idx "F")
  = let moved := set_agent_y (set_agent_x w nextX) nextY in
    if String.eqb cell "goal"
    then Returned (showSuccessOverlay (updateStatus moved MSG_REACHED_GOAL))
           false
    else Returned moved true.
Proof.
  intros Hdir nextX nextY Hx Hy Hcell Hnw.
  unfold performStep. simpl. rewrite Hdir. fold nextX nextY.
  assert (Hb : (nextX <? 0) || (nextX >=? GRID_SIZE)
               || (nextY <? 0) || (nextY >=? GRID_SIZE) = false).
  { unfold GRID_SIZE in *. lia. }
  rewrite Hb, Hcell. simpl.
  by destruct (String.eqb_spec cell "wall").
Qed.

(** Following [route] along a walk whose cells are free of walls and whose
    last cell is the only goal cell ends the run on the goal. *)
Lemma route_runs (cells : list Pos) :
  ∀ (p : Pos) (h : Z) (w : World) (i : nat) (steps : list Step),
    cells ≠ [] →
    action <$> drop i steps = route (p :: cells) h →
    agentState w = mkAgent (pos_x p) (pos_y p) h →
    0 ≤ h < 4 →
    stepwise (p :: cells) = true →
    squareGrid (grid w) →
    Forall onBoard cells →
    Forall (λ q, gridGet (grid w) (pos_x q) (pos_y q) ≠ Some (Some "wall"))
      cells →
    Forall (λ q, gridGet (grid w) (pos_x q) (pos_y q) = Some (Some "goal") →
                 q = goalPos w) cells →
    NoDup cells →
    last cells = Some (goalPos w) →
    gridGet (grid w) (pos_x (goalPos w)) (pos_y (goalPos w))
    = Some (Some "goal") →
    ∃ wEnd,
      runTicks steps (length (route (p :: cells) h)) (TimerArmed w i)
      = TimerCleared wEnd (i + length (route (p :: cells) h))
      ∧ atGoal wEnd ∧ showsSuccess wEnd
      ∧ statusText wEnd = MSG_REACHED_GOAL.
Proof.
  induction cells as [|q cells IH];
    intros p h w i steps Hne Hacts Hagent Hh Hwalk Hsq Hon Hclear Honly Hnd
      Hlast Hgoal; [done|].
  cbn [route] in *. cbn [stepwise] in Hwalk.
  apply andb_prop in Hwalk as [Hpq Hwalk]. apply Z.eqb_eq in Hpq.
  destruct (headingOf_DIRS p q Hpq) as (Hh' & dirInfo & Hdir & Hdx & Hdy).
  set (h' := headingOf p q) in *.
  set (k := Z.to_nat ((h' - h) `mod` 4)) in *.
  assert (Hk : (h + Z.of_nat k) `mod` 4 = h').
  { unfold k. rewrite Z2Nat.id by (apply Z.mod_pos_bound; lia).
    rewrite Zplus_mod_idemp_r. replace (h + (h' - h)) with h' by lia.
    apply Z.mod_small. lia. }
  destruct (run_right_turns k steps w i _ Hacts) as
    (w1 & Hrun1 & Hacts1 & Hg1 & Hgp1 & Ha1).
  { rewrite Hagent. simpl. lia. }
  rewrite Hagent in Ha1. simpl in Ha1. rewrite Hk in Ha1.
  apply drop_actions_cons in Hacts1 as ([idx act] & Hs & Hact & Hacts2).
  simpl in Hact. subst act.
  rewrite length_app, length_replicate. cbn [length].
  rewrite runTicks_add, Hrun1. cbn [runTicks]. unfold tick. rewrite Hs.
  apply Forall_cons in Hon as [[Hqx Hqy] Hon].
  apply Forall_cons in Hclear as [Hqw Hclear].
  apply Forall_cons in Honly as [Hqg Honly].
  apply NoDup_cons in Hnd as [Hq_notin Hnd].
  destruct (squareGrid_gridGet (grid w) (pos_x q) (pos_y q) Hsq Hqx Hqy)
    as [cell Hcell].
  assert (Hcw : cell ≠ "wall").
  { intros ->. by apply Hqw. }
  set (wh := setQueueHighlight w1 (Some (fromIndex (mkStep idx "F")))).
  assert (Hstep : performStep wh (mkStep idx "F")
    = let moved := set_agent_y (set_agent_x wh (pos_x q)) (pos_y q) in
      if String.eqb cell "goal"
      then Returned (showSuccessOverlay (updateStatus moved MSG_REACHED_GOAL))
             false
      else Returned moved true).
  { pose proof (performStep_forward wh idx dirInfo cell) as Hf.
    unfold wh in Hf |- *. simpl in Hf |- *. rewrite Ha1 in Hf. simpl in Hf.
    rewrite Hdx, Hdy, Hg1 in Hf. by apply Hf. }
  rewrite Hstep. cbv zeta.
  destruct (String.eqb_spec cell "goal") as [->|Hcg].
  - (* the goal cell: the run stops here *)
    pose proof (Hqg Hcell) as Hq. cbn [negb].
    assert (Hcells : cells = []).
    { destruct cells as [|q' cells']; [done|]. exfalso. apply Hq_notin.
      rewrite Hq. apply last_Some_elem_of. by rewrite <- Hlast. }
    subst cells. cbn [route length]. rewrite runTicks_cleared.
    eexists. split; [f_equal; lia|].
    set (wS := showSuccessOverlay _).
    assert (Hat : atGoal wS).
    { unfold atGoal, wS, wh. simpl. rewrite Hgp1, <- Hq. done. }
    destruct (endExecutionCheck_verdict wS) as [Hyes _].
    destruct (endExecutionCheck_keeps wS) as (_ & _ & Hgp & _ & Ha).
    split; [|by apply Hyes].
    unfold atGoal. rewrite Hgp, Ha. exact Hat.
  - (* a free cell: go on from there *)
    cbn [negb].
    assert (Hcells : cells ≠ []).
    { intros ->. simpl in Hlast. injection Hlast as Hq.
      rewrite Hq in Hcell. rewrite Hgoal in Hcell. by injection Hcell. }
    destruct (IH q h' (set_agent_y (set_agent_x wh (pos_x q)) (pos_y q))
                (S (i + k)) steps Hcells Hacts2)
      as (wEnd & Hrun & Hend); try done.
    { unfold wh. simpl. by rewrite Ha1. }
    { unfold wh. simpl. by rewrite Hg1. }
    { unfold wh. simpl. by rewrite Hg1. }
    { unfold wh. simpl. by rewrite Hg1, Hgp1. }
    { unfold wh. simpl. rewrite Hgp1.
      destruct cells; [done|]. done. }
    { unfold wh. simpl. by rewrite Hg1, Hgp1. }
    exists wEnd. split; [|done]. rewrite Hrun. f_equal. lia.
Qed.

Lemma route_commands (path : list Pos) (h : Z) :
  Forall (λ cmd, cmd = "R" ∨ cmd = "F") (route path h).
Proof.
  revert h. induction path as [|p rest IH]; intros h; [constructor|].
  cbn [route]. destruct rest as [|q rest]; [constructor|].
  apply Forall_app. split.
  - apply Forall_replicate. by left.
  - apply Forall_cons. split; [by right|apply IH].
Qed.

Lemma fmap_action_imap (queue : list string) :
  action <$> imap mkStep queue = queue.
Proof.
  apply list_eq. intros i.
  rewrite list_lookup_fmap, list_lookup_imap.
  by destruct (queue !! i).
Qed.

(** X20. Every generated map can be solved. Whatever the random source,
    there is a non-empty queue of "R" and "F" commands (along the solution
    path) whose run on the generated map ends, for good, with the agent on
    the goal and the success overlay up. *)
Theorem generated_map_solvable (rnd : nat → nat) (fuel : nat) (w : World)
    (c : nat) :
  (100 ≤ fuel)%nat →
  ∃ r queue wEnd consumed,
    generateRandomMap rnd fuel w c = Some r
    ∧ queue ≠ []
    ∧ Forall (λ cmd, cmd = "R" ∨ cmd = "F") queue
    ∧ (∀ extra,
         startExecution (set_commandQueue (gen_world r) queue)
           (S (length (expandCommandsForExecution queue)) + extra)
         = TimerCleared wEnd consumed)
    ∧ atGoal wEnd ∧ showsSuccess wEnd
    ∧ statusText wEnd = MSG_REACHED_GOAL.
Proof.
  intros Hfuel.
  destruct (generateRandomMap_runs rnd fuel w c Hfuel)
    as (r & Hr & Hstart & Hon & Hgrid & Hwalk & Hclear & _).
  destruct (generateRandomMap_accounting rnd fuel w c Hfuel)
    as (r' & Hr' & _ & _ & _ & Hshort & _).
  rewrite Hr in Hr'. injection Hr' as <-.
  destruct Hgrid as (Hsq & _ & Hgoal & Honly & _).
  unfold walkCheck in Hwalk.
  apply andb_prop in Hwalk as [Hwalk _].
  apply andb_prop in Hwalk as [Hwalk Hlast].
  apply andb_prop in Hwalk as [Hwalk Hhead].
  apply andb_prop in Hwalk as [Hboard Hsteps].
  apply bool_decide_eq_true in Hlast, Hhead.
  apply forallb_onBoard in Hboard.
  unfold shortestWalkCheck in Hshort.
  do 4 (apply andb_prop in Hshort as [Hshort _]).
  apply andb_prop in Hshort as [_ Hnd]. apply bool_decide_eq_true in Hnd.
  destruct (gen_solutionPath r) as [|p0 cells] eqn:Hpath; [done|].
  injection Hhead as ->.
  exists r.
  destruct cells as [|q cells].
  - (* the goal is the start cell *)
    injection Hlast as Hg.
    exists ["R"]. eexists _, _. split; [done|]. split; [done|].
    split; [repeat constructor; by left|].
    split; [intros extra; cbn; rewrite runTicks_cleared; reflexivity|].
    set (wR := set_agent_dir _ _).
    assert (Hat : atGoal wR).
    { unfold atGoal, wR. simpl. by rewrite Hstart, <- Hg. }
    destruct (endExecutionCheck_verdict wR) as [Hyes _].
    destruct (endExecutionCheck_keeps wR) as (_ & _ & Hgp & _ & Ha).
    split; [|by apply Hyes]. unfold atGoal. by rewrite Hgp, Ha.
  - (* walk along the solution path *)
    set (queue := route (mkPos 0 0 :: q :: cells) 1).
    assert (Hcmds : Forall (λ cmd, cmd = "R" ∨ cmd = "F") queue)
      by apply route_commands.
    assert (Hplain : expandCommandsForExecution queue = imap mkStep queue).
    { rewrite expand_imap, <- (concat_imap_singleton mkStep). f_equal.
      apply imap_ext. intros j cmd Hcmd. apply expandBody_plain.
      intros ->. rewrite Forall_forall in Hcmds.
      by destruct (Hcmds _ (list_elem_of_lookup_2 _ _ _ Hcmd)). }
    assert (Hne : queue ≠ []).
    { unfold queue. cbn [route]. by destruct (replicate _ _). }
    set (wq := set_commandQueue (gen_world r) queue).
    destruct (route_runs (q :: cells) (mkPos 0 0) 1
                (resetAgentToStart
                   (setQueueHighlight
                      (updateStatus (set_isRunning wq true) MSG_STARTING)
                      None))
                0 (imap mkStep queue))
      as (wEnd & Hrun & Hat & Hshow & Htext); try done.
    + by rewrite drop_0, fmap_action_imap.
    + simpl. by rewrite Hstart.
    + by apply Forall_cons in Hboard as [_ ?].
    + apply Forall_forall. intros p Hp. apply Hclear.
      by apply list_elem_of_further.
    + apply Forall_forall. intros p Hp Hpg. simpl in *.
      destruct (Honly _ _ Hpg) as [Hx Hy].
      destruct p, (goalPos (gen_world r)). simpl in *. by subst.
    + by apply NoDup_cons in Hnd as [_ ?].
    + exists queue, wEnd, (length queue). split; [done|]. split; [done|].
      split; [done|]. split; [|done].
      intros extra.
      destruct (startExecution_shape wq) as [[Hnil _] | Hshape].
      { exfalso. unfold wq in Hnil. simpl in Hnil. rewrite Hplain in Hnil.
        destruct queue; [done|]. done. }
      rewrite Hshape. unfold wq at 1 2. simpl commandQueue.
      rewrite Hplain, length_imap.
      replace (S (length queue) + extra)%nat
        with (length queue + (S extra))%nat by lia.
      rewrite runTicks_add. fold queue in Hrun. simpl in Hrun.
      fold wq. rewrite Hrun. apply runTicks_cleared.
Qed.

Lemma generated_map_solvable_witness :
  ∃ r queue wEnd consumed,
    generateRandomMap (λ n, (n * 7 + 3)%nat) 100
      (sampleWorld (mkAgent 0 0 1) []) 0 = Some r
    ∧ queue ≠ []
    ∧ startExecution (set_commandQueue (gen_world r) queue)
        (S (length (expandCommandsForExecution queue)) + 0)
      = TimerCleared wEnd consumed
    ∧ atGoal wEnd ∧ showsSuccess wEnd.
Proof.
  destruct (generated_map_solvable (λ n, (n * 7 + 3)%nat) 100
              (sampleWorld (mkAgent 0 0 1) []) 0)
    as (r & queue & wEnd & consumed & Hr & Hq & _ & Hrun & Hat & Hs & _);
    [lia|].
  exists r, queue, wEnd, consumed. split_and!; try done; apply Hrun.
Defined.

(** ** Loading a map *)

Lemma generateRandomMap_ready (rnd : nat → nat) (fuel : nat) (w : World)
    (c : nat) :
  (100 ≤ fuel)%nat →
  ∃ r,
    generateRandomMap rnd fuel w c = Some r
    ∧ readyPuzzle (resetAgentToStart (gen_world r))
    ∧ commandQueue (gen_world r) = commandQueue w
    ∧ isRunning (gen_world r) = isRunning w
    ∧ overlaySuccessHidden (gen_world r) = overlaySuccessHidden w
    ∧ overlayFailHidden (gen_world r) = overlayFailHidden w.
Proof.
  intros Hfuel.
  destruct (generateRandomMap_runs rnd fuel w c Hfuel)
    as (r & Hr & Hstart & _ & Hgrid & _).
  destruct (generateRandomMap_accounting rnd fuel w c Hfuel)
    as (r' & Hr' & Hsq & Hkinds & _ & _ & _ & _ & _ & _ & _ & _ & _ & _ & _
        & _ & _ & _ & _ & _ & Hq & Hrun & _ & _ & Hos & Hof).
  rewrite Hr in Hr'. injection Hr' as <-.
  destruct Hgrid as (_ & Hcount & Hgoal & _).
  exists r. split; [done|]. split; [|done].
  unfold readyPuzzle. simpl. rewrite Hstart. done.
Qed.

(** X21. The three ways a map is loaded. [init], the Reset Map button
    (between runs) and the OK button of the success overlay always return
    (with fuel 100 or more) and leave a puzzle ready to be played: a square
    grid of the four kinds with one goal, the agent on (0, 0) heading
    right. [init] and Reset Map keep the command queue; OK empties it and
    hides the success overlay, and, unlike Reset Map, it does so whether or
    not a run is in progress, leaving the run flag as it is. *)
Theorem map_loaders_ready (rnd : nat → nat) (fuel : nat) (w : World)
    (c : nat) :
  (100 ≤ fuel)%nat →
  (∃ w' c', init rnd fuel w c = Some (w', c')
     ∧ readyPuzzle w'
     ∧ commandQueue w' = commandQueue w
     ∧ statusText w' = MSG_READY)
  ∧ (isRunning w = false →
     ∃ w' c', clickResetMap rnd fuel w c = Some (w', c')
       ∧ readyPuzzle w'
       ∧ commandQueue w' = commandQueue w
       ∧ statusText w' = MSG_MAP_RESET)
  ∧ (∃ w' c', clickSuccessOk rnd fuel w c = Some (w', c')
       ∧ readyPuzzle w'
       ∧ commandQueue w' = []
       ∧ overlaySuccessHidden w' = true
       ∧ isRunning w' = isRunning w
       ∧ statusText w' = MSG_NEW_MAP).
Proof.
  intros Hfuel. split_and!.
  - destruct (generateRandomMap_ready rnd fuel w c Hfuel)
      as (r & Hr & Hready & Hq & _).
    unfold init. rewrite Hr. simpl. eexists _, _. split; [reflexivity|].
    split_and!; try done.
  - intros Hflag.
    destruct (generateRandomMap_ready rnd fuel w c Hfuel)
      as (r & Hr & Hready & Hq & _).
    unfold clickResetMap. rewrite Hflag, Hr. simpl.
    eexists _, _. split; [reflexivity|]. split_and!; try done.
  - destruct (generateRandomMap_ready rnd fuel (hideSuccessOverlay w) c Hfuel)
      as (r & Hr & Hready & Hq & Hrun & Hos & _).
    unfold clickSuccessOk. rewrite Hr. simpl.
    eexists _, _. split; [reflexivity|]. split_and!; try done.
Qed.

Lemma map_loaders_ready_witness :
  ∃ w' c',
    init (λ n, (n * 7 + 3)%nat) 100 (sampleWorld (mkAgent 3 3 2) ["F"]) 0
    = Some (w', c')
    ∧ readyPuzzle w'
    ∧ commandQueue w' = ["F"].
Proof.
  destruct (map_loaders_ready (λ n, (n * 7 + 3)%nat) 100
              (sampleWorld (mkAgent 3 3 2) ["F"]) 0)
    as [(w' & c' & Hi & Hready & Hq & _) _]; [lia|].
  by exists w', c'.
Defined.

(** * The first version of the game *)

(** ** Its expander *)

Lemma expandLoopA_acc (commandQueue : list string) (fuel i : nat)
    (steps : list VariantA.Step) :
  VariantA.expandLoop commandQueue fuel i steps
  = steps ++ VariantA.expandLoop commandQueue fuel i [].
Proof.
  revert i steps. induction fuel as [|fuel IH]; intros i steps; simpl.
  - by rewrite app_nil_r.
  - destruct (commandQueue !! i) as [cmd|]; [|by rewrite app_nil_r].
    rewrite IH, (IH _ (VariantA.expandBody _ _ _)). by rewrite app_assoc.
Qed.

Lemma expandLoopA_imap (commandQueue rest : list string) (i : nat) :
  drop i commandQueue = rest →
  VariantA.expandLoop commandQueue (length rest) i []
  = concat (imap (λ j cmd, VariantA.expandBody commandQueue (i + j) cmd) rest).
Proof.
  revert i. induction rest as [|cmd rest IH]; intros i Hdrop; [done|].
  assert (Hcmd : commandQueue !! i = Some cmd).
  { rewrite <- (Nat.add_0_r i), <- lookup_drop, Hdrop. done. }
  assert (Hrest : drop (S i) commandQueue = rest).
  { rewrite (drop_S _ _ _ Hcmd) in Hdrop. by injection Hdrop. }
  simpl. rewrite Hcmd, expandLoopA_acc, (IH (S i) Hrest). simpl.
  rewrite Nat.add_0_r. f_equal. f_equal. apply imap_ext.
  intros j c _. simpl. f_equal. lia.
Qed.

Lemma expandA_imap (commandQueue : list string) :
  VariantA.expandCommandsForExecution commandQueue
  = concat (imap (VariantA.expandBody commandQueue) commandQueue).
Proof.
  unfold VariantA.expandCommandsForExecution.
  by rewrite (expandLoopA_imap commandQueue commandQueue 0 eq_refl).
Qed.

Lemma expandBodyA_fromIndex (commandQueue : list string) (i : nat)
    (cmd : string) :
  Forall (λ s, VariantA.fromIndex s = i)
    (VariantA.expandBody commandQueue i cmd).
Proof.
  unfold VariantA.expandBody. repeat case_match; repeat constructor.
Qed.

Lemma filter_tag_all (body : list VariantA.Step) (t : nat) :
  Forall (λ s, VariantA.fromIndex s = t) body →
  filter (λ s, VariantA.fromIndex s = t) body = body.
Proof.
  induction body as [|s body IH]; [done|].
  intros [Hs Hb]%Forall_cons. rewrite filter_cons, decide_True by done.
  f_equal. by apply IH.
Qed.

Lemma filter_tag_none (body : list VariantA.Step) (t u : nat) :
  t ≠ u →
  Forall (λ s, VariantA.fromIndex s = u) body →
  filter (λ s, VariantA.fromIndex s = t) body = [].
Proof.
  intros Hne. induction body as [|s body IH]; [done|].
  intros [Hs Hb]%Forall_cons. rewrite filter_cons, decide_False by lia.
  by apply IH.
Qed.

Lemma filter_tag_below {A} (f : nat → A → list VariantA.Step) (l : list A)
    (k t : nat) :
  (∀ j x, Forall (λ s, VariantA.fromIndex s = (k + j)%nat) (f j x)) →
  (t < k)%nat →
  filter (λ s, VariantA.fromIndex s = t) (concat (imap f l)) = [].
Proof.
  revert f k. induction l as [|x l IH]; intros f k Hf Ht; [done|].
  simpl. rewrite filter_app.
  rewrite (filter_tag_none (f 0%nat x) t (k + 0)) by (lia || apply Hf).
  apply (IH (f ∘ S) (S k)); [|lia].
  intros j y. eapply Forall_impl; [apply (Hf (S j) y)|].
  simpl. intros s Hs. lia.
Qed.

(** The steps with a given tag, in a concatenation of blocks that are
    tagged with their position. *)
Lemma filter_tag_concat_imap {A} (f : nat → A → list VariantA.Step)
    (l : list A) (k i : nat) :
  (∀ j x, Forall (λ s, VariantA.fromIndex s = (k + j)%nat) (f j x)) →
  filter (λ s, VariantA.fromIndex s = (k + i)%nat) (concat (imap f l))
  = match l !! i with Some x => f i x | None => [] end.
Proof.
  revert f k i. induction l as [|x l IH]; intros f k i Hf; [done|].
  assert (Hshift : ∀ j y, Forall (λ s, VariantA.fromIndex s = (S k + j)%nat)
                            ((f ∘ S) j y)).
  { intros j y. eapply Forall_impl; [apply (Hf (S j) y)|].
    simpl. intros s Hs. lia. }
  simpl. rewrite filter_app. destruct i as [|i]; simpl.
  - rewrite (filter_tag_all (f 0%nat x)) by apply Hf.
    rewrite (filter_tag_below (f ∘ S) l (S k)) by (lia || done).
    apply app_nil_r.
  - rewrite (filter_tag_none (f 0%nat x) (k + S i) (k + 0)) by (lia || apply Hf).
    replace (k + S i)%nat with (S k + i)%nat by lia.
    by apply (IH (f ∘ S) (S k) i).
Qed.

Lemma expandA_tagged (commandQueue : list string) (i : nat) (cmd : string) :
  commandQueue !! i = Some cmd →
  filter (λ s, VariantA.fromIndex s = i)
    (VariantA.expandCommandsForExecution commandQueue)
  = VariantA.expandBody commandQueue i cmd.
Proof.
  intros Hcmd. rewrite expandA_imap.
  pose proof (filter_tag_concat_imap (VariantA.expandBody commandQueue)
                commandQueue 0 i) as Hf.
  simpl in Hf. rewrite Hf; [by rewrite Hcmd|].
  intros j x. apply expandBodyA_fromIndex.
Qed.

(** X22. The conditional of the first version looks one command ahead. The
    steps tagged with the index of an "IFBLUE" are: one "IFBLUE" step that
    carries the next command as [nextAction], when there is a next command
    (which is still expanded at its own index as well); and one "NOOP_COND"
    step when the "IFBLUE" is the last command. A "LOOP2" that is the last
    command yields one "NOOP" step. *)
Theorem expandA_lookahead (commandQueue : list string) (i : nat) :
  let tagged j :=
    filter (λ s, VariantA.fromIndex s = j)
      (VariantA.expandCommandsForExecution commandQueue) in
  (∀ next,
     commandQueue !! i = Some "IFBLUE" →
     commandQueue !! S i = Some next → next ≠ "" →
     tagged i = [VariantA.mkStep i (Some "IFBLUE") (Some next)]
     ∧ tagged (S i) = VariantA.expandBody commandQueue (S i) next)
  ∧ (commandQueue !! i = Some "IFBLUE" → commandQueue !! S i = None →
     tagged i = [VariantA.mkStep i (Some "NOOP_COND") None])
  ∧ (commandQueue !! i = Some "LOOP2" → commandQueue !! S i = None →
     tagged i = [VariantA.mkStep i (Some "NOOP") None]).
Proof.
  intros tagged. unfold tagged. split_and!.
  - intros next Hcmd Hnext Hne.
    rewrite (expandA_tagged _ _ _ Hcmd), (expandA_tagged _ _ _ Hnext).
    split; [|done]. unfold VariantA.expandBody. simpl.
    replace (i + 1)%nat with (S i) by lia. rewrite Hnext.
    by destruct (String.eqb_spec next "").
  - intros Hcmd Hnone. rewrite (expandA_tagged _ _ _ Hcmd).
    unfold VariantA.expandBody. simpl.
    replace (i + 1)%nat with (S i) by lia. by rewrite Hnone.
  - intros Hcmd Hnone. rewrite (expandA_tagged _ _ _ Hcmd).
    unfold VariantA.expandBody. simpl.
    replace (i + 1)%nat with (S i) by lia. by rewrite Hnone.
Qed.

Lemma expandA_lookahead_witness :
  filter (λ s, VariantA.fromIndex s = 1%nat)
    (VariantA.expandCommandsForExecution ["F"; "IFBLUE"; "R"])
  = [VariantA.mkStep 1 (Some "IFBLUE") (Some "R")]
  ∧ filter (λ s, VariantA.fromIndex s = 2%nat)
      (VariantA.expandCommandsForExecution ["F"; "IFBLUE"; "R"])
    = VariantA.expandBody ["F"; "IFBLUE"; "R"] 2 "R".
Proof.
  destruct (expandA_lookahead ["F"; "IFBLUE"; "R"] 1) as [Hnext _].
  apply (Hnext "R"); [reflexivity | reflexivity | discriminate].
Defined.

(** X23. The two versions expand a queue in the same way as long as it
    holds no "IFBLUE": same steps, same tags, same actions (and no
    [nextAction]). *)
Theorem expanders_agree (commandQueue : list string) :
  "IFBLUE" ∉ commandQueue →
  VariantA.expandCommandsForExecution commandQueue
  = stepA <$> expandCommandsForExecution commandQueue.
Proof.
  intros Hno. rewrite expandA_imap, expand_imap, <- concat_imap_fmap.
  f_equal. apply imap_ext. intros i cmd Hcmd.
  assert (Hne : cmd ≠ "IFBLUE").
  { intros ->. apply Hno. by apply list_elem_of_lookup_2 in Hcmd. }
  unfold VariantA.expandBody, expandBody.
  destruct (String.eqb_spec cmd "LOOP2") as [->|_].
  { destruct (commandQueue !! (i + 1)%nat) as [next|]; [|done].
    by destruct (String.eqb_spec next ""). }
  destruct (String.eqb_spec cmd "IFBLUE") as [->|_]; [done|].
  destruct (String.eqb_spec cmd "IFBLUE_R") as [->|_]; [done|].
  by destruct (String.eqb_spec cmd "IFBLUE_L") as [->|_].
Qed.

Lemma expanders_agree_witness :
  VariantA.expandCommandsForExecution ["F"; "LOOP2"; "IFBLUE_R"; "LOOP2"]
  = stepA <$> expandCommandsForExecution ["F"; "LOOP2"; "IFBLUE_R"; "LOOP2"].
Proof.
  apply (expanders_agree ["F"; "LOOP2"; "IFBLUE_R"; "LOOP2"]).
  intros H. repeat (apply elem_of_cons in H as [H|H]; [discriminate|]).
  by apply elem_of_nil in H.
Defined.

(** ** Its step interpreter *)

Lemma performStepA_fuel (fuel fuel' : nat) (w : World) (step : VariantA.Step)
    (o : StepOutcome) :
  VariantA.performStep fuel w step = Some o →
  (fuel ≤ fuel')%nat →
  VariantA.performStep fuel' w step = Some o.
Proof.
  revert fuel' step. induction fuel as [|fuel IH]; intros fuel' step; [done|].
  destruct fuel' as [|fuel']; [lia|]. simpl.
  repeat case_match; try done. intros Hrec Hle. apply IH; [done|lia].
Qed.

(** X24. The recursion of the first version's [performStep] is shallow: no
    step needs more than three nested calls, whatever its action and
    [nextAction] ("IFBLUE" on a blue cell calls itself with the next action,
    and a step made up this way has no [nextAction] of its own). The call
    always comes back, with the same outcome for any greater depth
    allowed. *)
Theorem performStepA_depth (extra : nat) (w : World) (step : VariantA.Step) :
  ∃ outcome,
    VariantA.performStep 3 w step = Some outcome
    ∧ VariantA.performStep (3 + extra) w step = Some outcome.
Proof.
  assert (Hsome : ∃ outcome, VariantA.performStep 3 w step = Some outcome).
  { destruct step as [i type next]. simpl. repeat case_match; by eauto. }
  destruct Hsome as [outcome Hsome]. exists outcome. split; [done|].
  apply (performStepA_fuel 3); [done|lia].
Qed.

(** X25. Steps of the two versions. On every action other than the three
    conditional tokens the two [performStep] act alike (whatever
    [nextAction] the step carries). The first version's "IFBLUE" step that
    carries "R" (or "L") acts exactly like the second version's "IFBLUE_R"
    (or "IFBLUE_L") step: a turn on a blue cell, nothing elsewhere, the same
    [TypeError] off the grid. *)
Theorem steps_agree (fuel : nat) (w : World) (i : nat) :
  (∀ a next,
     a ≠ "IFBLUE" → a ≠ "IFBLUE_R" → a ≠ "IFBLUE_L" →
     VariantA.performStep (S fuel) w (VariantA.mkStep i (Some a) next)
     = Some (performStep w (mkStep i a)))
  ∧ VariantA.performStep (S (S fuel)) w
      (VariantA.mkStep i (Some "IFBLUE") (Some "R"))
    = Some (performStep w (mkStep i "IFBLUE_R"))
  ∧ VariantA.performStep (S (S fuel)) w
      (VariantA.mkStep i (Some "IFBLUE") (Some "L"))
    = Some (performStep w (mkStep i "IFBLUE_L")).
Proof.
  split_and!.
  - intros a next Ha Har Hal.
    unfold performStep. cbn [VariantA.performStep]. simpl.
    destruct (String.eqb_spec a "NOOP") as [->|_]; [done|].
    destruct (String.eqb_spec a "NOOP_COND") as [->|_]; [done|]. simpl.
    destruct (String.eqb_spec a "IFBLUE") as [->|_]; [done|].
    destruct (String.eqb_spec a "IFBLUE_R") as [->|_]; [done|].
    destruct (String.eqb_spec a "IFBLUE_L") as [->|_]; [done|].
    destruct (String.eqb_spec a "L") as [->|_]; [done|].
    destruct (String.eqb_spec a "R") as [->|_]; [done|].
    destruct (String.eqb_spec a "F") as [->|_]; [|done].
    repeat case_match; done.
  - unfold performStep. simpl.
    destruct (gridGet _ _ _) as [cell|]; [|done].
    by destruct (strictEq cell "blue").
  - unfold performStep. simpl.
    destruct (gridGet _ _ _) as [cell|]; [|done].
    by destruct (strictEq cell "blue").
Qed.

Lemma steps_agree_witness :
  VariantA.performStep 1 (sampleWorld (mkAgent 1 0 1) [])
    (VariantA.mkStep 0 (Some "F") None)
  = Some (performStep (sampleWorld (mkAgent 1 0 1) []) (mkStep 0 "F")).
Proof.
  destruct (steps_agree 0 (sampleWorld (mkAgent 1 0 1) []) 0) as [Hplain _].
  apply (Hplain "F" None); discriminate.
Defined.

(** Three nested calls are needed for an "IFBLUE" that carries "IFBLUE" on
    a blue cell. *)
Example performStepA_three_calls :
  VariantA.performStep 2 (sampleWorld (mkAgent 2 0 1) [])
    (VariantA.mkStep 0 (Some "IFBLUE") (Some "IFBLUE")) = None
  ∧ VariantA.performStep 3 (sampleWorld (mkAgent 2 0 1) [])
      (VariantA.mkStep 0 (Some "IFBLUE") (Some "IFBLUE"))
    = Some (Returned (sampleWorld (mkAgent 2 0 1) []) true).
Proof. by split. Qed.

(** ** Its map generator *)

Section GeneratorA.

Variable rnd : nat → nat.

Lemma goalLoopA_result (fuel : nat) (startPos : Pos) (c : nat) (goal : Pos)
    (c' : nat) :
  VariantA.goalLoop rnd fuel startPos c = Some (goal, c') →
  onBoard goal
  ∧ ¬ (pos_x goal = pos_x startPos ∧ pos_y goal = pos_y startPos).
Proof.
  revert c. induction fuel as [|fuel IH]; intros c; [done|].
  cbn [VariantA.goalLoop].
  destruct (randInt rnd 0 (GRID_SIZE - 1) c) as [gx c1] eqn:Hgx.
  destruct (randInt rnd 0 (GRID_SIZE - 1) c1) as [gy c2] eqn:Hgy.
  pose proof (randInt_range rnd 0 (GRID_SIZE - 1) c ltac:(done)) as [Hx _].
  pose proof (randInt_range rnd 0 (GRID_SIZE - 1) c1 ltac:(done)) as [Hy _].
  rewrite Hgx in Hx. rewrite Hgy in Hy. simpl in Hx, Hy. cbn [pos_x pos_y].
  destruct ((gx =? pos_x startPos) && (gy =? pos_y startPos)) eqn:Hsame;
    [apply IH|].
  intros [= <- _]. unfold onBoard, GRID_SIZE in *. simpl. lia.
Qed.

Lemma goalLoopA_never_ends (fuel : nat) (c : nat) :
  (∀ n, Z.of_nat (rnd n) `mod` 5 = 0) →
  VariantA.goalLoop rnd fuel (mkPos 0 0) c = None.
Proof.
  intros Hzero. revert c. induction fuel as [|fuel IH]; intros c; [done|].
  cbn [VariantA.goalLoop]. unfold randInt, randomFloorTimes.
  change (GRID_SIZE - 1 - 0 + 1) with 5. rewrite !Hzero. simpl. apply IH.
Qed.

Variables (kind : string) (startPos goalPos : Pos) (count : Z).

(** A placing loop that ends has placed exactly [count] cells of its kind,
    each over an "empty" cell other than the start and the goal. *)
Lemma placeLoopA_result (fuel : nat) (g : Grid) (placed : Z) (c : nat)
    (g' : Grid) (placed' : Z) (c' : nat) :
  VariantA.placeLoop rnd kind fuel startPos goalPos count g placed c
  = Some (g', placed', c') →
  kind ≠ "empty" → kind ∈ ["empty"; "wall"; "blue"; "goal"] →
  squareGrid g → cellsAreKinds g → placed ≤ count →
  squareGrid g' ∧ cellsAreKinds g' ∧ placed' = count
  ∧ (∀ k, k ≠ "empty" →
       Z.of_nat (countCells k g')
       = Z.of_nat (countCells k g)
         + (if decide (kind = k) then count - placed else 0))
  ∧ gridGet g' (pos_x startPos) (pos_y startPos)
    = gridGet g (pos_x startPos) (pos_y startPos)
  ∧ gridGet g' (pos_x goalPos) (pos_y goalPos)
    = gridGet g (pos_x goalPos) (pos_y goalPos).
Proof.
  intros Hloop Hke Hkk. revert g placed c Hloop.
  induction fuel as [|fuel IH]; intros g placed c Hloop Hsq Hkinds Hle.
  { simpl in Hloop. destruct (placed <? count) eqn:Hcond; [done|].
    injection Hloop as <- <- <-. split_and!; try done; try lia.
    intros k _. case_decide; lia. }
  cbn [VariantA.placeLoop] in Hloop.
  destruct (placed <? count) eqn:Hcond.
  2:{ injection Hloop as <- <- <-. split_and!; try done; try lia.
      intros k _. case_decide; lia. }
  destruct (randInt rnd 0 (GRID_SIZE - 1) c) as [x c1] eqn:Hrx.
  destruct (randInt rnd 0 (GRID_SIZE - 1) c1) as [y c2] eqn:Hry.
  pose proof (randInt_range rnd 0 (GRID_SIZE - 1) c ltac:(done)) as [Hx _].
  pose proof (randInt_range rnd 0 (GRID_SIZE - 1) c1 ltac:(done)) as [Hy _].
  rewrite Hrx in Hx. rewrite Hry in Hy. simpl in Hx, Hy.
  assert (Hx' : 0 ≤ x < GRID_SIZE) by (unfold GRID_SIZE in *; lia).
  assert (Hy' : 0 ≤ y < GRID_SIZE) by (unfold GRID_SIZE in *; lia).
  destruct (((x =? pos_x startPos) && (y =? pos_y startPos))
            || ((x =? pos_x goalPos) && (y =? pos_y goalPos))) eqn:Hguard;
    [by apply (IH g placed c2)|].
  destruct (squareGrid_gridGet g x y Hsq Hx' Hy') as [cell Hcell].
  rewrite Hcell in Hloop. simpl in Hloop.
  destruct (cell =? "empty")%string eqn:Hempty;
    [|by apply (IH g placed c2)].
  apply String.eqb_eq in Hempty. subst cell. simpl in Hloop.
  destruct (squareGrid_gridSet g x y kind Hsq Hx' Hy')
    as (g1 & Hset & Hsq1 & Hread).
  rewrite Hset in Hloop. simpl in Hloop.
  destruct (IH g1 (placed + 1) c2 Hloop Hsq1)
    as (Hsq' & Hkinds' & Hp' & Hcount' & Hs' & Hg'); [|lia|].
  { intros x' y' cell'. rewrite Hread.
    destruct (decide (x' = x ∧ y' = y)); [|apply Hkinds].
    by intros [= <-]. }
  split_and!; try done.
  - intros k Hk. rewrite (Hcount' k Hk).
    pose proof (countCells_gridSet k g g1 x y "empty" kind Hcell Hset) as Hc.
    rewrite (decide_False (P := "empty" = k)) in Hc by done.
    destruct (decide (kind = k)); lia.
  - rewrite Hs', Hread. rewrite decide_False; [done|]. lia.
  - rewrite Hg', Hread. rewrite decide_False; [done|]. lia.
Qed.

End GeneratorA.

(** A walk between two different cells passes a cell next to its last. *)
Lemma stepwise_before_last (path : list Pos) (start goal : Pos) :
  head path = Some start → last path = Some goal → start ≠ goal →
  stepwise path = true →
  ∃ q, q ∈ path ∧ manhattan q goal = 1.
Proof.
  revert start. induction path as [|p rest IH]; intros start; [done|].
  intros [= ->] Hlast Hne Hstep.
  destruct rest as [|q rest]; [by injection Hlast as ->|].
  cbn [stepwise] in Hstep. apply andb_prop in Hstep as [Hnext Hstep].
  destruct (decide (q = goal)) as [->|Hq].
  - exists start. split; [apply list_elem_of_here|].
    unfold manhattan. lia.
  - destruct (IH q eq_refl Hlast Hq Hstep) as (q' & Hin & Hnear).
    exists q'. split; [by apply list_elem_of_further|done].
Qed.

(** X26. What the first version's generator has made when it returns: a
    square grid of the four kinds, the goal on a cell of the board other
    than the start (0, 0) and the only "goal" of the grid, the start
    "empty", exactly [wallCount] walls with [wallCount] between 3 and 6,
    and exactly [blueCount] blue cells with [blueCount] 1 or 2. The agent
    is put on the start; its heading is left as it was. *)
Theorem generateRandomMapA_counts (rnd : nat → nat) (fuel : nat) (w : World)
    (c : nat) (r : VariantA.Generated) :
  VariantA.generateRandomMap rnd fuel w c = Some r →
  let w' := VariantA.gen_world r in
  squareGrid (grid w') ∧ cellsAreKinds (grid w')
  ∧ startPos w' = mkPos 0 0
  ∧ onBoard (goalPos w') ∧ goalPos w' ≠ startPos w'
  ∧ countCells "goal" (grid w') = 1%nat
  ∧ gridGet (grid w') (pos_x (goalPos w')) (pos_y (goalPos w'))
    = Some (Some "goal")
  ∧ gridGet (grid w') 0 0 = Some (Some "empty")
  ∧ 3 ≤ VariantA.gen_wallCount r ≤ 6
  ∧ Z.of_nat (countCells "wall" (grid w')) = VariantA.gen_wallCount r
  ∧ 1 ≤ VariantA.gen_blueCount r ≤ 2
  ∧ Z.of_nat (countCells "blue" (grid w')) = VariantA.gen_blueCount r
  ∧ agentState w' = mkAgent 0 0 (agent_dir (agentState w)).
Proof.
  unfold VariantA.generateRandomMap. intros Hgen.
  destruct (VariantA.goalLoop rnd fuel (mkPos 0 0) c) as [[goal c1]|] eqn:Hgl;
    [|done].
  apply goalLoopA_result in Hgl as [Hon Hne].
  cbn [mbind option_bind] in Hgen.
  destruct (goal_written goal Hon) as (g1' & Hset' & (_ & Hone & _) & _).
  destruct (goal_written_cells goal Hon)
    as (g1 & Hset & Hsq1 & Hread1 & Hkinds1 & Hblue1 & Hwall1).
  rewrite Hset in Hset'. injection Hset' as <-.
  rewrite Hset in Hgen. cbn [mbind option_bind] in Hgen.
  pose proof (randInt_range rnd 3 6 c1 ltac:(done)) as [Hwc _].
  destruct (randInt rnd 3 6 c1) as [wallCount c2]. simpl in Hwc.
  destruct (VariantA.placeLoop rnd "wall" fuel (mkPos 0 0) goal wallCount
              g1 0 c2) as [[[g2 placedWalls] c3]|] eqn:Hwalls; [|done].
  apply placeLoopA_result in Hwalls
    as (Hsq2 & Hkinds2 & _ & Hcount2 & Hstart2 & Hgoal2);
    [|done|in_kinds|done|done|lia].
  cbn [mbind option_bind] in Hgen.
  pose proof (randInt_range rnd 1 2 c3 ltac:(done)) as [Hbc _].
  destruct (randInt rnd 1 2 c3) as [blueCount c4]. simpl in Hbc.
  destruct (VariantA.placeLoop rnd "blue" fuel (mkPos 0 0) goal blueCount
              g2 0 c4) as [[[g3 placedBlue] c5]|] eqn:Hblues; [|done].
  apply placeLoopA_result in Hblues
    as (Hsq3 & Hkinds3 & _ & Hcount3 & Hstart3 & Hgoal3);
    [|done|in_kinds|done|done|lia].
  cbn [mbind option_bind] in Hgen. injection Hgen as <-.
  cbn [pos_x pos_y] in *. cbn.
  pose proof (Hcount2 "goal" ltac:(done)) as Hg2.
  pose proof (Hcount2 "wall" ltac:(done)) as Hw2.
  pose proof (Hcount2 "blue" ltac:(done)) as Hb2.
  pose proof (Hcount3 "goal" ltac:(done)) as Hg3.
  pose proof (Hcount3 "wall" ltac:(done)) as Hw3.
  pose proof (Hcount3 "blue" ltac:(done)) as Hb3.
  rewrite decide_False in Hg2 by done. rewrite decide_False in Hg3 by done.
  rewrite decide_False in Hb2 by done. rewrite decide_False in Hw3 by done.
  rewrite decide_True in Hw2 by done. rewrite decide_True in Hb3 by done.
  destruct (Hread1 0 0) as [Hgoal1 Hstart1]. unfold countCells in *.
  split_and!; try done; try lia.
  - intros ->. by apply Hne.
  - by rewrite Hgoal3, Hgoal2.
  - rewrite Hstart3, Hstart2. apply Hstart1; [|done|done].
    intros [Hx0 Hy0]. by apply Hne.
Qed.

Lemma generateRandomMapA_counts_witness :
  ∃ r, VariantA.generateRandomMap (λ n, n * n + n / 3 + 2)%nat 100
         (sampleWorld (mkAgent 3 2 0) []) 0 = Some r
    ∧ Z.of_nat (countCells "wall" (grid (VariantA.gen_world r)))
      = VariantA.gen_wallCount r
    ∧ Z.of_nat (countCells "blue" (grid (VariantA.gen_world r)))
      = VariantA.gen_blueCount r.
Proof.
  eexists. split; [vm_compute; reflexivity|].
  pose proof (generateRandomMapA_counts (λ n, n * n + n / 3 + 2)%nat 100
                (sampleWorld (mkAgent 3 2 0) []) 0 _ eq_refl) as Hcounts.
  split; apply Hcounts.
Defined.

(** X27. The first version's generator need not return: against a random
    source whose draws all fall in the first fifth of [0, 1) the goal is
    drawn on the start (0, 0) every time, and the loop that draws it never
    ends. (The later version gives up after 50 draws.) *)
Theorem generateRandomMapA_may_not_return (rnd : nat → nat) (fuel : nat)
    (w : World) (c : nat) :
  (∀ n, Z.of_nat (rnd n) `mod` 5 = 0) →
  VariantA.generateRandomMap rnd fuel w c = None.
Proof.
  intros Hzero. unfold VariantA.generateRandomMap.
  by rewrite goalLoopA_never_ends.
Qed.

Lemma generateRandomMapA_may_not_return_witness :
  VariantA.generateRandomMap (λ _, 10%nat) 1000
    (sampleWorld (mkAgent 0 0 1) []) 0 = None.
Proof.
  apply (generateRandomMapA_may_not_return (λ _, 10%nat)).
  intros n. reflexivity.
Defined.

(** X28. The first version's generator can wall the goal in: there is a
    random source against which it returns a map on which every walk over
    the board from the start to the goal crosses a wall. (The later version
    keeps a path free of walls.) *)
Theorem generateRandomMapA_can_wall_in_goal (w : World) :
  ∃ rnd r,
    VariantA.generateRandomMap rnd 100 w 0 = Some r
    ∧ ∀ path,
        head path = Some (startPos (VariantA.gen_world r)) →
        last path = Some (goalPos (VariantA.gen_world r)) →
        stepwise path = true →
        Forall onBoard path →
        ¬ pathClear path (grid (VariantA.gen_world r)).
Proof.
  exists (λ n, nth n [4; 4; 0; 3; 4; 4; 3; 1; 1; 0; 2; 2] 0)%nat.
  eexists. split; [vm_compute; reflexivity|].
  cbn [VariantA.gen_world startPos goalPos grid].
  intros path Hhead Hlast Hstep Hboard Hclear.
  destruct (stepwise_before_last path _ _ Hhead Hlast ltac:(done) Hstep)
    as ([qx qy] & Hin & Hnear).
  rewrite Forall_forall in Hboard.
  destruct (Hboard _ Hin) as [Hx Hy].
  apply (Hclear _ Hin).
  unfold manhattan, GRID_SIZE in *. cbn [pos_x pos_y] in *.
  assert (Hq : (qx = 3 ∧ qy = 4) ∨ (qx = 4 ∧ qy = 3)) by lia.
  by destruct Hq as [[-> ->]|[-> ->]].
Qed.
